(** * stenox: the coalescing atomic file writer of [src/index.ts]

    The development embeds the [Writer] class as a state machine.  The
    class is asynchronous: a call of [write] runs synchronously up to its
    first [await], and the rest of the body runs when the awaited storage
    operation settles.  The embedding therefore has one function per
    run-to-completion segment of the source, a heap of promises, and a
    list of the [#flush] activations that are suspended in the [await] of
    their [finally] block.  The environment drives the machine with
    events: a caller invokes [write], or the storage operation in flight
    fulfils or rejects.

    Each event is handled to completion, as one turn of the event loop
    is, and a state of the machine is the state at the end of the turn.
    The reactions of promises are taken at once: a promise that adopted
    another one is observed in the state of that one, and an activation
    suspended on a settled promise resumes in the same step.  In the code
    these reactions run one after the other within the turn, so between
    two of them [busy] can already be false while the promise of an outer
    activation is still pending.  The code that runs after the [await] of
    the [finally] block touches no field of the writer, so the fields of
    the writer, the storage operations and the files are those of the code
    at every moment; the states of the promises are those of the code at
    the end of each turn. *)

From Stdlib Require Import Ascii String.
From stdpp Require Import base option list strings sorting.

Set Default Proof Using "Type".
Open Scope string_scope.
Open Scope list_scope.

(** ** Values *)

(** [Content] is the second parameter of [writeFile].  Strings are the
    payloads the claims talk about; the other members of the union
    (buffers, iterables, streams) are objects and behave like a non-empty
    string wherever the code looks at a payload. *)
Definition Content := string.

(** A value thrown by the storage layer: an [Error] object, as
    [node:fs/promises] produces, or any other thrown value. *)
Inductive thrown :=
| ErrorObject (message : string)
| NotAnError (value : string).

Definition instanceof_Error (err : thrown) : bool :=
  match err with ErrorObject _ => true | NotAnError _ => false end.

#[global] Instance thrown_eq_dec : EqDecision thrown.
Proof. solve_decision. Defined.

(** A [URL] object, as far as [fileURLToPath] reads it. *)
Record URL := MkURL {
  protocol : string;
  hostname : string;
  pathname : string;
}.

(** [PathLike]: a string (or a buffer, through its [toString()]) or a URL. *)
Inductive PathLike :=
| PathString (s : string)
| PathURL (u : URL).

(** ** Promises

    A promise is a cell of the heap.  [Own None] is pending, [Own (Some s)]
    is settled.  [Adopt p] is a promise that was resolved with the promise
    [p] and follows its state: this is what an [async] function's own
    promise becomes when its body returns a promise. *)
Abbreviation pid := nat (only parsing).

Inductive settlement :=
| Fulfilled
| Rejected (err : thrown).

#[global] Instance settlement_eq_dec : EqDecision settlement.
Proof. solve_decision. Defined.

Inductive cell :=
| Own (st : option settlement)
| Adopt (source : pid).

Abbreviation heap := (list cell) (only parsing).

Definition alloc (c : cell) (h : heap) : pid * heap := (length h, h ++ [c]).

(** The resolving functions of a promise do nothing once it is settled. *)
Definition settle (h : heap) (p : pid) (s : settlement) : heap :=
  match h !! p with
  | Some (Own None) => <[p := Own (Some s)]> h
  | _ => h
  end.

Fixpoint follow (fuel : nat) (h : heap) (p : pid) : option settlement :=
  match h !! p with
  | Some (Own st) => st
  | Some (Adopt q) =>
      match fuel with
      | O => None
      | S fuel' => follow fuel' h q
      end
  | None => None
  end.

(** The state a holder of promise [p] observes. *)
Definition state_of (h : heap) (p : pid) : option settlement :=
  follow (length h) h p.

(** [[Done, Fail]]: the pair of resolving functions that the executor of
    [new Promise] receives; both close over the promise they settle. *)
Record callbacks := Callbacks { settles : pid }.

Definition call_done (cb : option callbacks) (h : heap) : heap :=
  match cb with
  | Some c => settle h (settles c) Fulfilled
  | None => h
  end.

Definition call_fail (cb : option callbacks) (err : thrown) (h : heap) : heap :=
  match cb with
  | Some c => settle h (settles c) (Rejected err)
  | None => h
  end.

(** ** The writer object *)
Record Writer := MkWriter {
  target : PathLike;
  tmp : string;
  active : bool;
  current : option callbacks;
  waiting : option callbacks;
  queued : option pid;
  buffer : option Content;
}.

Definition path (w : Writer) : PathLike := target w.
Definition busy (w : Writer) : bool := active w.

(** ** Storage and the runtime *)
Inductive storage_op :=
| WriteFile (file : string) (data : Content)
| Rename (from : string) (to : PathLike).

(** The two files the writer owns. *)
Record files := MkFiles {
  tmp_file : option Content;
  target_file : option Content;
}.

(** The completion of the [try]/[catch] part of a [#flush] activation:
    normal, or the rethrown value. *)
Definition completion := option thrown.

Definition outcome (c : completion) : settlement :=
  match c with
  | None => Fulfilled
  | Some err => Rejected err
  end.

(** An activation suspended at [await this.write(next)] in its [finally]
    block: its own promise, the promise it awaits, and the completion it
    resumes once the [finally] block is over. *)
Record frame := MkFrame {
  promise : pid;
  awaiting : pid;
  pending : completion;
}.

Record World := MkWorld {
  this : Writer;
  promises : heap;
  in_flight : option (pid * storage_op);
  suspended : list frame;
  disk : files;
  oplog : list storage_op;
}.

Inductive event :=
| Call (content : Content)
| StorageOk
| StorageFail (err : thrown).

(** Resuming the suspended activations, innermost first.  An activation
    whose awaited promise is rejected leaves its [finally] block with that
    error, which replaces its pending completion; otherwise it resumes its
    pending completion.  Nothing of the writer is touched after the
    [await], so only promises change. *)
Fixpoint resume (fs : list frame) (h : heap) : list frame * heap :=
  match fs with
  | [] => ([], h)
  | fr :: rest =>
      match state_of h (awaiting fr) with
      | None => (fs, h)
      | Some Fulfilled => resume rest (settle h (promise fr) (outcome (pending fr)))
      | Some (Rejected err) => resume rest (settle h (promise fr) (Rejected err))
      end
  end.

(** ** Paths

    [node:path] and [node:url] are not part of the repository.  Their
    functions are modelled here after the documentation and the behaviour
    of Node.js for POSIX paths ([path.posix]); on Windows [node:path] is
    [path.win32], which is not covered.  A path is a string and ["/"] is
    the separator. *)

Definition is_separator (c : ascii) : bool := bool_decide (c = "/"%char).

(** The components of a path: the text between separators, the empty
    components included. *)
Fixpoint components (s : string) : list string :=
  match s with
  | "" => [""]
  | String c r =>
      if is_separator c then "" :: components r
      else match components r with
           | h :: t => String c h :: t
           | [] => [String c ""]
           end
  end.

(** The components put together again, with one separator between two. *)
Fixpoint glue (l : list string) : string :=
  match l with
  | [] => ""
  | [x] => x
  | x :: r => x +:+ "/" +:+ glue r
  end.

Definition is_absolute (s : string) : bool :=
  match s with String c _ => is_separator c | "" => false end.

Fixpoint ends_with_separator (s : string) : bool :=
  match s with
  | "" => false
  | String c "" => is_separator c
  | String _ r => ends_with_separator r
  end.

Fixpoint no_separator (s : string) : bool :=
  match s with
  | "" => true
  | String c r => negb (is_separator c) && no_separator r
  end.

(** A component that is not empty. *)
Definition ordinary (c : string) : Prop := c ≠ "" ∧ no_separator c = true.

(** The last component that is not empty: trailing separators are
    skipped.  The empty string if there is none. *)
Fixpoint last_component (l : list string) : string :=
  match l with
  | [] => ""
  | x :: r => let y := last_component r in if decide (y = "") then x else y
  end.

(** The components before the last one that is not empty. *)
Fixpoint before_last_component (l : list string) : option (list string) :=
  match l with
  | [] => None
  | x :: r =>
      match before_last_component r with
      | Some b => Some (x :: b)
      | None => if decide (x = "") then None else Some []
      end
  end.

(** [path.basename(path)]: the last portion of the path. *)
Definition basename (path : string) : string := last_component (components path).

(** [path.dirname(path)]: the text before the separator that precedes the
    last portion; ["."] when there is no such separator, ["/"] when it is
    the first character, ["//"] when it is the second one of an absolute
    path. *)
Definition dirname (path : string) : string :=
  match before_last_component (components path) with
  | None | Some [] => if is_absolute path then "/" else "."
  | Some b =>
      let d := glue b in
      if decide (d = "") then "/" else if decide (d = "/") then "//" else d
  end.

(** One component met by [path.normalize]: empty components and ["."] are
    dropped, [".."] drops the component kept last; at the start of a
    relative path [".."] is kept.  [stack] holds the components kept so
    far, the last one first. *)
Definition walk (absolute : bool) (stack : list string) (c : string) : list string :=
  if decide (c = "") then stack
  else if decide (c = ".") then stack
  else if decide (c = "..") then
    match stack with
    | [] => if absolute then [] else [".."]
    | top :: below =>
        if decide (top = "..") then (if absolute then stack else ".." :: stack)
        else below
    end
  else c :: stack.

(** [path.normalize(path)] *)
Definition normalize (path : string) : string :=
  if decide (path = "") then "."
  else
    let absolute := is_absolute path in
    let trailing := ends_with_separator path in
    let kept := rev (foldl (walk absolute) [] (components path)) in
    match kept with
    | [] => if absolute then "/" else if trailing then "./" else "."
    | _ => (if absolute then "/" else "") +:+ glue kept +:+ (if trailing then "/" else "")
    end.

(** [path.join(a, b)]: the segments that are not empty, joined with the
    separator, then normalised. *)
Definition join (a b : string) : string :=
  if decide (a = "") then (if decide (b = "") then "." else normalize b)
  else if decide (b = "") then normalize a
  else normalize (a +:+ "/" +:+ b).

(** The string has no escape sequence: no ["%"]. *)
Fixpoint escape_free (s : string) : bool :=
  match s with
  | "" => true
  | String c r => negb (bool_decide (c = "%"%char)) && escape_free r
  end.

(** [decodeURIComponent] is a built-in of the language.  Here it matters
    only that it returns a string or throws ([None]), and that it returns
    a string without escape sequences as it is. *)
Class Builtins := {
  decodeURIComponent : string → option string;
  decodeURIComponent_plain s : escape_free s = true → decodeURIComponent s = Some s;
}.

(** The path holds ["%2f"] or ["%2F"], an encoded separator. *)
Fixpoint encoded_separator (s : string) : bool :=
  match s with
  | "" => false
  | String c r =>
      (bool_decide (c = "%"%char) &&
       match r with
       | String d (String e _) =>
           bool_decide (d = "2"%char) &&
           (bool_decide (e = "f"%char) || bool_decide (e = "F"%char))
       | _ => false
       end)
      || encoded_separator r
  end.

(** [fileURLToPath(url)] for a [URL] object, on POSIX.  [None]: it throws
    a [TypeError], because the URL is not a [file:] URL, names a host, or
    has an encoded separator in its path; or [decodeURIComponent] throws. *)
Definition fileURLToPath `{Builtins} (url : URL) : option string :=
  if decide (protocol url = "file:") then
    if decide (hostname url = "") then
      if encoded_separator (pathname url) then None
      else decodeURIComponent (pathname url)
    else None
  else None.

(** ** [temp] and the constructor *)

(** [file instanceof URL ? fileURLToPath(file) : file.toString()] *)
Definition as_string `{Builtins} (file : PathLike) : option string :=
  match file with
  | PathURL u => fileURLToPath u
  | PathString s => Some s
  end.

(** [temp]; [None] when [fileURLToPath] throws. *)
Definition temp `{Builtins} (file : PathLike) : option string :=
  match as_string file with
  | Some path => Some (join (dirname path) ("." +:+ basename path +:+ ".tmp"))
  | None => None
  end.

(** The object the constructor leaves, given the two paths. *)
Definition writer_on (file : PathLike) (tmp_path : string) : Writer :=
  {| target := file; tmp := tmp_path; active := false;
     current := None; waiting := None; queued := None; buffer := None |}.

(** The constructor: [this.#target = file; this.#tmp = temp(file)].  It
    throws ([None]) when [temp] does. *)
Definition constructor `{Builtins} (file : PathLike) : option Writer :=
  match temp file with
  | Some tmp_path => Some (writer_on file tmp_path)
  | None => None
  end.

Definition boot (w : Writer) (d : files) : World :=
  {| this := w; promises := []; in_flight := None; suspended := [];
     disk := d; oplog := [] |}.

(** Effects of a storage operation that fulfils. *)
Definition commit (op : storage_op) (d : files) : files :=
  match op with
  | WriteFile _ data => {| tmp_file := Some data; target_file := target_file d |}
  | Rename _ _ => {| tmp_file := None; target_file := tmp_file d |}
  end.

(** ** The compact variant (first [Writer] of [index.ts]) *)
Module Compact.

(** [#defer] *)
Definition defer (content : Content) (σ : World) : pid * World :=
  let w := this σ in
  match queued w with
  | Some q =>
      (q, {| this := {| target := target w; tmp := tmp w; active := active w;
                        current := current w; waiting := waiting w;
                        queued := Some q; buffer := Some content |};
             promises := promises σ; in_flight := in_flight σ;
             suspended := suspended σ; disk := disk σ; oplog := oplog σ |})
  | None =>
      let '(q, h) := alloc (Own None) (promises σ) in
      (q, {| this := {| target := target w; tmp := tmp w; active := active w;
                        current := current w; waiting := Some (Callbacks q);
                        queued := Some q; buffer := Some content |};
             promises := h; in_flight := in_flight σ;
             suspended := suspended σ; disk := disk σ; oplog := oplog σ |})
  end.

(** [#flush], up to [await writeFile(...)]. *)
Definition flush (content : Content) (σ : World) : pid * World :=
  let w := this σ in
  let '(f, h) := alloc (Own None) (promises σ) in
  let op := WriteFile (tmp w) content in
  (f, {| this := {| target := target w; tmp := tmp w; active := true;
                    current := current w; waiting := waiting w;
                    queued := queued w; buffer := buffer w |};
         promises := h; in_flight := Some (f, op);
         suspended := suspended σ; disk := disk σ; oplog := oplog σ ++ [op] |}).

(** [write] is [async]: the caller gets a promise of its own, resolved
    with the promise that [#defer] or [#flush] returned. *)
Definition write (content : Content) (σ : World) : pid * World :=
  let '(inner, σ1) :=
    if active (this σ) then defer content σ else flush content σ in
  let '(p, h) := alloc (Adopt inner) (promises σ1) in
  (p, {| this := this σ1; promises := h; in_flight := in_flight σ1;
         suspended := suspended σ1; disk := disk σ1; oplog := oplog σ1 |}).

(** The [finally] block of the activation [f], entered with the
    completion [c] of its [try]/[catch]. *)
Definition finally_ (f : pid) (c : completion) (σ : World) : World :=
  let w := this σ in
  let cleaned (b : option Content) :=
    {| target := target w; tmp := tmp w; active := false;
       current := waiting w; waiting := None; queued := None; buffer := b |} in
  match buffer w with
  | Some next =>
      let '(p, σ1) :=
        write next {| this := cleaned None; promises := promises σ;
                      in_flight := None; suspended := suspended σ;
                      disk := disk σ; oplog := oplog σ |} in
      {| this := this σ1; promises := promises σ1; in_flight := in_flight σ1;
         suspended := {| promise := f; awaiting := p; pending := c |} :: suspended σ1;
         disk := disk σ1; oplog := oplog σ1 |}
  | None =>
      let '(fs, h) := resume (suspended σ) (settle (promises σ) f (outcome c)) in
      {| this := cleaned None; promises := h; in_flight := None;
         suspended := fs; disk := disk σ; oplog := oplog σ |}
  end.

(** [#flush] after [await writeFile(...)] fulfilled: [rename] is called. *)
Definition flush_renaming (f : pid) (wrote : storage_op) (σ : World) : World :=
  let w := this σ in
  let op := Rename (tmp w) (target w) in
  {| this := w; promises := promises σ; in_flight := Some (f, op);
     suspended := suspended σ; disk := commit wrote (disk σ); oplog := oplog σ ++ [op] |}.

(** [#flush] after [await rename(...)] fulfilled: [this.#current?.[0]()],
    then the [finally] block. *)
Definition flush_done (f : pid) (renamed : storage_op) (σ : World) : World :=
  finally_ f None
    {| this := this σ; promises := call_done (current (this σ)) (promises σ);
       in_flight := in_flight σ; suspended := suspended σ;
       disk := commit renamed (disk σ); oplog := oplog σ |}.

(** The [catch] block, then the [finally] block. *)
Definition flush_catch (f : pid) (err : thrown) (σ : World) : World :=
  finally_ f (Some err)
    {| this := this σ;
       promises := if instanceof_Error err
                   then call_fail (current (this σ)) err (promises σ)
                   else promises σ;
       in_flight := in_flight σ; suspended := suspended σ;
       disk := disk σ; oplog := oplog σ |}.

Definition step (σ : World) (ev : event) : World :=
  match ev with
  | Call content => snd (write content σ)
  | StorageOk =>
      match in_flight σ with
      | Some (f, WriteFile a b) => flush_renaming f (WriteFile a b) σ
      | Some (f, Rename a b) => flush_done f (Rename a b) σ
      | None => σ
      end
  | StorageFail err =>
      match in_flight σ with
      | Some (f, _) => flush_catch f err σ
      | None => σ
      end
  end.

Definition run (σ : World) (evs : list event) : World := foldl step σ evs.

End Compact.

(** ** The documented variant (second [Writer] of [index.ts])

    [write] holds the whole logic.  A payload is tested with [if (next)],
    which is false for [null] and for the empty string. *)
Module Documented.

Definition truthy (content : Content) : bool :=
  if decide (content = "") then false else true.

(** [write] with the writer busy: the last five lines of the method.  The
    method is [async]: its promise is resolved with [this.#queued]. *)
Definition write_queued (content : Content) (σ : World) : pid * World :=
  let w := this σ in
  let '(q, h, wt) :=
    match queued w with
    | Some q => (q, promises σ, waiting w)
    | None => (length (promises σ), promises σ ++ [Own None],
               Some (Callbacks (length (promises σ))))
    end in
  let '(p, h') := alloc (Adopt q) h in
  (p, {| this := {| target := target w; tmp := tmp w; active := active w;
                    current := current w; waiting := wt;
                    queued := Some q; buffer := Some content |};
         promises := h'; in_flight := in_flight σ;
         suspended := suspended σ; disk := disk σ; oplog := oplog σ |}).

(** [write] with the writer idle, up to [await writeFile(...)]. *)
Definition write_start (content : Content) (σ : World) : pid * World :=
  let w := this σ in
  let '(p, h) := alloc (Own None) (promises σ) in
  let op := WriteFile (tmp w) content in
  (p, {| this := {| target := target w; tmp := tmp w; active := true;
                    current := current w; waiting := waiting w;
                    queued := queued w; buffer := buffer w |};
         promises := h; in_flight := Some (p, op);
         suspended := suspended σ; disk := disk σ; oplog := oplog σ ++ [op] |}).

Definition write (content : Content) (σ : World) : pid * World :=
  if negb (active (this σ)) then write_start content σ else write_queued content σ.

(** The [finally] block of the activation [p]. *)
Definition finally_ (p : pid) (c : completion) (σ : World) : World :=
  let w := this σ in
  let cleaned (b : option Content) :=
    {| target := target w; tmp := tmp w; active := false;
       current := waiting w; waiting := None; queued := None; buffer := b |} in
  let idle :=
    let '(fs, h) := resume (suspended σ) (settle (promises σ) p (outcome c)) in
    {| this := cleaned (buffer w); promises := h; in_flight := None;
       suspended := fs; disk := disk σ; oplog := oplog σ |} in
  match buffer w with
  | Some next =>
      if truthy next then
        let '(p', σ1) :=
          write next {| this := cleaned None; promises := promises σ;
                        in_flight := None; suspended := suspended σ;
                        disk := disk σ; oplog := oplog σ |} in
        {| this := this σ1; promises := promises σ1; in_flight := in_flight σ1;
           suspended := {| promise := p; awaiting := p'; pending := c |} :: suspended σ1;
           disk := disk σ1; oplog := oplog σ1 |}
      else idle
  | None => idle
  end.

Definition write_renaming (p : pid) (wrote : storage_op) (σ : World) : World :=
  let w := this σ in
  let op := Rename (tmp w) (target w) in
  {| this := w; promises := promises σ; in_flight := Some (p, op);
     suspended := suspended σ; disk := commit wrote (disk σ); oplog := oplog σ ++ [op] |}.

(** After [await rename(...)]: [if (c) c[0]()], then the [finally] block. *)
Definition write_done (p : pid) (renamed : storage_op) (σ : World) : World :=
  finally_ p None
    {| this := this σ; promises := call_done (current (this σ)) (promises σ);
       in_flight := in_flight σ; suspended := suspended σ;
       disk := commit renamed (disk σ); oplog := oplog σ |}.

(** The [catch] block: [if (c && err instanceof Error) c[1](err)]. *)
Definition write_catch (p : pid) (err : thrown) (σ : World) : World :=
  finally_ p (Some err)
    {| this := this σ;
       promises := if instanceof_Error err
                   then call_fail (current (this σ)) err (promises σ)
                   else promises σ;
       in_flight := in_flight σ; suspended := suspended σ;
       disk := disk σ; oplog := oplog σ |}.

Definition step (σ : World) (ev : event) : World :=
  match ev with
  | Call content => snd (write content σ)
  | StorageOk =>
      match in_flight σ with
      | Some (p, WriteFile a b) => write_renaming p (WriteFile a b) σ
      | Some (p, Rename a b) => write_done p (Rename a b) σ
      | None => σ
      end
  | StorageFail err =>
      match in_flight σ with
      | Some (p, _) => write_catch p err σ
      | None => σ
      end
  end.

Definition run (σ : World) (evs : list event) : World := foldl step σ evs.

End Documented.

(** ** Observers *)

(** The promise each [Call] of a run returns to its caller, in order. *)
Fixpoint handles (step : World → event → World)
    (write : Content → World → pid * World)
    (σ : World) (evs : list event) : list pid :=
  match evs with
  | [] => []
  | Call content :: evs' =>
      (write content σ).1 :: handles step write (step σ (Call content)) evs'
  | ev :: evs' => handles step write (step σ ev) evs'
  end.

(** The payloads passed to [write] by a list of events, in order. *)
Fixpoint payloads (evs : list event) : list Content :=
  match evs with
  | [] => []
  | Call content :: evs' => content :: payloads evs'
  | _ :: evs' => payloads evs'
  end.

(** The payloads of the generations of a log: one [writeFile] each. *)
Fixpoint written (ops : list storage_op) : list Content :=
  match ops with
  | [] => []
  | WriteFile _ data :: ops' => data :: written ops'
  | Rename _ _ :: ops' => written ops'
  end.

(** The promise has resolving functions of its own and is still pending. *)
Definition pending_in (h : heap) (p : pid) : Prop := h !! p = Some (Own None).

(** The suspended activations form a chain: each awaits a promise that
    adopts the promise of the activation it started. *)
Fixpoint chained (h : heap) (inner : pid) (fs : list frame) : Prop :=
  match fs with
  | [] => True
  | fr :: rest =>
      h !! awaiting fr = Some (Adopt inner) ∧ chained h (promise fr) rest
  end.

(** The promises the machine still holds a resolving function of. *)
Definition live (σ : World) : list pid :=
  match in_flight σ with Some (f, _) => [f] | None => [] end ++
  map promise (suspended σ) ++
  match current (this σ) with Some cb => [settles cb] | None => [] end ++
  match queued (this σ) with Some q => [q] | None => [] end.

(** What a suspended chain settles to once the innermost activation has
    settled with [s]: a rejection travels outwards through every [await];
    a fulfilment lets the next activation resume its own completion. *)
Fixpoint chain_outcome (s : settlement) (fs : list frame) (p : pid) : option settlement :=
  match fs with
  | [] => None
  | fr :: rest =>
      let s' := match s with
                | Fulfilled => outcome (pending fr)
                | Rejected err => Rejected err
                end in
      if decide (p = promise fr) then Some s' else chain_outcome s' rest p
  end.

(** The invariant of the compact variant. *)
Record consistent (σ : World) : Prop := {
  c_active : active (this σ) = match in_flight σ with Some _ => true | None => false end;
  c_idle : in_flight σ = None →
           suspended σ = [] ∧ current (this σ) = None ∧ queued (this σ) = None;
  c_waiting : waiting (this σ) = Callbacks <$> queued (this σ);
  c_buffer : is_Some (buffer (this σ)) ↔ is_Some (queued (this σ));
  c_nodup : NoDup (live σ);
  c_pending : Forall (pending_in (promises σ)) (live σ);
  c_chain : match in_flight σ with
            | Some (f, _) => chained (promises σ) f (suspended σ)
            | None => True
            end;
}.

(** What the [try]/[catch] part does to the current waiters: it calls one
    of their two functions, or none. *)
Definition notify (o : option settlement) (cb : option callbacks) (h : heap) : heap :=
  match o, cb with
  | Some s, Some c => settle h (settles c) s
  | _, _ => h
  end.

(** The run of the scenarios: a writer on the path [f] of an empty
    directory. *)
Definition scenario_world : World :=
  boot (writer_on (PathString "f") ".f.tmp") (MkFiles None None).

(** The payloads of the generations that handling one event starts. *)
Definition started (σ σ' : World) : list Content :=
  written (drop (length (oplog σ)) (oplog σ')).

(** The generations of a run, each with the number of [write] calls made
    when it starts. *)
Fixpoint generations (σ : World) (ncalls : nat) (evs : list event) : list (nat * Content) :=
  match evs with
  | [] => []
  | ev :: evs' =>
      let σ' := Compact.step σ ev in
      let n := match ev with Call _ => S ncalls | _ => ncalls end in
      map (pair n) (started σ σ') ++ generations σ' n evs'
  end.

(** The event ends the generation in flight: [rename] fulfilled, or
    either storage operation rejected. *)
Definition ends_generation (σ : World) (ev : event) : bool :=
  match ev, in_flight σ with
  | StorageOk, Some (_, Rename _ _) => true
  | StorageFail _, Some _ => true
  | _, _ => false
  end.

(** The completion of the [try]/[catch] part that the event brings. *)
Definition completion_of (ev : event) : completion :=
  match ev with
  | StorageFail err => Some err
  | _ => None
  end.

(** What the current waiters are told: [this.#current?.[0]()] after
    [rename], [this.#current?.[1](err)] in the [catch] block when [err] is
    an [Error], nothing otherwise. *)
Definition notice_of (ev : event) : option settlement :=
  match ev with
  | StorageFail err => if instanceof_Error err then Some (Rejected err) else None
  | _ => Some Fulfilled
  end.

(** The events arrive within the generation in flight: none of them ends
    it.  These are calls of [write], and [writeFile] fulfilling (after which
    the same generation renames). *)
Fixpoint within_generation (σ : World) (evs : list event) : bool :=
  match evs with
  | [] => true
  | ev :: evs' =>
      negb (ends_generation σ ev) && within_generation (Compact.step σ ev) evs'
  end.

(** The storage operation names the two paths of the writer. *)
Definition uses_paths (tmp_path : string) (file : PathLike) (op : storage_op) : Prop :=
  match op with
  | WriteFile a _ => a = tmp_path
  | Rename a b => a = tmp_path ∧ b = file
  end.

(** The state of a writer built on [file] after the events [evs]. *)
Definition reached (file : PathLike) (tmp_path : string) (d : files)
    (evs : list event) : World :=
  Compact.run (boot (writer_on file tmp_path) d) evs.

(** What is on disk while a generation is in flight: after [writeFile]
    fulfilled, the temporary file holds the payload of the generation. *)
Definition staged (σ : World) : Prop :=
  match in_flight σ with
  | Some (_, WriteFile _ c) => last (written (oplog σ)) = Some c
  | Some (_, Rename _ _) =>
      ∃ c, last (written (oplog σ)) = Some c ∧ tmp_file (disk σ) = Some c
  | None => True
  end.

(** Every promise that adopted another one adopted a promise with
    resolving functions of its own. *)
Definition flat (h : heap) : Prop :=
  ∀ w q, h !! w = Some (Adopt q) → ∃ st, h !! q = Some (Own st).

(** Every storage failure of the run is an [Error] object. *)
Definition errors_only (evs : list event) : Prop :=
  Forall (λ ev, notice_of ev ≠ None) evs.

(** Every pending promise with resolving functions is one the machine
    still holds them of. *)
Definition tracked (σ : World) : Prop :=
  ∀ p, pending_in (promises σ) p → p ∈ live σ.

(** What the storage layer and a reader of [busy] can tell of a state. *)
Record same_storage (σc σd : World) : Prop := {
  ss_target : target (this σc) = target (this σd);
  ss_tmp : tmp (this σc) = tmp (this σd);
  ss_active : active (this σc) = active (this σd);
  ss_buffer : buffer (this σc) = buffer (this σd);
  ss_in_flight : snd <$> in_flight σc = snd <$> in_flight σd;
  ss_disk : disk σc = disk σd;
  ss_oplog : oplog σc = oplog σd;
}.

Definition truthy_buffer (σ : World) : Prop :=
  ∀ b, buffer (this σ) = Some b → Documented.truthy b = true.

(** The log pairs every [rename] with the [writeFile] just before it, and
    the operation in flight is the last one of the log. *)
Definition paired (σ : World) : Prop :=
  (∀ i a b, oplog σ !! i = Some (Rename a b) →
     ∃ c, (0 < i)%nat ∧ oplog σ !! (i - 1)%nat = Some (WriteFile a c)) ∧
  (∀ f op, in_flight σ = Some (f, op) → last (oplog σ) = Some op) ∧
  (∀ f a c, in_flight σ = Some (f, WriteFile a c) → a = tmp (this σ)).

(** The payload of the last call has not been lost: it is in the buffer
    or, when the buffer is empty while a generation is in flight, it is the
    payload of that generation. *)
Definition latest_kept (evs : list event) (σ : World) : Prop :=
  (∀ b, buffer (this σ) = Some b → last (payloads evs) = Some b) ∧
  (active (this σ) = true → buffer (this σ) = None →
     last (written (oplog σ)) = last (payloads evs)).

(** The storage operations that handling one event calls. *)
Definition issued (σ : World) (ev : event) : list storage_op :=
  drop (length (oplog σ)) (oplog (Compact.step σ ev)).

(** The promises of the compact variant, renamed to those of the
    documented variant: [φ !! i = Some j] reads "promise [i] of the compact
    heap is promise [j] of the documented heap".  The promise of a
    [#flush] activation and the promise of the [write] call that returned
    it are one promise of the documented variant. *)
Record heap_related (φ : list nat) (hc hd : list cell) : Prop := {
  hr_length : length φ = length hc;
  hr_bound : ∀ i j, φ !! i = Some j → (j < length hd)%nat;
  hr_own : ∀ i j st, φ !! i = Some j → hc !! i = Some (Own st) → hd !! j = Some (Own st);
  hr_adopt : ∀ i j q, φ !! i = Some j → hc !! i = Some (Adopt q) →
    ∃ jq st, φ !! q = Some jq ∧ hc !! q = Some (Own st) ∧
             (j = jq ∨ hd !! j = Some (Adopt jq));
  hr_inj : ∀ i i' j st st', φ !! i = Some j → φ !! i' = Some j →
    hc !! i = Some (Own st) → hc !! i' = Some (Own st') → i = i';
}.

Definition callbacks_related (φ : list nat) (c d : option callbacks) : Prop :=
  match c, d with
  | Some cc, Some cd => φ !! settles cc = Some (settles cd)
  | None, None => True
  | _, _ => False
  end.

Definition pid_related (φ : list nat) (c d : option nat) : Prop :=
  match c, d with
  | Some qc, Some qd => φ !! qc = Some qd
  | None, None => True
  | _, _ => False
  end.

Definition flight_related (φ : list nat) (c d : option (nat * storage_op)) : Prop :=
  match c, d with
  | Some (f, op), Some (p, op') => op = op' ∧ φ !! f = Some p
  | None, None => True
  | _, _ => False
  end.

Definition frame_related (φ : list nat) (frc frd : frame) : Prop :=
  φ !! promise frc = Some (promise frd) ∧
  φ !! awaiting frc = Some (awaiting frd) ∧
  pending frc = pending frd.

Record related (φ : list nat) (σc σd : World) : Prop := {
  rel_target : target (this σc) = target (this σd);
  rel_tmp : tmp (this σc) = tmp (this σd);
  rel_active : active (this σc) = active (this σd);
  rel_buffer : buffer (this σc) = buffer (this σd);
  rel_disk : disk σc = disk σd;
  rel_oplog : oplog σc = oplog σd;
  rel_heap : heap_related φ (promises σc) (promises σd);
  rel_current : callbacks_related φ (current (this σc)) (current (this σd));
  rel_waiting : callbacks_related φ (waiting (this σc)) (waiting (this σd));
  rel_queued : pid_related φ (queued (this σc)) (queued (this σd));
  rel_flight : flight_related φ (in_flight σc) (in_flight σd);
  rel_frames : Forall2 (frame_related φ) (suspended σc) (suspended σd);
}.

(** * Facts *)

(** ** The promise heap *)

Lemma settle_length h p s : length (settle h p s) = length h.
Proof.
  unfold settle. destruct (h !! p) as [[[|]|]|]; auto using length_insert.
Qed.

Lemma settle_lookup_ne h p q s : p ≠ q → settle h p s !! q = h !! q.
Proof.
  intros Hne. unfold settle.
  destruct (h !! p) as [[[|]|]|]; auto using list_lookup_insert_ne.
Qed.

Lemma settle_pending h p s :
  pending_in h p → settle h p s !! p = Some (Own (Some s)).
Proof.
  unfold pending_in, settle. intros Hp. rewrite Hp.
  apply list_lookup_insert_eq. by eapply lookup_lt_Some.
Qed.

Lemma settle_adopt h p s w q :
  h !! w = Some (Adopt q) → settle h p s !! w = Some (Adopt q).
Proof.
  intros Hw. destruct (decide (p = w)) as [->|Hne].
  - unfold settle. by rewrite Hw.
  - by rewrite settle_lookup_ne.
Qed.

Lemma settle_settled h p s q st :
  h !! q = Some (Own (Some st)) → settle h p s !! q = Some (Own (Some st)).
Proof.
  intros Hq. destruct (decide (p = q)) as [->|Hne].
  - unfold settle. by rewrite Hq.
  - by rewrite settle_lookup_ne.
Qed.

Lemma lookup_alloc_old (h : heap) c p x :
  h !! p = Some x → (h ++ [c]) !! p = Some x.
Proof. intros Hp. by apply lookup_app_l_Some. Qed.

Lemma lookup_alloc_new (h : heap) c : (h ++ [c]) !! length h = Some c.
Proof. by rewrite lookup_app_r, Nat.sub_diag. Qed.

Lemma lookup_alloc_second (h : heap) c1 c2 :
  ((h ++ [c1]) ++ [c2]) !! S (length h) = Some c2.
Proof.
  replace (S (length h)) with (length (h ++ [c1])) by (rewrite length_app; simpl; lia).
  apply lookup_alloc_new.
Qed.

Lemma follow_own fuel h p st : h !! p = Some (Own st) → follow fuel h p = st.
Proof. intros Hp. destruct fuel; cbn [follow]; by rewrite Hp. Qed.

Lemma state_of_own h p st : h !! p = Some (Own st) → state_of h p = st.
Proof. apply follow_own. Qed.

Lemma state_of_adopt h w q st :
  h !! w = Some (Adopt q) → h !! q = Some (Own st) → state_of h w = st.
Proof.
  intros Hw Hq. unfold state_of.
  destruct (length h) as [|n] eqn:Hlen.
  - apply lookup_lt_Some in Hw. lia.
  - cbn [follow]. rewrite Hw. by apply follow_own.
Qed.

(** Two promises that adopt the same promise are observed alike. *)
Lemma state_of_adopt_same h w1 w2 q :
  h !! w1 = Some (Adopt q) → h !! w2 = Some (Adopt q) →
  state_of h w1 = state_of h w2.
Proof.
  intros H1 H2. unfold state_of.
  destruct (length h) as [|n] eqn:Hlen.
  - apply lookup_lt_Some in H1. lia.
  - cbn [follow]. by rewrite H1, H2.
Qed.

(** ** Resuming a chain of suspended activations *)

Lemma chained_settle h inner fs p s :
  chained h inner fs → chained (settle h p s) inner fs.
Proof.
  revert inner. induction fs as [|fr rest IH]; intros inner; simpl; [done|].
  intros [Ha Hc]. split; [by apply settle_adopt | by apply IH].
Qed.

Lemma chained_alloc h inner fs c :
  chained h inner fs → chained (h ++ [c]) inner fs.
Proof.
  revert inner. induction fs as [|fr rest IH]; intros inner; simpl; [done|].
  intros [Ha Hc]. split; [by apply lookup_alloc_old | by apply IH].
Qed.

Lemma resume_chain fs : ∀ h inner s,
  h !! inner = Some (Own (Some s)) →
  chained h inner fs →
  Forall (pending_in h) (map promise fs) →
  NoDup (map promise fs) →
  ∃ h', resume fs h = ([], h') ∧ length h' = length h ∧
        (∀ p, p ∉ map promise fs → h' !! p = h !! p) ∧
        (∀ p, p ∈ map promise fs → h' !! p = Some (Own (chain_outcome s fs p))).
Proof.
  induction fs as [|fr rest IH]; intros h inner s Hin Hch Hpend Hnd.
  - exists h. repeat split; auto. intros p Hp. by apply elem_of_nil in Hp.
  - destruct Hch as [Haw Hch]. simpl in Hpend, Hnd.
    apply Forall_cons in Hpend as [Hfr Hpend].
    apply NoDup_cons in Hnd as [Hnotin Hnd].
    set (s' := match s with
               | Fulfilled => outcome (pending fr)
               | Rejected err => Rejected err
               end).
    assert (Hres : resume (fr :: rest) h = resume rest (settle h (promise fr) s')).
    { cbn [resume]. rewrite (state_of_adopt _ _ _ _ Haw Hin). by destruct s. }
    destruct (IH (settle h (promise fr) s') (promise fr) s') as (h' & Hr & Hlen & Hout & Hinn).
    + by apply settle_pending.
    + by apply chained_settle.
    + apply Forall_forall. intros p Hp. unfold pending_in.
      rewrite settle_lookup_ne; [by eapply Forall_forall in Hpend | congruence].
    + done.
    + exists h'. rewrite Hres, Hlen, settle_length. repeat split; auto.
      * intros p Hp. simpl in Hp. apply not_elem_of_cons in Hp as [Hne Hp].
        rewrite Hout by done. by apply settle_lookup_ne.
      * intros p Hp. simpl. fold s'. destruct (decide (p = promise fr)) as [->|Hne].
        -- rewrite Hout by done. by apply settle_pending.
        -- simpl in Hp. apply elem_of_cons in Hp as [?|Hp]; [done|]. by apply Hinn.
Qed.

(** ** The invariant holds in every reachable state *)

Lemma consistent_boot file tmp_path d : consistent (boot (writer_on file tmp_path) d).
Proof.
  constructor; simpl; auto using NoDup_nil_2.
  split; intros [? ?]; done.
Qed.

Lemma live_lt σ p : consistent σ → p ∈ live σ → p < length (promises σ).
Proof.
  intros Hc Hp. destruct (c_pending σ Hc) as [].
  - by apply elem_of_nil in Hp.
  - eapply Forall_forall in Hp; [|by constructor; eauto].
    by eapply lookup_lt_Some.
Qed.

Lemma consistent_write c σ : consistent σ → consistent (Compact.write c σ).2.
Proof.
  intros Hc. pose proof (live_lt σ) as Hlt. specialize (fun p => Hlt p Hc).
  destruct Hc as [Hact Hidle Hwait Hbuf Hnd Hpend Hchain].
  destruct σ as [[tg tp act cur wt qu bf] h fl sus d lg].
  unfold live in *; simpl in *.
  unfold Compact.write; simpl. destruct fl as [[f op]|]; subst act; simpl.
  - unfold Compact.defer; simpl. destruct qu as [q|]; simpl.
    + constructor; simpl; auto.
      * split; eauto.
      * eapply Forall_impl; [exact Hpend|]. intros p Hp. by apply lookup_alloc_old.
      * by apply chained_alloc.
    + assert (Hre : ∀ l : list nat, f :: map promise sus ++ l ++ [length h]
                    = (f :: map promise sus ++ l ++ []) ++ [length h]).
      { intros l. simpl. by rewrite app_nil_r, <- !app_assoc. }
      constructor; unfold live; simpl; auto; try done.
      * rewrite Hre. apply NoDup_app. split; [done|]. split; [|apply NoDup_singleton].
        intros p Hp ->%list_elem_of_singleton. specialize (Hlt _ Hp). lia.
      * rewrite Hre. apply Forall_app. split.
        -- eapply Forall_impl; [exact Hpend|]. intros p Hp. unfold pending_in.
           apply lookup_alloc_old. by apply lookup_alloc_old.
        -- apply Forall_singleton. unfold pending_in.
           apply lookup_alloc_old, lookup_alloc_new.
      * by do 2 apply chained_alloc.
  - destruct (Hidle eq_refl) as (-> & -> & ->). unfold Compact.flush; simpl.
    constructor; unfold live; simpl; auto; try done.
    + apply NoDup_singleton.
    + apply Forall_singleton. apply lookup_alloc_old, lookup_alloc_new.
Qed.

Lemma notify_length o cb h : length (notify o cb h) = length h.
Proof. destruct o, cb; simpl; auto using settle_length. Qed.

Lemma notify_lookup_ne o cb h p :
  (∀ c, cb = Some c → settles c ≠ p) → notify o cb h !! p = h !! p.
Proof. destruct o, cb; simpl; auto. intros H. apply settle_lookup_ne. by apply H. Qed.

Lemma chained_notify o cb h inner fs :
  chained h inner fs → chained (notify o cb h) inner fs.
Proof. destruct o, cb; simpl; auto using chained_settle. Qed.

Lemma consistent_finally f op c o σ :
  consistent σ → in_flight σ = Some (f, op) →
  consistent (Compact.finally_ f c
    {| this := this σ; promises := notify o (current (this σ)) (promises σ);
       in_flight := in_flight σ; suspended := suspended σ;
       disk := disk σ; oplog := oplog σ |}).
Proof.
  intros Hc Hfl. pose proof (live_lt σ) as Hlt. specialize (fun p => Hlt p Hc).
  destruct Hc as [Hact Hidle Hwait Hbuf Hnd Hpend Hchain].
  destruct σ as [[tg tp act cur wt qu bf] h fl sus d lg].
  unfold live in *; simpl in *. subst fl. simpl in *.
  set (h0 := notify o cur h).
  assert (Hlen : length h0 = length h) by apply notify_length.
  rewrite NoDup_cons, !NoDup_app in Hnd. destruct Hnd as (Hf & Hsus & Hs1 & Hcur & Hs2 & Hq).
  rewrite !not_elem_of_app in Hf. destruct Hf as (Hf1 & Hf2 & Hf3).
  rewrite Forall_cons, !Forall_app in Hpend. destruct Hpend as (Pf & Psus & Pcur & Pq).
  assert (Hfl : f < length h) by (apply Hlt; left).
  assert (Hsl : ∀ p, p ∈ map promise sus → p < length h).
  { intros p Hp. apply Hlt. right. apply elem_of_app. by left. }
  assert (Pf0 : pending_in h0 f).
  { unfold pending_in, h0. rewrite notify_lookup_ne; [exact Pf|].
    intros cb -> E. apply Hf2. rewrite E. left. }
  assert (Psus0 : Forall (pending_in h0) (map promise sus)).
  { apply Forall_forall. intros p Hp. unfold pending_in, h0.
    rewrite notify_lookup_ne; [by eapply Forall_forall in Psus|].
    intros cb -> E. apply (Hs1 _ Hp). apply elem_of_app. left. rewrite E. left. }
  unfold Compact.finally_; simpl. destruct bf as [next|].
  - destruct qu as [q|]; [|by destruct Hbuf as [[? ?] _]; eauto]. simpl in *. subst wt.
    unfold Compact.write, Compact.flush; simpl. fold h0.
    rewrite Forall_singleton in Pq. rewrite not_elem_of_cons in Hf3. destruct Hf3 as [Hfq _].
    assert (Hql : q < length h).
    { apply Hlt. right. rewrite !elem_of_app. right. right. left. }
    assert (Pq0 : pending_in h0 q).
    { unfold pending_in, h0. rewrite notify_lookup_ne; [exact Pq|].
      intros cb -> E. apply (Hs2 (settles cb)); [left|]. rewrite E. left. }
    assert (Hsq : q ∉ map promise sus).
    { intros Hp. apply (Hs1 _ Hp). apply elem_of_app. right. left. }
    constructor; unfold live; simpl; auto; try done.
    + rewrite !NoDup_cons, Hlen. repeat split.
      * rewrite not_elem_of_cons, not_elem_of_app, list_elem_of_singleton.
        repeat split; [lia| |lia]. intros Hp. specialize (Hsl _ Hp). lia.
      * rewrite not_elem_of_app, list_elem_of_singleton. split; [done|congruence].
      * apply NoDup_app. repeat split; [done| |apply NoDup_singleton].
        intros x Hx ->%list_elem_of_singleton. done.
    + rewrite !Forall_cons, !Forall_app. repeat split.
      * apply lookup_alloc_old, lookup_alloc_new.
      * by do 2 apply lookup_alloc_old.
      * eapply Forall_impl; [exact Psus0|]. intros p Hp. by do 2 apply lookup_alloc_old.
      * apply Forall_singleton. by do 2 apply lookup_alloc_old.
    + split.
      * apply lookup_alloc_new.
      * do 2 apply chained_alloc. by apply chained_notify.
  - destruct qu as [q|]; [by destruct Hbuf as [_ [? ?]]; eauto|]. simpl in *. subst wt.
    destruct (resume_chain sus (settle h0 f (outcome c)) f (outcome c)) as (h' & -> & _); auto.
    + by apply settle_pending.
    + apply chained_settle. by apply chained_notify.
    + apply Forall_forall. intros p Hp. unfold pending_in.
      rewrite settle_lookup_ne; [by eapply Forall_forall in Psus0|]. intros ->. done.
    + constructor; unfold live; simpl; auto; try done; apply NoDup_nil_2.
Qed.

Lemma call_done_notify cb h : call_done cb h = notify (Some Fulfilled) cb h.
Proof. by destruct cb. Qed.

Lemma call_fail_notify err cb h :
  (if instanceof_Error err then call_fail cb err h else h)
  = notify (if instanceof_Error err then Some (Rejected err) else None) cb h.
Proof. by destruct (instanceof_Error err), cb. Qed.

Lemma consistent_step σ ev : consistent σ → consistent (Compact.step σ ev).
Proof.
  intros Hc. destruct ev as [content| |err]; simpl.
  - by apply consistent_write.
  - destruct (in_flight σ) as [[f [a b|a b]]|] eqn:Hfl; [| |done].
    + destruct Hc as [Hact Hidle Hwait Hbuf Hnd Hpend Hchain].
      unfold Compact.flush_renaming.
      constructor; unfold live in *; simpl; rewrite ?Hfl in *; auto; done.
    + unfold Compact.flush_done. rewrite call_done_notify.
      pose proof (consistent_finally f (Rename a b) None (Some Fulfilled)
                    {| this := this σ; promises := promises σ; in_flight := in_flight σ;
                       suspended := suspended σ; disk := commit (Rename a b) (disk σ);
                       oplog := oplog σ |}) as H.
      apply H; [|done]. by destruct Hc.
  - destruct (in_flight σ) as [[f op]|] eqn:Hfl; [|done].
    unfold Compact.flush_catch. rewrite call_fail_notify.
    destruct σ. by eapply consistent_finally.
Qed.

Lemma consistent_run σ evs : consistent σ → consistent (Compact.run σ evs).
Proof.
  revert σ. induction evs as [|ev evs IH]; intros σ Hc; [done|].
  apply IH. by apply consistent_step.
Qed.

(** Every state the writer reaches after construction. *)
Lemma consistent_reachable file tmp_path d evs :
  consistent (Compact.run (boot (writer_on file tmp_path) d) evs).
Proof. apply consistent_run, consistent_boot. Qed.

(** ** What one call of [write] does *)

Lemma write_idle c σ :
  active (this σ) = false →
  Compact.write c σ =
    (S (length (promises σ)),
     {| this := {| target := target (this σ); tmp := tmp (this σ); active := true;
                   current := current (this σ); waiting := waiting (this σ);
                   queued := queued (this σ); buffer := buffer (this σ) |};
        promises := (promises σ ++ [Own None]) ++ [Adopt (length (promises σ))];
        in_flight := Some (length (promises σ), WriteFile (tmp (this σ)) c);
        suspended := suspended σ; disk := disk σ;
        oplog := oplog σ ++ [WriteFile (tmp (this σ)) c] |}).
Proof.
  intros Ha. unfold Compact.write, Compact.flush, alloc. rewrite Ha. simpl.
  by rewrite length_app, Nat.add_1_r.
Qed.

Lemma write_busy_first c σ :
  active (this σ) = true → queued (this σ) = None →
  Compact.write c σ =
    (S (length (promises σ)),
     {| this := {| target := target (this σ); tmp := tmp (this σ); active := true;
                   current := current (this σ);
                   waiting := Some (Callbacks (length (promises σ)));
                   queued := Some (length (promises σ)); buffer := Some c |};
        promises := (promises σ ++ [Own None]) ++ [Adopt (length (promises σ))];
        in_flight := in_flight σ; suspended := suspended σ; disk := disk σ;
        oplog := oplog σ |}).
Proof.
  intros Ha Hq. unfold Compact.write, Compact.defer, alloc. rewrite Ha, Hq. simpl.
  by rewrite length_app, Nat.add_1_r.
Qed.

Lemma write_busy_again c σ q :
  active (this σ) = true → queued (this σ) = Some q →
  Compact.write c σ =
    (length (promises σ),
     {| this := {| target := target (this σ); tmp := tmp (this σ); active := true;
                   current := current (this σ); waiting := waiting (this σ);
                   queued := Some q; buffer := Some c |};
        promises := promises σ ++ [Adopt q];
        in_flight := in_flight σ; suspended := suspended σ; disk := disk σ;
        oplog := oplog σ |}).
Proof.
  intros Ha Hq. unfold Compact.write, Compact.defer, alloc. by rewrite Ha, Hq.
Qed.

(** ** What the [finally] block does *)

Lemma finally_buffered f c σ next :
  buffer (this σ) = Some next →
  Compact.finally_ f c σ =
    {| this := {| target := target (this σ); tmp := tmp (this σ); active := true;
                  current := waiting (this σ); waiting := None; queued := None;
                  buffer := None |};
       promises := (promises σ ++ [Own None]) ++ [Adopt (length (promises σ))];
       in_flight := Some (length (promises σ), WriteFile (tmp (this σ)) next);
       suspended := {| promise := f; awaiting := S (length (promises σ)); pending := c |}
                    :: suspended σ;
       disk := disk σ; oplog := oplog σ ++ [WriteFile (tmp (this σ)) next] |}.
Proof.
  intros Hb. unfold Compact.finally_. rewrite Hb. rewrite write_idle by done. done.
Qed.

Lemma finally_drained f c σ :
  buffer (this σ) = None →
  Compact.finally_ f c σ =
    {| this := {| target := target (this σ); tmp := tmp (this σ); active := false;
                  current := waiting (this σ); waiting := None; queued := None;
                  buffer := None |};
       promises := (resume (suspended σ) (settle (promises σ) f (outcome c))).2;
       in_flight := None;
       suspended := (resume (suspended σ) (settle (promises σ) f (outcome c))).1;
       disk := disk σ; oplog := oplog σ |}.
Proof.
  intros Hb. unfold Compact.finally_. rewrite Hb.
  by destruct (resume _ _).
Qed.

(** ** Cells that a step leaves alone *)

Lemma resume_lookup_ne fs : ∀ h p,
  p ∉ map promise fs → (resume fs h).2 !! p = h !! p.
Proof.
  induction fs as [|fr rest IH]; intros h p Hp; [done|].
  simpl in Hp. apply not_elem_of_cons in Hp as [Hne Hp].
  cbn [resume]. destruct (state_of h (awaiting fr)) as [[|err]|]; [| |done];
    rewrite IH by done; by apply settle_lookup_ne.
Qed.

Lemma resume_adopt fs : ∀ h w q,
  h !! w = Some (Adopt q) → (resume fs h).2 !! w = Some (Adopt q).
Proof.
  induction fs as [|fr rest IH]; intros h w q Hw; [done|].
  cbn [resume]. destruct (state_of h (awaiting fr)) as [[|err]|]; [| |done];
    by apply IH, settle_adopt.
Qed.

Lemma resume_settled fs : ∀ h p s,
  h !! p = Some (Own (Some s)) → (resume fs h).2 !! p = Some (Own (Some s)).
Proof.
  induction fs as [|fr rest IH]; intros h w q Hw; [done|].
  cbn [resume]. destruct (state_of h (awaiting fr)) as [[|err]|]; [| |done];
    by apply IH, settle_settled.
Qed.

Lemma notify_adopt o cb h w q :
  h !! w = Some (Adopt q) → notify o cb h !! w = Some (Adopt q).
Proof. destruct o, cb; simpl; auto using settle_adopt. Qed.

Lemma notify_settled o cb h p s :
  h !! p = Some (Own (Some s)) → notify o cb h !! p = Some (Own (Some s)).
Proof. destruct o, cb; simpl; auto using settle_settled. Qed.

(** A step is a [write], the call of [rename], or the end of a generation. *)
Lemma step_ends σ ev f op :
  in_flight σ = Some (f, op) → ends_generation σ ev = true →
  Compact.step σ ev =
    Compact.finally_ f (completion_of ev)
      {| this := this σ;
         promises := notify (notice_of ev) (current (this σ)) (promises σ);
         in_flight := in_flight σ; suspended := suspended σ;
         disk := match ev with StorageOk => commit op (disk σ) | _ => disk σ end;
         oplog := oplog σ |}.
Proof.
  intros Hfl He. unfold ends_generation in He. rewrite Hfl in He.
  destruct ev as [c| |err]; simpl; [done| |]; rewrite Hfl.
  - destruct op as [a b|a b]; [done|].
    unfold Compact.flush_done. by rewrite call_done_notify, Hfl.
  - unfold Compact.flush_catch. by rewrite call_fail_notify, Hfl.
Qed.

Lemma step_cases σ ev :
  (∃ c, ev = Call c ∧ Compact.step σ ev = (Compact.write c σ).2) ∨
  (payloads [ev] = [] ∧ in_flight σ = None ∧ Compact.step σ ev = σ) ∨
  (∃ f a b, in_flight σ = Some (f, WriteFile a b) ∧ ev = StorageOk ∧
     Compact.step σ ev = Compact.flush_renaming f (WriteFile a b) σ) ∨
  (∃ f op, in_flight σ = Some (f, op) ∧ ends_generation σ ev = true ∧
     payloads [ev] = []).
Proof.
  destruct ev as [c| |err]; simpl.
  - left. eauto.
  - unfold ends_generation. destruct (in_flight σ) as [[f [a b|a b]]|] eqn:Hfl.
    + right. right. left. eauto 10.
    + right. right. right. eauto 10.
    + right. by left.
  - unfold ends_generation. destruct (in_flight σ) as [[f op]|] eqn:Hfl.
    + right. right. right. eauto 10.
    + right. by left.
Qed.

Lemma write_adopt c σ w q :
  promises σ !! w = Some (Adopt q) → promises (Compact.write c σ).2 !! w = Some (Adopt q).
Proof.
  intros Hw. unfold Compact.write, Compact.defer, Compact.flush, alloc.
  destruct (active (this σ)); [destruct (queued (this σ))|]; simpl;
    repeat apply lookup_alloc_old; done.
Qed.

Lemma write_settled c σ p s :
  promises σ !! p = Some (Own (Some s)) →
  promises (Compact.write c σ).2 !! p = Some (Own (Some s)).
Proof.
  intros Hw. unfold Compact.write, Compact.defer, Compact.flush, alloc.
  destruct (active (this σ)); [destruct (queued (this σ))|]; simpl;
    repeat apply lookup_alloc_old; done.
Qed.

Lemma finally_adopt f c σ w q :
  promises σ !! w = Some (Adopt q) →
  promises (Compact.finally_ f c σ) !! w = Some (Adopt q).
Proof.
  intros Hw. destruct (buffer (this σ)) as [next|] eqn:Hb.
  - rewrite (finally_buffered _ _ _ next) by done. simpl. by do 2 apply lookup_alloc_old.
  - rewrite finally_drained by done. simpl. by apply resume_adopt, settle_adopt.
Qed.

Lemma finally_settled f c σ p s :
  promises σ !! p = Some (Own (Some s)) →
  promises (Compact.finally_ f c σ) !! p = Some (Own (Some s)).
Proof.
  intros Hw. destruct (buffer (this σ)) as [next|] eqn:Hb.
  - rewrite (finally_buffered _ _ _ next) by done. simpl. by do 2 apply lookup_alloc_old.
  - rewrite finally_drained by done. simpl. by apply resume_settled, settle_settled.
Qed.

(** A promise that adopted another one does so for ever. *)
Lemma step_adopt σ ev w q :
  promises σ !! w = Some (Adopt q) → promises (Compact.step σ ev) !! w = Some (Adopt q).
Proof.
  intros Hw.
  destruct (step_cases σ ev) as [(c & _ & ->)|[(_ & _ & ->)|[(f & a & b & _ & _ & ->)|(f & op & Hfl & He & _)]]].
  - by apply write_adopt.
  - done.
  - done.
  - rewrite (step_ends _ _ _ _ Hfl He). apply finally_adopt. simpl. by apply notify_adopt.
Qed.

Lemma run_adopt evs : ∀ σ w q,
  promises σ !! w = Some (Adopt q) → promises (Compact.run σ evs) !! w = Some (Adopt q).
Proof.
  induction evs as [|ev evs IH]; intros σ w q Hw; [done|].
  simpl. by apply IH, step_adopt.
Qed.

(** A settled promise never changes. *)
Lemma step_settled σ ev p s :
  promises σ !! p = Some (Own (Some s)) →
  promises (Compact.step σ ev) !! p = Some (Own (Some s)).
Proof.
  intros Hw.
  destruct (step_cases σ ev) as [(c & _ & ->)|[(_ & _ & ->)|[(f & a & b & _ & _ & ->)|(f & op & Hfl & He & _)]]].
  - by apply write_settled.
  - done.
  - done.
  - rewrite (step_ends _ _ _ _ Hfl He). apply finally_settled. simpl. by apply notify_settled.
Qed.

Lemma run_settled evs : ∀ σ p s,
  promises σ !! p = Some (Own (Some s)) →
  promises (Compact.run σ evs) !! p = Some (Own (Some s)).
Proof.
  induction evs as [|ev evs IH]; intros σ w q Hw; [done|].
  simpl. by apply IH, step_settled.
Qed.

(** ** Idle and busy states *)

Lemma consistent_busy σ :
  consistent σ → active (this σ) = true → ∃ f op, in_flight σ = Some (f, op).
Proof.
  intros Hc Ha. rewrite (c_active σ Hc) in Ha.
  destruct (in_flight σ) as [[f op]|]; [eauto|done].
Qed.

Lemma consistent_idle σ :
  consistent σ → active (this σ) = false →
  in_flight σ = None ∧ suspended σ = [] ∧ current (this σ) = None ∧
  waiting (this σ) = None ∧ queued (this σ) = None ∧ buffer (this σ) = None.
Proof.
  intros Hc Ha. rewrite (c_active σ Hc) in Ha.
  destruct (in_flight σ) as [[f op]|] eqn:Hfl; [done|].
  destruct (c_idle σ Hc Hfl) as (Hs & Hcur & Hq).
  pose proof (c_waiting σ Hc) as Hw. pose proof (c_buffer σ Hc) as Hb.
  rewrite Hq in Hw, Hb. repeat split; auto.
  destruct (buffer (this σ)); [|done]. by destruct Hb as [[? ?] _]; eauto.
Qed.



Lemma step_paths σ ev :
  target (this (Compact.step σ ev)) = target (this σ) ∧
  tmp (this (Compact.step σ ev)) = tmp (this σ).
Proof.
  destruct (step_cases σ ev) as [(c & _ & ->)|[(_ & _ & ->)|[(f & a & b & _ & _ & ->)|(f & op & Hfl & He & _)]]];
    try done; try rewrite (step_ends _ _ _ _ Hfl He).
  - unfold Compact.write, Compact.defer, Compact.flush, alloc.
    by destruct (active (this σ)); [destruct (queued (this σ))|].
  - match goal with |- context [Compact.finally_ _ _ ?s] => set (σ0 := s) end.
    destruct (buffer (this σ0)) as [next|] eqn:Hb.
    + by rewrite (finally_buffered _ _ _ next).
    + by rewrite finally_drained.
Qed.

Lemma step_oplog σ ev :
  Forall (uses_paths (tmp (this σ)) (target (this σ))) (oplog σ) →
  Forall (uses_paths (tmp (this σ)) (target (this σ))) (oplog (Compact.step σ ev)).
Proof.
  intros H.
  destruct (step_cases σ ev) as [(c & _ & ->)|[(_ & _ & ->)|[(f & a & b & _ & _ & ->)|(f & op & Hfl & He & _)]]];
    try done; try rewrite (step_ends _ _ _ _ Hfl He).
  - unfold Compact.write, Compact.defer, Compact.flush, alloc.
    destruct (active (this σ)); [by destruct (queued (this σ))|]. simpl.
    apply Forall_app. split; [done|]. by apply Forall_singleton.
  - simpl. apply Forall_app. split; [done|]. by apply Forall_singleton.
  - match goal with |- context [Compact.finally_ _ _ ?s] => set (σ0 := s) end.
    destruct (buffer (this σ0)) as [next|] eqn:Hb.
    + rewrite (finally_buffered _ _ _ next) by done. simpl.
      apply Forall_app. split; [done|]. by apply Forall_singleton.
    + by rewrite finally_drained.
Qed.

(** ** Generations and the calls they come from *)

Lemma started_same σ σ' : oplog σ' = oplog σ → started σ σ' = [].
Proof. intros E. unfold started. by rewrite E, drop_all. Qed.

Lemma started_one σ σ' op : oplog σ' = oplog σ ++ [op] → started σ σ' = written [op].
Proof. intros E. unfold started. by rewrite E, drop_app_length. Qed.

(** What handling one event starts, and what it leaves in the buffer;
    [ps] are the payloads passed to [write] so far. *)
Lemma step_generation σ ev ps g :
  consistent σ →
  (∀ b, buffer (this σ) = Some b → last ps = Some b ∧ (g < length ps)%nat) →
  (g ≤ length ps)%nat →
  let σ' := Compact.step σ ev in
  let ps' := ps ++ payloads [ev] in
  (started σ σ' = [] ∧
   (∀ b, buffer (this σ') = Some b → last ps' = Some b ∧ (g < length ps')%nat)) ∨
  (∃ c, started σ σ' = [c] ∧ last ps' = Some c ∧ (g < length ps')%nat ∧
        buffer (this σ') = None).
Proof.
  intros Hc Hb Hg σ' ps'. subst σ' ps'.
  destruct (step_cases σ ev) as [(c & -> & ->)|[(-> & _ & ->)|[(f & a & b & _ & -> & ->)|(f & op & Hfl & He & ->)]]].
  - simpl. destruct (active (this σ)) eqn:Ha.
    + left. destruct (queued (this σ)) as [q|] eqn:Hq.
      * rewrite (write_busy_again _ _ q) by done. simpl. split; [by apply started_same|].
        intros b [= <-]. rewrite last_snoc, length_app. simpl. split; [done|lia].
      * rewrite write_busy_first by done. simpl. split; [by apply started_same|].
        intros b [= <-]. rewrite last_snoc, length_app. simpl. split; [done|lia].
    + right. exists c. rewrite write_idle by done. simpl.
      split; [by rewrite (started_one _ _ (WriteFile (tmp (this σ)) c))|]. rewrite last_snoc, length_app. simpl.
      split; [done|]. split; [lia|]. by apply consistent_idle.
  - left. rewrite app_nil_r. split; [by apply started_same|done].
  - left. simpl. rewrite app_nil_r. split; [|done].
    by rewrite (started_one _ _ (Rename (tmp (this σ)) (target (this σ)))).
  - rewrite app_nil_r, (step_ends _ _ _ _ Hfl He).
    destruct (buffer (this σ)) as [next|] eqn:Hbuf.
    + right. exists next. rewrite (finally_buffered _ _ _ next) by done. simpl.
      destruct (Hb next eq_refl) as [Hl Hlt].
      split; [by rewrite (started_one _ _ (WriteFile (tmp (this σ)) next))|done].
    + left. rewrite finally_drained by done. simpl. split; [by apply started_same|done].
Qed.

Lemma step_oplog_extends σ ev : ∃ ops, oplog (Compact.step σ ev) = oplog σ ++ ops.
Proof.
  destruct (step_cases σ ev) as [(c & -> & ->)|[(_ & _ & ->)|[(f & a & b & _ & -> & ->)|(f & op & Hfl & He & _)]]].
  - unfold Compact.write, Compact.defer, Compact.flush, alloc.
    destruct (active (this σ)); [destruct (queued (this σ))|]; simpl; eauto;
      exists []; by rewrite app_nil_r.
  - exists []. by rewrite app_nil_r.
  - simpl. eauto.
  - rewrite (step_ends _ _ _ _ Hfl He).
    destruct (buffer (this σ)) as [next|] eqn:Hbuf.
    + rewrite (finally_buffered _ _ _ next) by done. simpl. eauto.
    + rewrite finally_drained by done. simpl. exists []. by rewrite app_nil_r.
Qed.

Lemma run_oplog_extends evs : ∀ σ, ∃ ops, oplog (Compact.run σ evs) = oplog σ ++ ops.
Proof.
  induction evs as [|ev rest IH]; intros σ.
  - exists []. by rewrite app_nil_r.
  - simpl. destruct (IH (Compact.step σ ev)) as [ops2 ->].
    destruct (step_oplog_extends σ ev) as [ops1 ->].
    exists (ops1 ++ ops2). by rewrite app_assoc.
Qed.

Lemma written_app ops1 ops2 : written (ops1 ++ ops2) = written ops1 ++ written ops2.
Proof.
  induction ops1 as [|[a b|a b] ops1 IH]; simpl; [done| |done]. by rewrite IH.
Qed.

Lemma generations_written evs : ∀ σ n,
  map snd (generations σ n evs) = written (drop (length (oplog σ)) (oplog (Compact.run σ evs))).
Proof.
  induction evs as [|ev rest IH]; intros σ n.
  - simpl. by rewrite drop_all.
  - cbn [generations]. rewrite map_app, IH. simpl.
    destruct (run_oplog_extends rest (Compact.step σ ev)) as [ops2 E2]. rewrite E2.
    destruct (step_oplog_extends σ ev) as [ops1 E1]. unfold started. rewrite E1.
    rewrite <- app_assoc, !drop_app_length, written_app. f_equal.
    + rewrite map_map. simpl. apply map_id.
    + by rewrite app_assoc, drop_app_length.
Qed.

Lemma generations_sound evs : ∀ σ ps g,
  consistent σ →
  (∀ b, buffer (this σ) = Some b → last ps = Some b ∧ (g < length ps)%nat) →
  (g ≤ length ps)%nat →
  Forall (λ '(n, c), (g < n)%nat ∧ (ps ++ payloads evs) !! (n - 1)%nat = Some c)
    (generations σ (length ps) evs) ∧
  StronglySorted lt (map fst (generations σ (length ps) evs)).
Proof.
  induction evs as [|ev rest IH]; intros σ ps g Hc Hb Hg.
  - simpl. repeat split; constructor.
  - cbn [generations].
    set (n := match ev with Call _ => S (length ps) | _ => length ps end).
    assert (Hn : n = length (ps ++ payloads [ev])).
    { subst n. rewrite length_app. destruct ev; simpl; lia. }
    assert (Hpay : ps ++ payloads (ev :: rest) = (ps ++ payloads [ev]) ++ payloads rest).
    { rewrite <- app_assoc. by destruct ev. }
    pose proof (consistent_step σ ev Hc) as Hc'.
    destruct (step_generation σ ev ps g Hc Hb Hg) as [[Hs Hb']|(c & Hs & Hl & Hlt & Hnone)].
    + rewrite Hs, Hn, Hpay. cbn [map app].
      assert (Hg' : (g ≤ length (ps ++ payloads [ev]))%nat) by (rewrite length_app; lia).
      by apply IH.
    + rewrite Hs, Hn, Hpay. cbn [map app].
      destruct (IH (Compact.step σ ev) (ps ++ payloads [ev]) (length (ps ++ payloads [ev])) Hc') as (H1 & H2).
      { rewrite Hnone. done. }
      { done. }
      split.
      * constructor.
        -- split; [done|]. rewrite lookup_app_l by lia.
           rewrite last_lookup in Hl. rewrite <- Hl. f_equal. lia.
        -- eapply Forall_impl; [exact H1|]. intros [m c'] [? ?]. split; [lia|done].
      * constructor; [done|]. apply Forall_fmap. eapply Forall_impl; [exact H1|].
        by intros [m c'] [? ?].
Qed.

(** ** The end of a generation *)

Lemma live_in_flight σ f op : in_flight σ = Some (f, op) → f ∈ live σ.
Proof. intros E. unfold live. rewrite E. simpl. left. Qed.

Lemma live_frame σ fr : fr ∈ suspended σ → promise fr ∈ live σ.
Proof.
  intros Hfr. unfold live. apply elem_of_app. right. apply elem_of_app. left.
  by apply list_elem_of_fmap_2.
Qed.

Lemma live_current σ q : current (this σ) = Some (Callbacks q) → q ∈ live σ.
Proof.
  intros E. unfold live. rewrite E. rewrite !elem_of_app. right. right. left. left.
Qed.

Lemma live_queued σ q : queued (this σ) = Some q → q ∈ live σ.
Proof.
  intros E. unfold live. rewrite E. rewrite !elem_of_app. right. right. right. left.
Qed.

Lemma live_pending σ p : consistent σ → p ∈ live σ → pending_in (promises σ) p.
Proof. intros Hc Hp. by eapply Forall_forall in Hp; [|apply (c_pending σ Hc)]. Qed.

(** Two promises at different places of [live] are different. *)
Lemma live_distinct σ f op :
  consistent σ → in_flight σ = Some (f, op) →
  (f ∉ map promise (suspended σ)) ∧ NoDup (map promise (suspended σ)) ∧
  (∀ q, current (this σ) = Some (Callbacks q) →
        q ≠ f ∧ (q ∉ map promise (suspended σ)) ∧ queued (this σ) ≠ Some q) ∧
  (∀ q, queued (this σ) = Some q → q ≠ f ∧ (q ∉ map promise (suspended σ))).
Proof.
  intros Hc Hfl. pose proof (c_nodup σ Hc) as Hnd. unfold live in Hnd.
  rewrite Hfl in Hnd. simpl in Hnd.
  rewrite NoDup_cons, !NoDup_app in Hnd. destruct Hnd as (Hf & Hsus & Hs1 & Hcur & Hs2 & Hq).
  rewrite !not_elem_of_app in Hf. destruct Hf as (Hf1 & Hf2 & Hf3).
  repeat split; auto.
  - intros ->. rewrite H in Hf2. apply Hf2. left.
  - intros Hin. apply (Hs1 _ Hin). rewrite H. apply elem_of_app. left. left.
  - intros E. rewrite H, E in Hs2. apply (Hs2 q); left.
  - intros ->. rewrite H in Hf3. apply Hf3. left.
  - intros Hin. apply (Hs1 _ Hin). rewrite H. apply elem_of_app. right. left.
Qed.

Lemma finally_keeps f c σ p x :
  p ≠ f → p ∉ map promise (suspended σ) → promises σ !! p = Some x →
  promises (Compact.finally_ f c σ) !! p = Some x.
Proof.
  intros Hf Hs Hp. destruct (buffer (this σ)) as [next|] eqn:Hb.
  - rewrite (finally_buffered _ _ _ next) by done. simpl. by do 2 apply lookup_alloc_old.
  - rewrite finally_drained by done. simpl.
    rewrite resume_lookup_ne by done. by rewrite settle_lookup_ne.
Qed.

(** The end of a generation tells its outcome to the current waiters. *)
Lemma ends_current σ ev f op q :
  consistent σ → in_flight σ = Some (f, op) → ends_generation σ ev = true →
  current (this σ) = Some (Callbacks q) →
  promises (Compact.step σ ev) !! q = Some (Own (notice_of ev)).
Proof.
  intros Hc Hfl He Hcur. rewrite (step_ends _ _ _ _ Hfl He).
  destruct (live_distinct σ f op Hc Hfl) as (_ & _ & Hd & _).
  destruct (Hd q Hcur) as (Hqf & Hqs & _).
  apply finally_keeps; [done|done|]. simpl. rewrite Hcur.
  pose proof (live_pending σ q Hc (live_current σ q Hcur)) as Hp.
  destruct (notice_of ev) as [s|]; simpl; [by apply settle_pending|done].
Qed.

(** What the [finally] block leaves in the writer. *)
Lemma ends_writer σ ev f op :
  in_flight σ = Some (f, op) → ends_generation σ ev = true →
  let w' := this (Compact.step σ ev) in
  current w' = waiting (this σ) ∧ waiting w' = None ∧ queued w' = None ∧
  buffer w' = None ∧ active w' = bool_decide (is_Some (buffer (this σ))).
Proof.
  intros Hfl He. rewrite (step_ends _ _ _ _ Hfl He).
  destruct (buffer (this σ)) as [next|] eqn:Hb.
  - by rewrite (finally_buffered _ _ _ next).
  - by rewrite finally_drained.
Qed.

(** With a payload in the buffer, the activation stays suspended and the
    next generation starts in the same step. *)
Lemma ends_buffered σ ev f op next :
  in_flight σ = Some (f, op) → ends_generation σ ev = true →
  buffer (this σ) = Some next →
  let σ' := Compact.step σ ev in
  in_flight σ' = Some (length (promises σ), WriteFile (tmp (this σ)) next) ∧
  oplog σ' = oplog σ ++ [WriteFile (tmp (this σ)) next] ∧
  suspended σ' = {| promise := f; awaiting := S (length (promises σ));
                    pending := completion_of ev |} :: suspended σ ∧
  promises σ' !! S (length (promises σ)) = Some (Adopt (length (promises σ))).
Proof.
  intros Hfl He Hb. rewrite (step_ends _ _ _ _ Hfl He).
  rewrite (finally_buffered _ _ _ next) by done. simpl.
  rewrite notify_length. repeat split.
  rewrite <- (notify_length (notice_of ev) (current (this σ))).
  replace (S (length (notify (notice_of ev) (current (this σ)) (promises σ))))
    with (length (notify (notice_of ev) (current (this σ)) (promises σ) ++ [Own None]))
    by (rewrite length_app; simpl; lia).
  apply lookup_alloc_new.
Qed.

(** With an empty buffer the chain of activations settles at once. *)
Lemma ends_drained σ ev f op :
  consistent σ → in_flight σ = Some (f, op) → ends_generation σ ev = true →
  buffer (this σ) = None →
  let σ' := Compact.step σ ev in
  in_flight σ' = None ∧ suspended σ' = [] ∧ oplog σ' = oplog σ ∧
  promises σ' !! f = Some (Own (Some (outcome (completion_of ev)))) ∧
  ∀ p, p ∈ map promise (suspended σ) →
       promises σ' !! p =
         Some (Own (chain_outcome (outcome (completion_of ev)) (suspended σ) p)).
Proof.
  intros Hc Hfl He Hb. rewrite (step_ends _ _ _ _ Hfl He).
  rewrite finally_drained by done. simpl.
  destruct (live_distinct σ f op Hc Hfl) as (Hfs & Hnd & Hd & _).
  set (h0 := notify (notice_of ev) (current (this σ)) (promises σ)).
  assert (Hkeep : ∀ p, p ∈ live σ → (∀ q, current (this σ) = Some (Callbacks q) → q ≠ p) →
                       pending_in h0 p).
  { intros p Hp Hne. unfold pending_in, h0. rewrite notify_lookup_ne.
    - by apply live_pending.
    - intros [q] E. simpl. by apply Hne. }
  assert (Pf : pending_in h0 f).
  { apply Hkeep; [by eapply live_in_flight|]. intros q Hq. by destruct (Hd q Hq). }
  destruct (resume_chain (suspended σ) (settle h0 f (outcome (completion_of ev))) f
              (outcome (completion_of ev))) as (h' & Hres & Hlen & Hout & Hin).
  - by apply settle_pending.
  - apply chained_settle, chained_notify. pose proof (c_chain σ Hc) as H. by rewrite Hfl in H.
  - apply Forall_forall. intros p Hp. unfold pending_in.
    rewrite settle_lookup_ne by (by intros ->). apply Hkeep.
    + unfold live. rewrite !elem_of_app. right. by left.
    + intros q Hq ->. by destruct (Hd _ Hq) as (_ & ? & _).
  - done.
  - rewrite Hres. simpl. repeat split; auto.
    rewrite Hout by done. by apply settle_pending.
Qed.

(** A promise the machine holds no resolving function of keeps its cell,
    and no step brings it back. *)
Lemma step_dropped σ ev p x :
  consistent σ → p ∉ live σ → promises σ !! p = Some x →
  promises (Compact.step σ ev) !! p = Some x ∧ p ∉ live (Compact.step σ ev).
Proof.
  intros Hc Hp Hx. assert (Hlt : (p < length (promises σ))%nat) by (by eapply lookup_lt_Some).
  destruct (step_cases σ ev) as [(c & -> & ->)|[(_ & _ & ->)|[(f & a & b & Hfl & -> & ->)|(f & op & Hfl & He & _)]]].
  - simpl. destruct (active (this σ)) eqn:Ha.
    + destruct (queued (this σ)) as [q|] eqn:Hq.
      * rewrite (write_busy_again _ _ q) by done. simpl. split; [by apply lookup_alloc_old|].
        unfold live in *. simpl. by rewrite Hq in Hp.
      * rewrite write_busy_first by done. simpl. split; [by do 2 apply lookup_alloc_old|].
        unfold live in *. simpl. rewrite Hq in Hp. rewrite !app_nil_r in Hp.
        rewrite !not_elem_of_app in *. destruct Hp as (? & ? & ?). repeat split; auto.
        rewrite list_elem_of_singleton. lia.
    + rewrite write_idle by done. simpl. split; [by do 2 apply lookup_alloc_old|].
      destruct (consistent_idle σ Hc Ha) as (_ & Hs & Hcur & _ & Hq & _).
      unfold live. simpl. rewrite Hs, Hcur, Hq. simpl.
      rewrite list_elem_of_singleton. lia.
  - done.
  - simpl. split; [done|]. unfold live in *. simpl. by rewrite Hfl in Hp.
  - pose proof (consistent_step σ ev Hc) as Hc'. split.
    + rewrite (step_ends _ _ _ _ Hfl He). apply finally_keeps; simpl.
      * intros ->. apply Hp. by eapply live_in_flight.
      * intros Hin. apply Hp. unfold live. rewrite !elem_of_app. right. by left.
      * rewrite notify_lookup_ne; [done|]. intros [q] E. simpl. intros ->.
        apply Hp. by apply live_current.
    + destruct (buffer (this σ)) as [next|] eqn:Hb.
      * destruct (ends_buffered σ ev f op next Hfl He Hb) as (Hfl' & _ & Hsus & _).
        destruct (ends_writer σ ev f op Hfl He) as (Hcur & _ & Hq & _).
        unfold live. rewrite Hfl', Hsus, Hcur, Hq. simpl.
        rewrite (c_waiting σ Hc). rewrite app_nil_r.
        rewrite !not_elem_of_cons, not_elem_of_app. repeat split.
        -- lia.
        -- intros ->. apply Hp. by eapply live_in_flight.
        -- intros Hin. apply Hp. unfold live. rewrite !elem_of_app. right. by left.
        -- destruct (queued (this σ)) as [q|] eqn:Hqq; simpl; [|apply not_elem_of_nil].
           rewrite list_elem_of_singleton. intros ->. apply Hp. by apply live_queued.
      * destruct (ends_drained σ ev f op Hc Hfl He Hb) as (Hfl' & _).
        destruct (c_idle _ Hc' Hfl') as (Hs & Hcur & Hq).
        unfold live. rewrite Hfl', Hs, Hcur, Hq. simpl. apply not_elem_of_nil.
Qed.

Lemma run_dropped evs : ∀ σ p x,
  consistent σ → p ∉ live σ → promises σ !! p = Some x →
  promises (Compact.run σ evs) !! p = Some x.
Proof.
  induction evs as [|ev rest IH]; intros σ p x Hc Hp Hx; [done|].
  simpl. destruct (step_dropped σ ev p x Hc Hp Hx) as [Hx' Hp'].
  apply IH; auto using consistent_step.
Qed.

(** ** Calls that arrive during a generation *)

Lemma reached_consistent file tmp_path d evs : consistent (reached file tmp_path d evs).
Proof. apply consistent_reachable. Qed.

Lemma run_app σ evs1 evs2 :
  Compact.run σ (evs1 ++ evs2) = Compact.run (Compact.run σ evs1) evs2.
Proof. apply foldl_app. Qed.

Lemma ends_in_flight σ ev :
  ends_generation σ ev = true → ∃ f op, in_flight σ = Some (f, op).
Proof.
  unfold ends_generation. destruct ev, (in_flight σ) as [[f op]|]; try done; eauto.
Qed.

(** An event that does not end the generation in flight: a call is
    deferred, and [writeFile] fulfilling changes no slot of the writer. *)
Lemma window_step σ ev :
  active (this σ) = true → ends_generation σ ev = false →
  let σ' := Compact.step σ ev in
  active (this σ') = true ∧ current (this σ') = current (this σ) ∧
  tmp (this σ') = tmp (this σ) ∧
  match ev with
  | Call c =>
      ∃ q, queued (this σ') = Some q ∧ (∀ q0, queued (this σ) = Some q0 → q0 = q) ∧
           buffer (this σ') = Some c ∧
           promises σ' !! (Compact.write c σ).1 = Some (Adopt q)
  | _ => queued (this σ') = queued (this σ) ∧ buffer (this σ') = buffer (this σ)
  end.
Proof.
  intros Ha He.
  destruct (step_cases σ ev) as [(c & -> & E)|[(Hp & _ & E)|[(f & a & b & Hfl & -> & E)|(f & op & Hfl & He' & _)]]];
    [| | |congruence].
  - cbn zeta. destruct (queued (this σ)) as [q|] eqn:Hq.
    + rewrite E, (write_busy_again _ _ q) by done. simpl. split_and!; auto.
      exists q. split_and!; auto; [by intros q0 [= ->]|apply lookup_alloc_new].
    + rewrite E, write_busy_first by done. simpl. split_and!; auto.
      exists (length (promises σ)). split_and!; auto; [done|apply lookup_alloc_second].
  - cbn zeta. rewrite E. by destruct ev.
  - cbn zeta. rewrite E. simpl. done.
Qed.

(** The events that arrive within the generation in flight: every call
    among them gets a promise adopting the one queued promise, and the
    buffer holds the payload of the last call. *)
Lemma window_events evs : ∀ σ,
  active (this σ) = true → within_generation σ evs = true →
  let σ' := Compact.run σ evs in
  let hs := handles Compact.step Compact.write σ evs in
  active (this σ') = true ∧ current (this σ') = current (this σ) ∧
  tmp (this σ') = tmp (this σ) ∧
  match last (payloads evs) with
  | Some c =>
      ∃ q, queued (this σ') = Some q ∧ (∀ q0, queued (this σ) = Some q0 → q0 = q) ∧
           buffer (this σ') = Some c ∧
           Forall (λ p, promises σ' !! p = Some (Adopt q)) hs
  | None =>
      queued (this σ') = queued (this σ) ∧ buffer (this σ') = buffer (this σ) ∧ hs = []
  end.
Proof.
  induction evs as [|ev rest IH]; intros σ Ha Hw; [done|].
  cbn [within_generation] in Hw. apply andb_prop in Hw as [He Hw].
  apply negb_true_iff in He.
  destruct (window_step σ ev Ha He) as (Ha1 & Hcur1 & Htmp1 & Hev).
  destruct (IH _ Ha1 Hw) as (Ha' & Hcur' & Htmp' & Hrest).
  cbn zeta. cbn [Compact.run foldl]. fold (Compact.run (Compact.step σ ev) rest).
  split_and!; [done|congruence|congruence|].
  destruct ev as [c| |err]; cbn [payloads handles].
  - destruct Hev as (q1 & Hq1 & Hlink & Hb1 & Had1).
    rewrite last_cons. destruct (last (payloads rest)) as [c'|].
    + destruct Hrest as (q & Hq & Hlink' & Hb & Had).
      pose proof (Hlink' q1 Hq1) as ->.
      exists q. split_and!; auto.
      constructor; [|done]. by apply run_adopt.
    + destruct Hrest as (Hq & Hb & ->).
      exists q1. split_and!; [congruence|done|congruence|].
      constructor; [|done]. apply run_adopt. exact Had1.
  - destruct Hev as [Hq1 Hb1]. destruct (last (payloads rest)) as [c'|].
    + destruct Hrest as (q & Hq & Hlink' & Hb & Had).
      exists q. split_and!; auto. intros q0 Hq0. apply Hlink'. congruence.
    + destruct Hrest as (Hq & Hb & ->). split_and!; [congruence|congruence|done].
  - destruct Hev as [Hq1 Hb1]. destruct (last (payloads rest)) as [c'|].
    + destruct Hrest as (q & Hq & Hlink' & Hb & Had).
      exists q. split_and!; auto. intros q0 Hq0. apply Hlink'. congruence.
    + destruct Hrest as (Hq & Hb & ->). split_and!; [congruence|congruence|done].
Qed.

(** ** Fresh promises *)

Lemma resume_length fs : ∀ h, length (resume fs h).2 = length h.
Proof.
  induction fs as [|fr rest IH]; intros h; [done|].
  cbn [resume]. destruct (state_of h (awaiting fr)) as [[|err]|]; [| |done];
    by rewrite IH, settle_length.
Qed.

Lemma step_length σ ev : (length (promises σ) ≤ length (promises (Compact.step σ ev)))%nat.
Proof.
  destruct (step_cases σ ev) as [(c & -> & ->)|[(_ & Hfl & ->)|[(f & a & b & Hfl & -> & ->)|(f & op & Hfl & He & _)]]];
    [|done|done|].
  - unfold Compact.write, Compact.defer, Compact.flush, alloc.
    destruct (active (this σ)); [destruct (queued (this σ))|]; simpl;
      rewrite ?length_app; simpl; lia.
  - rewrite (step_ends _ _ _ _ Hfl He).
    destruct (buffer (this σ)) as [next|] eqn:Hb.
    + rewrite (finally_buffered _ _ _ next) by done. simpl.
      rewrite !length_app, notify_length. simpl. lia.
    + rewrite finally_drained by done. simpl.
      by rewrite resume_length, settle_length, notify_length.
Qed.

Lemma write_handle_fresh c σ :
  (length (promises σ) ≤ (Compact.write c σ).1 < length (promises (Compact.write c σ).2))%nat.
Proof.
  unfold Compact.write, Compact.defer, Compact.flush, alloc.
  destruct (active (this σ)); [destruct (queued (this σ))|]; simpl;
    rewrite ?length_app; simpl; lia.
Qed.

Lemma run_length evs : ∀ σ, (length (promises σ) ≤ length (promises (Compact.run σ evs)))%nat.
Proof.
  induction evs as [|ev rest IH]; intros σ; [done|].
  simpl. etrans; [apply (step_length σ ev)|apply IH].
Qed.

Lemma handles_fresh evs : ∀ σ,
  Forall (λ p, (length (promises σ) ≤ p < length (promises (Compact.run σ evs)))%nat)
    (handles Compact.step Compact.write σ evs) ∧
  StronglySorted lt (handles Compact.step Compact.write σ evs) ∧
  length (handles Compact.step Compact.write σ evs) = length (payloads evs).
Proof.
  induction evs as [|ev rest IH]; intros σ; [repeat split; constructor|].
  destruct (IH (Compact.step σ ev)) as (Hge & Hs & Hl).
  pose proof (step_length σ ev) as Hlen.
  assert (Hge' : Forall (λ p, (length (promises σ) ≤ p
                               < length (promises (Compact.run σ (ev :: rest))))%nat)
                   (handles Compact.step Compact.write (Compact.step σ ev) rest)).
  { eapply Forall_impl; [exact Hge|]. simpl. lia. }
  destruct ev as [c| |err]; cbn [handles payloads]; [|done|done].
  pose proof (write_handle_fresh c σ) as Hw.
  pose proof (run_length rest (Compact.step σ (Call c))) as Hr. simpl in Hr.
  split_and!.
  - constructor; [simpl; lia|done].
  - constructor; [done|]. eapply Forall_impl; [exact Hge|]. simpl. lia.
  - cbn [length]. f_equal. exact Hl.
Qed.

(** ** What [write] returns, and steps that settle nothing *)

(** A step that does not end a generation settles no promise. *)
Lemma step_quiet σ ev p x :
  ends_generation σ ev = false → promises σ !! p = Some x →
  promises (Compact.step σ ev) !! p = Some x.
Proof.
  intros He Hx.
  destruct (step_cases σ ev) as [(c & -> & ->)|[(_ & _ & ->)|[(f & a & b & Hfl & -> & ->)|(f & op & Hfl & He' & _)]]];
    [|done|done|congruence].
  unfold Compact.write, Compact.defer, Compact.flush, alloc.
  destruct (active (this σ)); [destruct (queued (this σ))|]; simpl;
    repeat apply lookup_alloc_old; done.
Qed.

(** One suspended activation resuming. *)
Lemma resume_one fr rest h s :
  state_of h (awaiting fr) = Some s → pending_in h (promise fr) →
  (resume (fr :: rest) h).2 !! promise fr =
    Some (Own (Some (match s with
                     | Fulfilled => outcome (pending fr)
                     | Rejected err => Rejected err
                     end))).
Proof.
  intros Hs Hp. cbn [resume]. rewrite Hs.
  destruct s as [|err]; apply resume_settled; by apply settle_pending.
Qed.

Lemma write_returns file tmp_path d evs content :
  let σ := reached file tmp_path d evs in
  let p := (Compact.write content σ).1 in
  let σ' := (Compact.write content σ).2 in
  (busy (this σ) = false →
     ∃ f, promises σ' !! p = Some (Adopt f) ∧ pending_in (promises σ') f ∧
          in_flight σ' = Some (f, WriteFile (tmp (this σ)) content) ∧
          suspended σ' = []) ∧
  (busy (this σ) = true →
     ∃ q, promises σ' !! p = Some (Adopt q) ∧ pending_in (promises σ') q ∧
          queued (this σ') = Some q ∧ buffer (this σ') = Some content).
Proof.
  intros σ p σ'. assert (Hc : consistent σ) by apply reached_consistent.
  assert (Hc' : consistent σ') by (by apply consistent_write).
  subst p σ'. split; intros Hb; unfold busy in Hb.
  - exists (length (promises σ)). revert Hc'. rewrite write_idle by done. intros Hc'. simpl.
    split_and!; auto.
    + apply lookup_alloc_second.
    + apply lookup_alloc_old, lookup_alloc_new.
    + by apply consistent_idle.
  - destruct (queued (this σ)) as [q|] eqn:Hq.
    + exists q. revert Hc'. rewrite (write_busy_again _ _ q) by done. intros Hc'. simpl.
      split_and!; auto; [apply lookup_alloc_new|].
      by apply (live_pending _ q Hc'), live_queued.
    + exists (length (promises σ)). revert Hc'. rewrite write_busy_first by done. intros Hc'. simpl.
      split_and!; auto.
      * apply lookup_alloc_second.
      * apply lookup_alloc_old, lookup_alloc_new.
Qed.

(** ** Paths *)

Lemma string_app_assoc (a b c : string) : (a +:+ b) +:+ c = a +:+ (b +:+ c).
Proof.
  induction a as [|x a IH]; [done|].
  change (String x ((a +:+ b) +:+ c) = String x (a +:+ (b +:+ c))). by f_equal.
Qed.

Lemma string_app_nil_r (a : string) : a +:+ "" = a.
Proof.
  induction a as [|x a IH]; [done|].
  change (String x (a +:+ "") = String x a). by f_equal.
Qed.

Lemma string_app_nil (a b : string) : a +:+ b = "" → a = "" ∧ b = "".
Proof. by destruct a. Qed.

Lemma components_nonempty s : components s ≠ [].
Proof.
  destruct s as [|c r]; simpl; [done|].
  destruct (is_separator c); [done|]. by destruct (components r).
Qed.

Lemma components_app x y :
  components (x +:+ "/" +:+ y) = components x ++ components y.
Proof.
  induction x as [|c r IH]; simpl; [done|].
  destruct (is_separator c); [by rewrite IH|].
  rewrite IH. pose proof (components_nonempty r). by destruct (components r).
Qed.

Lemma components_plain n : no_separator n = true → components n = [n].
Proof.
  induction n as [|c r IH]; simpl; [done|].
  intros [Hc Hr]%andb_prop. apply negb_true_iff in Hc. rewrite Hc.
  by rewrite IH.
Qed.

Lemma components_no_separator s : Forall (λ c, no_separator c = true) (components s).
Proof.
  induction s as [|c r IH]; simpl; [by repeat constructor|].
  destruct (is_separator c) eqn:Hc; [by constructor|].
  destruct (components r) as [|h t]; [by repeat constructor; simpl; rewrite Hc|].
  apply Forall_cons in IH as [Hh Ht]. constructor; [|done]. simpl. by rewrite Hc, Hh.
Qed.

Lemma glue_cons x l : l ≠ [] → glue (x :: l) = x +:+ "/" +:+ glue l.
Proof. by destruct l. Qed.

Lemma glue_components s : glue (components s) = s.
Proof.
  induction s as [|c r IH]; [done|]. cbn [components].
  pose proof (components_nonempty r) as Hne.
  destruct (is_separator c) eqn:Hc.
  - rewrite glue_cons by done. rewrite IH. simpl.
    unfold is_separator in Hc. by apply bool_decide_eq_true in Hc as ->.
  - destruct (components r) as [|h t]; [done|].
    destruct t as [|h' t'].
    + simpl in *. by subst.
    + rewrite glue_cons by done. rewrite glue_cons in IH by done. by rewrite <- IH.
Qed.

Lemma glue_snoc l n : l ≠ [] → glue (l ++ [n]) = glue l +:+ "/" +:+ n.
Proof.
  induction l as [|x l IH]; [done|]. intros _.
  destruct l as [|y l]; [done|].
  change ((x :: y :: l) ++ [n]) with (x :: ((y :: l) ++ [n])).
  rewrite glue_cons by (by destruct l). rewrite IH by done.
  rewrite (glue_cons x (y :: l)) by done. by rewrite !string_app_assoc.
Qed.

Lemma last_component_snoc l n : n ≠ "" → last_component (l ++ [n]) = n.
Proof.
  intros Hn. induction l as [|x l IH]; simpl.
  - by destruct (decide ("" = "")).
  - rewrite IH. by destruct (decide (n = "")).
Qed.

Lemma last_component_no_separator l :
  Forall (λ c, no_separator c = true) l → no_separator (last_component l) = true.
Proof.
  induction 1 as [|x l Hx Hl IH]; simpl; [done|].
  by destruct (decide (last_component l = "")).
Qed.

Lemma before_last_component_snoc l n :
  n ≠ "" → before_last_component (l ++ [n]) = Some l.
Proof.
  intros Hn. induction l as [|x l IH]; simpl.
  - by destruct (decide (n = "")).
  - by rewrite IH.
Qed.

Lemma no_separator_absolute n : no_separator n = true → is_absolute n = false.
Proof. destruct n as [|c r]; simpl; [done|]. intros [Hc _]%andb_prop. by apply negb_true_iff. Qed.

Lemma ends_with_separator_plain n : no_separator n = true → ends_with_separator n = false.
Proof.
  induction n as [|c r IH]; [done|]. simpl. intros [Hc Hr]%andb_prop.
  apply negb_true_iff in Hc. destruct r; [done|]. by apply IH.
Qed.

Lemma ends_with_separator_app x n :
  n ≠ "" → ends_with_separator (x +:+ n) = ends_with_separator n.
Proof.
  intros Hn. induction x as [|c r IH]; [done|].
  simpl. destruct (r +:+ n) eqn:E; [|done].
  apply string_app_nil in E as [_ ?]. done.
Qed.

Lemma is_absolute_app x y : x ≠ "" → is_absolute (x +:+ y) = is_absolute x.
Proof. by destruct x. Qed.

Lemma basename_plain n : no_separator n = true → basename n = n.
Proof.
  intros Hn. unfold basename. rewrite components_plain by done. simpl.
  by destruct (decide ("" = "")).
Qed.

Lemma basename_snoc x n :
  n ≠ "" → no_separator n = true → basename (x +:+ "/" +:+ n) = n.
Proof.
  intros Hne Hn. unfold basename.
  rewrite components_app, (components_plain n) by done. by apply last_component_snoc.
Qed.

Lemma basename_no_separator s : no_separator (basename s) = true.
Proof. apply last_component_no_separator, components_no_separator. Qed.

Lemma dirname_plain n : n ≠ "" → no_separator n = true → dirname n = ".".
Proof.
  intros Hne Hn. unfold dirname. rewrite components_plain by done. simpl.
  destruct (decide (n = "")); [done|]. by rewrite no_separator_absolute.
Qed.

Lemma dirname_snoc x n :
  x ≠ "" → x ≠ "/" → n ≠ "" → no_separator n = true →
  dirname (x +:+ "/" +:+ n) = x.
Proof.
  intros Hx Hx' Hne Hn. unfold dirname.
  rewrite components_app, (components_plain n), before_last_component_snoc by done.
  pose proof (glue_components x) as Hg.
  destruct (components x) as [|h t] eqn:E; [by apply components_nonempty in E|].
  rewrite Hg. destruct (decide (x = "")); [done|]. by destruct (decide (x = "/")).
Qed.

Lemma dirname_root n : n ≠ "" → no_separator n = true → dirname ("/" +:+ n) = "/".
Proof.
  intros Hne Hn. unfold dirname.
  change ("/" +:+ n) with ("" +:+ "/" +:+ n).
  rewrite components_app, (components_plain n), before_last_component_snoc by done.
  done.
Qed.

Lemma dirname_nonempty s : dirname s ≠ "".
Proof.
  unfold dirname. destruct (before_last_component (components s)) as [[|h t]|].
  - by destruct (is_absolute s).
  - destruct (decide (glue (h :: t) = "")); [done|].
    by destruct (decide (glue (h :: t) = "/")).
  - by destruct (is_absolute s).
Qed.

(** The name of the temporary file is an ordinary component. *)
Lemma walk_temp_name absolute stack F :
  walk absolute stack ("." +:+ F +:+ ".tmp") = ("." +:+ F +:+ ".tmp") :: stack.
Proof.
  unfold walk. destruct (decide _) as [E|_]; [done|].
  destruct (decide _) as [E|_].
  { injection E as E. change (F +:+ ".tmp" = "") in E.
    by apply string_app_nil in E as [_ ?]. }
  destruct (decide _) as [E|_]; [|done].
  injection E as E. change (F +:+ ".tmp" = ".") in E.
  destruct F as [|c r]; [done|].
  injection E as _ E. by apply string_app_nil in E as [_ ?].
Qed.

Lemma temp_name_no_separator F :
  no_separator F = true → no_separator ("." +:+ F +:+ ".tmp") = true.
Proof.
  intros HF. cbn. induction F as [|c r IH]; [done|].
  simpl in *. apply andb_prop in HF as [-> Hr]. by apply IH.
Qed.

Lemma normalize_snoc x F :
  x ≠ "" → no_separator F = true →
  normalize (x +:+ "/" +:+ "." +:+ F +:+ ".tmp") =
    (if is_absolute x then "/" else "") +:+
    glue (rev (foldl (walk (is_absolute x)) [] (components x)) ++ ["." +:+ F +:+ ".tmp"]).
Proof.
  intros Hx HF. unfold normalize.
  destruct (decide _) as [E|_]; [by apply string_app_nil in E as [? _]|].
  rewrite is_absolute_app by done.
  rewrite ends_with_separator_app by done.
  rewrite (ends_with_separator_app "/") by done.
  rewrite ends_with_separator_plain by (by apply temp_name_no_separator).
  rewrite components_app, (components_plain ("." +:+ F +:+ ".tmp"))
    by (by apply temp_name_no_separator).
  rewrite foldl_app. cbn [foldl]. rewrite walk_temp_name. cbn [rev].
  destruct (rev _ ++ _) eqn:E; [by apply app_nil in E as [_ ?]|].
  by rewrite string_app_nil_r.
Qed.

Lemma join_temp_name d F :
  d ≠ "" → no_separator F = true →
  join d ("." +:+ F +:+ ".tmp") =
    (if is_absolute d then "/" else "") +:+
    glue (rev (foldl (walk (is_absolute d)) [] (components d)) ++ ["." +:+ F +:+ ".tmp"]).
Proof.
  intros Hd HF. unfold join. destruct (decide (d = "")); [done|].
  destruct (decide _) as [E|_]; [done|]. by apply normalize_snoc.
Qed.

(** The file name of the temporary path. *)
Lemma basename_temp path :
  basename (join (dirname path) ("." +:+ basename path +:+ ".tmp"))
  = "." +:+ basename path +:+ ".tmp".
Proof.
  pose proof (basename_no_separator path) as HF.
  rewrite join_temp_name by (done || apply dirname_nonempty).
  set (name := "." +:+ basename path +:+ ".tmp").
  assert (Hn : no_separator name = true) by (by apply temp_name_no_separator).
  destruct (rev _) as [|h t] eqn:E.
  - simpl. destruct (is_absolute _).
    + change ("/" +:+ name) with ("" +:+ "/" +:+ name). by apply basename_snoc.
    + by apply basename_plain.
  - rewrite glue_snoc by done. rewrite <- string_app_assoc. by apply basename_snoc.
Qed.

(** A directory that [normalize] leaves as it is. *)
Lemma normalized_directory D :
  normalize D = D → ends_with_separator D = false → D ≠ "." →
  D ≠ "" ∧
  rev (foldl (walk (is_absolute D)) [] (components D)) ≠ [] ∧
  D = (if is_absolute D then "/" else "") +:+
      glue (rev (foldl (walk (is_absolute D)) [] (components D))).
Proof.
  unfold normalize. intros Hn Ht Hdot.
  destruct (decide (D = "")) as [->|HD]; [done|].
  rewrite Ht in Hn. split; [done|].
  destruct (rev _) as [|h t] eqn:E.
  - destruct (is_absolute D); [by subst D|done].
  - split; [done|]. by rewrite string_app_nil_r in Hn.
Qed.

Lemma temp_normalized D F :
  normalize D = D → ends_with_separator D = false → D ≠ "." →
  F ≠ "" → no_separator F = true →
  dirname (D +:+ "/" +:+ F) = D ∧ basename (D +:+ "/" +:+ F) = F ∧
  join (dirname (D +:+ "/" +:+ F)) ("." +:+ basename (D +:+ "/" +:+ F) +:+ ".tmp")
  = D +:+ "/" +:+ "." +:+ F +:+ ".tmp".
Proof.
  intros Hn Ht Hdot HF HF'.
  destruct (normalized_directory D Hn Ht Hdot) as (HD & Hkept & HDeq).
  assert (HD' : D ≠ "/") by (by intros ->).
  assert (Hdir : dirname (D +:+ "/" +:+ F) = D) by (by apply dirname_snoc).
  assert (Hbase : basename (D +:+ "/" +:+ F) = F) by (by apply basename_snoc).
  split_and!; [done|done|].
  rewrite Hdir, Hbase, join_temp_name by done.
  rewrite glue_snoc by done. rewrite <- string_app_assoc. by rewrite <- HDeq.
Qed.

Lemma temp_bare F :
  F ≠ "" → no_separator F = true →
  dirname F = "." ∧ basename F = F ∧
  join (dirname F) ("." +:+ basename F +:+ ".tmp") = "." +:+ F +:+ ".tmp".
Proof.
  intros HF HF'.
  assert (Hdir : dirname F = ".") by (by apply dirname_plain).
  assert (Hbase : basename F = F) by (by apply basename_plain).
  split_and!; [done|done|].
  rewrite Hdir, Hbase, join_temp_name by done. done.
Qed.

Lemma temp_root F :
  F ≠ "" → no_separator F = true →
  dirname ("/" +:+ F) = "/" ∧ basename ("/" +:+ F) = F ∧
  join (dirname ("/" +:+ F)) ("." +:+ basename ("/" +:+ F) +:+ ".tmp")
  = "/" +:+ "." +:+ F +:+ ".tmp".
Proof.
  intros HF HF'.
  assert (Hdir : dirname ("/" +:+ F) = "/") by (by apply dirname_root).
  assert (Hbase : basename ("/" +:+ F) = F).
  { change ("/" +:+ F) with ("" +:+ "/" +:+ F). by apply basename_snoc. }
  split_and!; [done|done|].
  rewrite Hdir, Hbase, join_temp_name by done. done.
Qed.

(** The directory of the temporary path. *)
Lemma components_glue l :
  l ≠ [] → Forall (λ c, no_separator c = true) l → components (glue l) = l.
Proof.
  induction l as [|x l IH]; [done|]. intros _ [Hx Hl]%Forall_cons.
  destruct l as [|y l]; [by apply components_plain|].
  rewrite glue_cons by done. rewrite components_app, components_plain by done.
  by rewrite IH.
Qed.

Lemma glue_nonempty l : l ≠ [] → Forall ordinary l → glue l ≠ "".
Proof.
  destruct l as [|x l]; [done|]. intros _ [[Hx _] _]%Forall_cons.
  destruct l as [|y l]; [done|]. rewrite glue_cons by done.
  intros E. by apply string_app_nil in E as [? _].
Qed.

Lemma glue_not_absolute l : Forall ordinary l → is_absolute (glue l) = false.
Proof.
  destruct l as [|x l]; [done|]. intros [[Hx Hx'] _]%Forall_cons.
  destruct l as [|y l]; [by apply no_separator_absolute|].
  rewrite glue_cons by done. rewrite is_absolute_app by done.
  by apply no_separator_absolute.
Qed.

(** The components of a path whose last portion is [F]. *)
Lemma components_last cs F :
  last_component cs = F → F ≠ "" →
  ∃ before after, cs = before ++ F :: after ∧ Forall (λ c, c = "") after ∧
                  before_last_component cs = Some before.
Proof.
  intros HF Hne. revert HF. induction cs as [|x cs IH]; simpl; [congruence|].
  destruct (decide (last_component cs = "")) as [E|E].
  - intros ->. exists [], cs. split_and!; [done| |].
    + clear IH. induction cs as [|y cs IH]; [constructor|]. simpl in E.
      destruct (decide (last_component cs = "")) as [E'|E']; [|done].
      constructor; [done|by apply IH].
    + assert (before_last_component cs = None) as ->.
      { clear IH. induction cs as [|y cs IH]; [done|]. simpl in *.
        destruct (decide (last_component cs = "")) as [E'|E']; [|done].
        rewrite IH by done. by destruct (decide (y = "")). }
      by destruct (decide (F = "")).
  - intros HF. destruct (IH HF) as (before & after & -> & Hafter & Hb).
    exists (x :: before), after. split_and!; [done|done|]. by rewrite Hb.
Qed.

Lemma walk_empty absolute stack after :
  Forall (λ c, c = "") after → foldl (walk absolute) stack after = stack.
Proof.
  intros H. revert stack. induction H as [|c after -> _ IH]; intros stack; [done|].
  simpl. unfold walk at 2. by destruct (decide ("" = "")).
Qed.

Lemma walk_ordinary absolute stack c :
  no_separator c = true → Forall ordinary stack → Forall ordinary (walk absolute stack c).
Proof.
  intros Hc Hs. unfold walk.
  destruct (decide (c = "")); [done|].
  destruct (decide (c = ".")); [done|].
  destruct (decide (c = "..")) as [->|].
  - destruct stack as [|top below]; [destruct absolute; by repeat constructor|].
    destruct (decide (top = "..")).
    + destruct absolute; [done|]. by constructor.
    + by apply Forall_cons in Hs as [_ ?].
  - by constructor.
Qed.

Lemma foldl_walk_ordinary absolute cs : ∀ stack,
  Forall (λ c, no_separator c = true) cs → Forall ordinary stack →
  Forall ordinary (foldl (walk absolute) stack cs).
Proof.
  induction cs as [|c cs IH]; intros stack Hcs Hs; [done|].
  apply Forall_cons in Hcs as [Hc Hcs]. simpl. apply IH; [done|].
  by apply walk_ordinary.
Qed.

Lemma Forall_ordinary_rev l : Forall ordinary l → Forall ordinary (rev l).
Proof.
  induction 1 as [|x l Hx Hl IH]; simpl; [constructor|].
  apply Forall_app. split; [done|by constructor].
Qed.

(** The directory of a normalised path with the kept components [l] and
    the last portion [F]. *)
Lemma dirname_glued (absolute trailing : bool) l F :
  Forall ordinary l → ordinary F →
  dirname ((if absolute then "/" else "") +:+ glue (l ++ [F]) +:+
           (if trailing then "/" else ""))
  = match l with
    | [] => if absolute then "/" else "."
    | _ => (if absolute then "/" else "") +:+ glue l
    end.
Proof.
  intros Hl [HF HF'].
  set (pre := if absolute then [""] else []).
  set (post := if trailing then [""] else []).
  assert (E : (if absolute then "/" else "") +:+ glue (l ++ [F]) +:+
              (if trailing then "/" else "") = glue (pre ++ (l ++ [F]) ++ post)).
  { assert (E1 : glue (l ++ [F]) +:+ (if trailing then "/" else "")
                 = glue ((l ++ [F]) ++ post)).
    { subst post. destruct trailing.
      - by rewrite (glue_snoc (l ++ [F]) "") by (by destruct l).
      - by rewrite app_nil_r, string_app_nil_r. }
    rewrite E1. subst pre. destruct absolute; [|done].
    change ([""] ++ (l ++ [F]) ++ post) with ("" :: ((l ++ [F]) ++ post)).
    by rewrite glue_cons by (by destruct l). }
  rewrite E. clear E. unfold dirname.
  assert (Hsep : Forall (λ c, no_separator c = true) (pre ++ (l ++ [F]) ++ post)).
  { rewrite !Forall_app. split_and!.
    - subst pre. destruct absolute; by repeat constructor.
    - eapply Forall_impl; [exact Hl|]. by intros c [_ ?].
    - by repeat constructor.
    - subst post. destruct trailing; by repeat constructor. }
  rewrite components_glue by (done || (subst pre; destruct absolute, l; done)).
  assert (Hb : before_last_component (pre ++ (l ++ [F]) ++ post) = Some (pre ++ l)).
  { subst post. destruct trailing.
    - replace (pre ++ (l ++ [F]) ++ [""]) with ((pre ++ l) ++ [F; ""])
        by (by rewrite <- !app_assoc).
      generalize (pre ++ l). intros m. induction m as [|x m IH]; simpl.
      + destruct (decide ("" = "")); [|done]. by destruct (decide (F = "")).
      + by rewrite IH.
    - rewrite app_nil_r, app_assoc. by apply before_last_component_snoc. }
  rewrite Hb. subst pre. destruct absolute, l as [|x l']; simpl app.
  - done.
  - rewrite glue_cons by done.
    assert (Hg : glue (x :: l') ≠ "") by (by apply glue_nonempty).
    destruct (decide _) as [E'|_]; [done|].
    destruct (decide _) as [E'|_]; [|done].
    injection E' as E'. done.
  - subst post. destruct trailing; cbn [app glue].
    + rewrite is_absolute_app by done. by rewrite no_separator_absolute.
    + by rewrite no_separator_absolute.
  - assert (Hg : glue (x :: l') ≠ "") by (by apply glue_nonempty).
    destruct (decide _) as [E'|_]; [done|].
    destruct (decide _) as [E'|_]; [|done].
    pose proof (glue_not_absolute (x :: l') Hl) as Hna. by rewrite E' in Hna.
Qed.

Lemma glue_app l1 l2 :
  l1 ≠ [] → l2 ≠ [] → glue (l1 ++ l2) = glue l1 +:+ "/" +:+ glue l2.
Proof.
  intros H1 H2. induction l1 as [|x l1 IH]; [done|].
  destruct l1 as [|y l1].
  - simpl app. by rewrite glue_cons.
  - change ((x :: y :: l1) ++ l2) with (x :: ((y :: l1) ++ l2)).
    rewrite glue_cons by done. rewrite IH by done.
    rewrite (glue_cons x (y :: l1)) by done. by rewrite !string_app_assoc.
Qed.

Lemma walk_push absolute stack c :
  c ≠ "" → c ≠ "." → c ≠ ".." → walk absolute stack c = c :: stack.
Proof.
  intros H1 H2 H3. unfold walk.
  destruct (decide (c = "")); [done|]. destruct (decide (c = ".")); [done|].
  by destruct (decide (c = "..")).
Qed.

(** The path, its directory and its normal form, in terms of the
    components before the last portion. *)
Lemma path_shape s :
  basename s ≠ "" →
  ∃ before after,
    components s = before ++ basename s :: after ∧
    Forall (λ c, c = "") after ∧
    Forall (λ c, no_separator c = true) before ∧
    s ≠ "" ∧
    is_absolute (dirname s) = is_absolute s ∧
    foldl (walk (is_absolute s)) [] (components (dirname s))
    = foldl (walk (is_absolute s)) [] before.
Proof.
  intros HF. set (F := basename s) in *.
  destruct (components_last (components s) F eq_refl HF)
    as (before & after & Hcs & Hafter & Hb).
  pose proof (components_no_separator s) as Hsep. rewrite Hcs in Hsep.
  apply Forall_app in Hsep as [Hbefore Hrest].
  apply Forall_cons in Hrest as [HF' _].
  pose proof (glue_components s) as Hs. rewrite Hcs in Hs.
  exists before, after. split_and!; [done|done|done| | |].
  - intros ->. by destruct before.
  - unfold dirname. rewrite Hb. destruct before as [|b1 bs].
    + by destruct (is_absolute s).
    + rewrite glue_app in Hs by done.
      destruct (decide (glue (b1 :: bs) = "")) as [E|E].
      { rewrite E in Hs. by rewrite <- Hs. }
      destruct (decide (glue (b1 :: bs) = "/")) as [E'|E'].
      { rewrite E' in Hs. by rewrite <- Hs. }
      rewrite <- Hs. by rewrite is_absolute_app.
  - unfold dirname. rewrite Hb. destruct before as [|b1 bs].
    + assert (is_absolute s = false) as ->; [|done].
      rewrite <- Hs. cbn [app]. destruct after as [|a after'].
      * by apply no_separator_absolute.
      * rewrite glue_cons by done. rewrite is_absolute_app by done.
        by apply no_separator_absolute.
    + destruct (decide (glue (b1 :: bs) = "")) as [E|E].
      { destruct bs as [|b2 bs].
        - simpl in E. subst b1. done.
        - rewrite glue_cons in E by done. by apply string_app_nil in E as [_ ?]. }
      destruct (decide (glue (b1 :: bs) = "/")) as [E'|E'].
      { destruct bs as [|b2 bs].
        - simpl in E'. subst b1. by apply Forall_cons in Hbefore as [? _].
        - rewrite glue_cons in E' by done.
          destruct b1 as [|c b1].
          + injection E' as E'. destruct bs as [|b3 bs].
            * change (b2 = "") in E'. subst b2. done.
            * change (glue (b2 :: b3 :: bs) = "") in E'.
              rewrite glue_cons in E' by done. by apply string_app_nil in E' as [_ ?].
          + injection E' as _ E'. by apply string_app_nil in E' as [_ ?]. }
      by rewrite components_glue.
Qed.

(** The temporary path and the normalised target are in the same
    directory. *)
Lemma dirname_temp s :
  basename s ≠ "" → basename s ≠ "." → basename s ≠ ".." →
  dirname (join (dirname s) ("." +:+ basename s +:+ ".tmp")) = dirname (normalize s).
Proof.
  intros H1 H2 H3.
  destruct (path_shape s H1) as (before & after & Hcs & Hafter & Hbefore & Hs & Habs & Hwalk).
  pose proof (basename_no_separator s) as HF.
  set (F := basename s) in *. set (absolute := is_absolute s) in *.
  set (st := foldl (walk absolute) [] before) in *.
  assert (Hst : Forall ordinary (rev st)).
  { apply Forall_ordinary_rev. by apply foldl_walk_ordinary. }
  rewrite join_temp_name by (done || apply dirname_nonempty).
  rewrite Habs, Hwalk. fold st.
  assert (Hn : normalize s = (if absolute then "/" else "") +:+ glue (rev st ++ [F]) +:+
                             (if ends_with_separator s then "/" else "")).
  { unfold normalize. destruct (decide (s = "")); [done|].
    rewrite Hcs, foldl_app. cbn [foldl]. fold absolute st.
    rewrite walk_push by done. rewrite walk_empty by done. cbn [rev].
    destruct (rev st ++ [F]) eqn:E; [by apply app_nil in E as [_ ?]|]. done. }
  rewrite Hn.
  rewrite <- (string_app_nil_r (glue (rev st ++ ["." +:+ F +:+ ".tmp"]))).
  rewrite (dirname_glued absolute false), (dirname_glued absolute _); try done.
  split; [done|]. by apply temp_name_no_separator.
Qed.

Lemma escape_free_no_encoded_separator s :
  escape_free s = true → encoded_separator s = false.
Proof.
  induction s as [|c r IH]; [done|]. cbn [escape_free encoded_separator].
  intros [Hc Hr]%andb_prop. apply negb_true_iff in Hc. rewrite Hc. simpl. by apply IH.
Qed.

(** A [file:] URL without a host and without escape sequences stands for
    its path. *)
Lemma fileURLToPath_plain `{Builtins} u :
  protocol u = "file:" → hostname u = "" → escape_free (pathname u) = true →
  fileURLToPath u = Some (pathname u).
Proof.
  intros Hp Hh He. unfold fileURLToPath.
  destruct (decide (protocol u = "file:")); [|done].
  destruct (decide (hostname u = "")); [|done].
  rewrite escape_free_no_encoded_separator by done.
  by apply decodeURIComponent_plain.
Qed.

(** The two paths of the writer never change, and every storage
    operation is made on them. *)
Lemma run_paths evs : ∀ σ,
  Forall (uses_paths (tmp (this σ)) (target (this σ))) (oplog σ) →
  let σ' := Compact.run σ evs in
  tmp (this σ') = tmp (this σ) ∧ target (this σ') = target (this σ) ∧
  Forall (uses_paths (tmp (this σ)) (target (this σ))) (oplog σ').
Proof.
  induction evs as [|ev rest IH]; intros σ Hl; [done|]. simpl.
  destruct (step_paths σ ev) as [Ht Hp]. pose proof (step_oplog σ ev Hl) as Hl'.
  rewrite <- Ht, <- Hp in Hl'. destruct (IH _ Hl') as (-> & -> & Hf).
  by rewrite Ht, Hp in *.
Qed.

(** * The claims *)

(** C1, as amended.  The promise [write] returns adopts a promise of the
    writer: with the writer idle, the promise of the [#flush] activation
    that writes this content; with the writer busy, the queued promise,
    and the content goes to the buffer.  Promises are settled only when a
    generation ends.  The end of a generation tells its outcome to the
    current waiters, promotes the queued promise to current and starts
    the generation of the buffered payload; the promise of a [#flush]
    activation is settled only once the buffer is empty at the end of a
    generation, and then it and every activation suspended around it are
    settled by [chain_outcome]: a rejection of a later generation
    replaces the outcome of the earlier ones. *)
Theorem write_promise_settlement file tmp_path d evs content :
  let σ := reached file tmp_path d evs in
  let p := (Compact.write content σ).1 in
  let σ' := (Compact.write content σ).2 in
  (busy (this σ) = false →
     ∃ f, promises σ' !! p = Some (Adopt f) ∧ pending_in (promises σ') f ∧
          in_flight σ' = Some (f, WriteFile (tmp (this σ)) content) ∧
          suspended σ' = []) ∧
  (busy (this σ) = true →
     ∃ q, promises σ' !! p = Some (Adopt q) ∧ pending_in (promises σ') q ∧
          queued (this σ') = Some q ∧ buffer (this σ') = Some content) ∧
  (∀ ev f op, in_flight σ = Some (f, op) → ends_generation σ ev = true →
     let τ := Compact.step σ ev in
     (∀ q, current (this σ) = Some (Callbacks q) →
           promises τ !! q = Some (Own (notice_of ev))) ∧
     (∀ q, queued (this σ) = Some q →
           current (this τ) = Some (Callbacks q) ∧ pending_in (promises τ) q ∧
           ∃ next, buffer (this σ) = Some next ∧
                   in_flight τ = Some (length (promises σ), WriteFile (tmp (this σ)) next)) ∧
     (buffer (this σ) = None →
        promises τ !! f = Some (Own (Some (outcome (completion_of ev)))) ∧
        ∀ fr, fr ∈ suspended σ →
          promises τ !! promise fr =
            Some (Own (chain_outcome (outcome (completion_of ev)) (suspended σ) (promise fr)))) ∧
     (∀ next, buffer (this σ) = Some next →
        pending_in (promises τ) f ∧
        suspended τ = {| promise := f; awaiting := S (length (promises σ));
                         pending := completion_of ev |} :: suspended σ ∧
        promises τ !! S (length (promises σ)) = Some (Adopt (length (promises σ))))) ∧
  (∀ ev x r, ends_generation σ ev = false → promises σ !! x = Some r →
             promises (Compact.step σ ev) !! x = Some r).
Proof.
  intros σ p σ'. assert (Hc : consistent σ) by apply reached_consistent.
  destruct (write_returns file tmp_path d evs content) as [Hidle Hbusy].
  split; [exact Hidle|]. split; [exact Hbusy|]. split.
  - intros ev f op Hfl He τ. subst τ.
    pose proof (consistent_step σ ev Hc) as Hcτ.
    destruct (ends_writer σ ev f op Hfl He) as (Ecur & _ & _ & _ & _).
    split_and!.
    + intros q Hq. by eapply ends_current.
    + intros q Hq. rewrite (c_waiting σ Hc), Hq in Ecur. simpl in Ecur.
      split_and!; [done|by apply (live_pending _ q Hcτ), live_current|].
      destruct (buffer (this σ)) as [next|] eqn:Hbuf.
      * exists next. split; [done|]. by destruct (ends_buffered σ ev f op next Hfl He Hbuf).
      * exfalso. pose proof (c_buffer σ Hc) as [_ H]. rewrite Hbuf, Hq in H.
        destruct H as [? ?]; [eauto|done].
    + intros Hbuf. destruct (ends_drained σ ev f op Hc Hfl He Hbuf) as (_ & _ & _ & Hf & Hfr).
      split; [done|]. intros fr Hin. apply Hfr. by apply list_elem_of_fmap_2.
    + intros next Hbuf.
      destruct (ends_buffered σ ev f op next Hfl He Hbuf) as (_ & _ & Hsus & Hp').
      split_and!; [|done|done].
      apply (live_pending _ f Hcτ).
      apply (live_frame _ {| promise := f; awaiting := S (length (promises σ));
                             pending := completion_of ev |}).
      rewrite Hsus. left.
  - intros ev x r He Hx. by apply step_quiet.
Qed.

(** C1, counterexample.  [write("A")] finds the writer idle and "A" is
    committed by its own generation; the promise is still pending then,
    and it is rejected when the generation of "B", which was buffered
    meanwhile, fails. *)
Lemma late_failure_rejects_committed_write :
  let evs := [Call "A"; Call "B"; StorageOk; StorageOk] in
  let σ := Compact.run scenario_world evs in
  handles Compact.step Compact.write scenario_world evs = [1; 3] ∧
  target_file (disk σ) = Some "A" ∧
  state_of (promises σ) 1 = None ∧
  in_flight σ = Some (4, WriteFile ".f.tmp" "B") ∧
  state_of (promises (Compact.run σ [StorageOk; StorageFail (ErrorObject "EXDEV")])) 1
    = Some (Rejected (ErrorObject "EXDEV")).
Proof. repeat split. Qed.

(** C2, as amended.  When a generation fails with an [Error], at either
    storage step: the current waiters are rejected with it; the cleanup
    promotes the waiting callbacks and clears the queue and the buffer;
    with nothing buffered the writer is idle and the sequence is rejected
    with the error; with a payload buffered its generation starts in the
    same step, and the failed sequence stays suspended on it: when it
    resumes it is rejected, with its own error if the chained write
    fulfilled and with the chained write's error otherwise. *)
Theorem failed_generation_cleanup file tmp_path d evs f op message :
  in_flight (reached file tmp_path d evs) = Some (f, op) →
  let σ := reached file tmp_path d evs in
  let err := ErrorObject message in
  let τ := Compact.step σ (StorageFail err) in
  (∀ q, current (this σ) = Some (Callbacks q) →
     promises τ !! q = Some (Own (Some (Rejected err))) ∧
     ∀ w, promises σ !! w = Some (Adopt q) → state_of (promises τ) w = Some (Rejected err)) ∧
  current (this τ) = waiting (this σ) ∧ waiting (this τ) = None ∧
  queued (this τ) = None ∧ buffer (this τ) = None ∧
  (buffer (this σ) = None →
     busy (this τ) = false ∧ in_flight τ = None ∧ oplog τ = oplog σ ∧
     promises τ !! f = Some (Own (Some (Rejected err)))) ∧
  (∀ next, buffer (this σ) = Some next →
     busy (this τ) = true ∧
     in_flight τ = Some (length (promises σ), WriteFile (tmp (this σ)) next) ∧
     oplog τ = oplog σ ++ [WriteFile (tmp (this σ)) next] ∧
     pending_in (promises τ) f ∧
     suspended τ = {| promise := f; awaiting := S (length (promises σ));
                      pending := Some err |} :: suspended σ ∧
     promises τ !! S (length (promises σ)) = Some (Adopt (length (promises σ))) ∧
     ∀ h s, state_of h (S (length (promises σ))) = Some s → pending_in h f →
            (resume (suspended τ) h).2 !! f =
              Some (Own (Some (match s with
                               | Fulfilled => Rejected err
                               | Rejected later => Rejected later
                               end)))).
Proof.
  intros Hfl σ err τ. assert (Hc : consistent σ) by apply reached_consistent.
  assert (He : ends_generation σ (StorageFail err) = true).
  { unfold ends_generation, σ. by rewrite Hfl. }
  pose proof (consistent_step σ (StorageFail err) Hc) as Hcτ.
  destruct (ends_writer σ (StorageFail err) f op Hfl He) as (Ecur & Ew & Eq & Eb & Ea).
  split_and!; auto.
  - intros q Hq. pose proof (ends_current σ _ f op q Hc Hfl He Hq) as Hq'.
    split; [exact Hq'|]. intros w Hw.
    eapply state_of_adopt; [|exact Hq']. by apply step_adopt.
  - intros Hbuf. destruct (ends_drained σ _ f op Hc Hfl He Hbuf) as (E1 & _ & E3 & E4 & _).
    unfold busy. fold τ in Ea. rewrite Ea, Hbuf. done.
  - intros next Hbuf.
    destruct (ends_buffered σ _ f op next Hfl He Hbuf) as (E1 & E2 & E3 & E4).
    fold τ in E1, E2, E3, E4, Ea. unfold busy. rewrite Ea, Hbuf.
    assert (Hpf : pending_in (promises τ) f).
    { apply (live_pending _ f Hcτ).
      apply (live_frame _ {| promise := f; awaiting := S (length (promises σ));
                             pending := Some err |}).
      fold τ. rewrite E3. left. }
    split_and!; auto.
    intros h s Hs Hp. rewrite E3.
    exact (resume_one {| promise := f; awaiting := S (length (promises σ));
                         pending := Some err |} (suspended σ) h s Hs Hp).
Qed.

(** C2, witness: [write("A")], then [write("B")] while "A" is in flight. *)
Lemma failed_generation_cleanup_witness :
  in_flight (reached (PathString "f") ".f.tmp" (MkFiles None None) [Call "A"; Call "B"])
    = Some (0, WriteFile ".f.tmp" "A") ∧
  current (this (Compact.step (reached (PathString "f") ".f.tmp" (MkFiles None None) [Call "A"; Call "B"])
                   (StorageFail (ErrorObject "ENOSPC"))))
    = waiting (this (reached (PathString "f") ".f.tmp" (MkFiles None None) [Call "A"; Call "B"])).
Proof.
  split; [reflexivity|].
  apply (failed_generation_cleanup (PathString "f") ".f.tmp" (MkFiles None None) [Call "A"; Call "B"] 0
           (WriteFile ".f.tmp" "A") "ENOSPC").
  reflexivity.
Defined.

(** C2, counterexample.  Generation "A" fails with ENOSPC while "B" is
    buffered, and generation "B" fails with EXDEV: the sequence of "A" is
    rejected with EXDEV, and no promise at all is rejected with ENOSPC. *)
Lemma later_failure_replaces_error :
  let σ := Compact.run scenario_world [Call "A"; Call "B"] in
  let τ := Compact.run σ [StorageFail (ErrorObject "ENOSPC"); StorageFail (ErrorObject "EXDEV")] in
  in_flight σ = Some (0, WriteFile ".f.tmp" "A") ∧
  promises τ !! 0 = Some (Own (Some (Rejected (ErrorObject "EXDEV")))) ∧
  Forall (λ c, c ≠ Own (Some (Rejected (ErrorObject "ENOSPC")))) (promises τ).
Proof. repeat split. repeat constructor; done. Qed.

(** C3, as amended.  In the scenario, the three calls get three promises;
    the last two adopt the same queued promise.  When "A" is committed
    the three are still pending and the generation of the last payload
    is in flight.  If it commits, the three are fulfilled and the file
    holds the last payload; if it fails with an [Error], the three are
    rejected with it, the first one included. *)
Theorem three_calls_scenario file tmp_path d a b c err :
  let σ0 := boot (writer_on file tmp_path) d in
  let σ1 := Compact.run σ0 [Call a; Call b; Call c] in
  let σ2 := Compact.run σ1 [StorageOk; StorageOk] in
  let σok := Compact.run σ2 [StorageOk; StorageOk] in
  let σko := Compact.run σ2 [StorageOk; StorageFail (ErrorObject err)] in
  handles Compact.step Compact.write σ0 [Call a; Call b; Call c] = [1; 3; 4] ∧
  promises σ1 !! 1 = Some (Adopt 0) ∧
  promises σ1 !! 3 = Some (Adopt 2) ∧ promises σ1 !! 4 = Some (Adopt 2) ∧
  target_file (disk σ2) = Some a ∧ in_flight σ2 = Some (5, WriteFile tmp_path c) ∧
  map (state_of (promises σ2)) [1; 3; 4] = [None; None; None] ∧
  map (state_of (promises σok)) [1; 3; 4]
    = [Some Fulfilled; Some Fulfilled; Some Fulfilled] ∧
  target_file (disk σok) = Some c ∧ busy (this σok) = false ∧
  oplog σok = [WriteFile tmp_path a; Rename tmp_path file;
               WriteFile tmp_path c; Rename tmp_path file] ∧
  map (state_of (promises σko)) [1; 3; 4]
    = [Some (Rejected (ErrorObject err)); Some (Rejected (ErrorObject err));
       Some (Rejected (ErrorObject err))] ∧
  target_file (disk σko) = Some a.
Proof. repeat split. Qed.

(** C3, counterexample.  The promise of [write("A")] is not settled when
    its own generation has committed, and its settlement follows the
    outcome of the generation of "C"; the promises returned for "B" and
    "C" are two objects. *)
Lemma first_write_waits_for_later_generation :
  let calls := [Call "A"; Call "B"; Call "C"] in
  let σ := Compact.run scenario_world (calls ++ [StorageOk; StorageOk]) in
  handles Compact.step Compact.write scenario_world calls = [1; 3; 4] ∧
  target_file (disk σ) = Some "A" ∧
  state_of (promises σ) 1 = None ∧
  state_of (promises (Compact.run σ [StorageOk; StorageOk])) 1 = Some Fulfilled ∧
  state_of (promises (Compact.run σ [StorageOk; StorageFail (ErrorObject "EXDEV")])) 1
    = Some (Rejected (ErrorObject "EXDEV")) ∧
  3 ≠ 4.
Proof. repeat split; done. Qed.

(** C4, as amended.  Take the calls that arrive within one generation:
    any events, from a state in which the writer is busy, none of which
    ends the generation in flight, so calls made while [writeFile] is in
    flight and calls made while [rename] is in flight alike.  Each call gets
    a promise of its own, all different, all adopting the one queued
    promise, which is also the promise that was queued before these events,
    if there was one; at every later time they are in the same state.  When
    the generation in flight ends, the queued promise becomes the current
    one and the generation of the last payload starts; when the generation
    that has it as current ends, all of them are fulfilled, or rejected
    with the [Error], as [notice_of] says. *)
Theorem coalesced_calls_share_outcome file tmp_path d evs win :
  busy (this (reached file tmp_path d evs)) = true →
  within_generation (reached file tmp_path d evs) win = true →
  payloads win ≠ [] →
  let σ := reached file tmp_path d evs in
  let σ' := Compact.run σ win in
  let hs := handles Compact.step Compact.write σ win in
  ∃ q, queued (this σ') = Some q ∧
       (∀ q0, queued (this σ) = Some q0 → q0 = q) ∧
       buffer (this σ') = last (payloads win) ∧
       length hs = length (payloads win) ∧ NoDup hs ∧
       Forall (λ p, promises σ' !! p = Some (Adopt q)) hs ∧
       (∀ rest p1 p2, p1 ∈ hs → p2 ∈ hs →
          state_of (promises (Compact.run σ' rest)) p1
          = state_of (promises (Compact.run σ' rest)) p2) ∧
       (∀ ev, ends_generation σ' ev = true →
          let τ := Compact.step σ' ev in
          current (this τ) = Some (Callbacks q) ∧
          (∃ f next, last (payloads win) = Some next ∧
                     in_flight τ = Some (f, WriteFile (tmp (this σ)) next)) ∧
          Forall (λ p, state_of (promises τ) p = None) hs) ∧
       (∀ rest ev,
          let τ := Compact.run σ' rest in
          current (this τ) = Some (Callbacks q) → ends_generation τ ev = true →
          Forall (λ p, state_of (promises (Compact.step τ ev)) p = notice_of ev) hs).
Proof.
  intros Hb Hwin Hne σ σ' hs.
  assert (Hc : consistent σ) by apply reached_consistent.
  assert (Hc' : consistent σ') by (subst σ'; apply consistent_run; exact Hc).
  destruct (window_events win σ Hb Hwin) as (Ha' & Hcur & Htmp & Hlast).
  fold σ' hs in Ha', Hcur, Htmp, Hlast.
  destruct (last (payloads win)) as [next|] eqn:Hnext;
    [|by apply last_None in Hnext].
  destruct Hlast as (q & Hq & Hlink & Hbuf & Had).
  assert (Hw : waiting (this σ') = Some (Callbacks q)) by (by rewrite (c_waiting σ' Hc'), Hq).
  destruct (handles_fresh win σ) as (_ & Hsorted & Hl). fold hs in Hsorted, Hl.
  exists q. split_and!; auto.
  - clear -Hsorted. induction Hsorted as [|p ps Hs IH Hall]; [constructor|].
    apply NoDup_cons. split; [|done].
    intros Hin. eapply Forall_forall in Hall; [|exact Hin]. lia.
  - intros rest p1 p2 H1 H2.
    eapply Forall_forall in H1; [|exact Had]. eapply Forall_forall in H2; [|exact Had].
    simpl in H1, H2. eapply state_of_adopt_same; apply run_adopt; eassumption.
  - intros ev He τ. subst τ.
    destruct (ends_in_flight σ' ev He) as (f & op & Hfl').
    destruct (ends_writer σ' ev f op Hfl' He) as (Ecur & _). rewrite Hw in Ecur.
    split_and!.
    + exact Ecur.
    + destruct (ends_buffered σ' ev f op next Hfl' He Hbuf) as (E & _).
      exists (length (promises σ')), next. by rewrite E, Htmp.
    + pose proof (consistent_step σ' ev Hc') as Hc''.
      pose proof (live_pending _ q Hc'' (live_current _ q Ecur)) as Hpq.
      eapply Forall_impl; [exact Had|]. intros p Hpa. simpl in Hpa.
      eapply state_of_adopt; [by apply step_adopt|exact Hpq].
  - intros rest ev τ Hcurτ He.
    assert (Hcτ : consistent τ) by (subst τ; by apply consistent_run).
    destruct (ends_in_flight τ ev He) as (f & op & Hfl').
    pose proof (ends_current τ ev f op q Hcτ Hfl' He Hcurτ) as Hq'.
    eapply Forall_impl; [exact Had|]. intros p Hpa. simpl in Hpa.
    eapply state_of_adopt; [|exact Hq']. by apply step_adopt, run_adopt.
Qed.

(** C4, witness: "B" arrives while the [writeFile] of "A" is in flight,
    "C" while its [rename] is. *)
Lemma coalesced_calls_share_outcome_witness :
  busy (this (reached (PathString "f") ".f.tmp" (MkFiles None None) [Call "A"])) = true ∧
  within_generation (reached (PathString "f") ".f.tmp" (MkFiles None None) [Call "A"])
    [Call "B"; StorageOk; Call "C"] = true ∧
  payloads [Call "B"; StorageOk; Call "C"] ≠ [] ∧
  ∃ q, queued (this (Compact.run (reached (PathString "f") ".f.tmp" (MkFiles None None) [Call "A"])
                       [Call "B"; StorageOk; Call "C"])) = Some q.
Proof.
  assert (H1 : busy (this (reached (PathString "f") ".f.tmp" (MkFiles None None) [Call "A"])) = true)
    by reflexivity.
  assert (H2 : within_generation (reached (PathString "f") ".f.tmp" (MkFiles None None) [Call "A"])
                 [Call "B"; StorageOk; Call "C"] = true) by reflexivity.
  assert (H3 : payloads [Call "B"; StorageOk; Call "C"] ≠ []) by discriminate.
  split_and!; [exact H1|exact H2|exact H3|].
  destruct (coalesced_calls_share_outcome (PathString "f") ".f.tmp" (MkFiles None None)
              [Call "A"] [Call "B"; StorageOk; Call "C"] H1 H2 H3) as (q & Hq & _).
  exists q. exact Hq.
Defined.

(** C4, counterexample.  [write("B")] and [write("C")], both made while
    "A" is in flight, return different promises. *)
Lemma distinct_promise_objects :
  handles Compact.step Compact.write scenario_world [Call "A"; Call "B"; Call "C"] = [1; 3; 4] ∧
  busy (this (Compact.run scenario_world [Call "A"])) = true ∧
  busy (this (Compact.run scenario_world [Call "A"; Call "B"])) = true ∧
  3 ≠ 4.
Proof. repeat split; done. Qed.

(** C5.  The generations of a run are the [writeFile] calls of its log.
    Each one writes the payload of the last [write] call made before it
    starts, and the calls the generations take their payload from are
    strictly increasing: no generation writes a payload older than one an
    earlier generation wrote. *)
Theorem monotonic_commit file tmp_path d evs :
  let σ0 := boot (writer_on file tmp_path) d in
  let gs := generations σ0 0 evs in
  map snd gs = written (oplog (Compact.run σ0 evs)) ∧
  Forall (λ '(n, c), (1 ≤ n)%nat ∧ payloads evs !! (n - 1)%nat = Some c) gs ∧
  StronglySorted lt (map fst gs).
Proof.
  intros σ0 gs. subst gs. split.
  - by rewrite generations_written.
  - destruct (generations_sound evs σ0 [] 0) as [H1 H2]; [apply consistent_boot|done|done|].
    split; [|done]. eapply Forall_impl; [exact H1|]. intros [n c] [? ?]. split; [lia|done].
Qed.

(** C6.  In every reachable state: a [write] that finds the writer busy
    leaves exactly its own payload in the buffer, whatever was there; the
    buffer is empty when the writer is idle, and it is empty exactly when
    no promise is queued and no callbacks are waiting. *)
Theorem single_slot_buffer file tmp_path d evs :
  let σ := Compact.run (boot (writer_on file tmp_path) d) evs in
  (∀ content, busy (this σ) = true →
     buffer (this (Compact.write content σ).2) = Some content) ∧
  (busy (this σ) = false → buffer (this σ) = None) ∧
  (buffer (this σ) = None ↔ queued (this σ) = None) ∧
  (queued (this σ) = None ↔ waiting (this σ) = None).
Proof.
  intros σ. assert (Hc : consistent σ) by apply consistent_reachable.
  repeat split.
  - intros content Hb. unfold busy in Hb.
    destruct (queued (this σ)) as [q|] eqn:Hq.
    + by rewrite (write_busy_again _ _ q).
    + by rewrite write_busy_first.
  - intros Hb. by apply consistent_idle.
  - intros Hb. pose proof (c_buffer σ Hc) as [_ H].
    destruct (queued (this σ)); [|done]. destruct H as [? H]; [eauto|congruence].
  - intros Hq. pose proof (c_buffer σ Hc) as [H _].
    destruct (buffer (this σ)); [|done]. destruct H as [? H]; [eauto|congruence].
  - intros Hq. by rewrite (c_waiting σ Hc), Hq.
  - intros Hw. rewrite (c_waiting σ Hc) in Hw. by destruct (queued (this σ)).
Qed.

(** C7.  [await write(a); await write(b)]: each promise is pending while
    its generation is in flight and fulfilled when it has renamed; the
    writer is not busy then; the file holds [a] and then [b]; two full
    generations ran, also when [a = b]. *)
Theorem sequential_writes file tmp_path d a b :
  let σ0 := boot (writer_on file tmp_path) d in
  let pa := (Compact.write a σ0).1 in
  let σ1 := Compact.run σ0 [Call a; StorageOk; StorageOk] in
  let pb := (Compact.write b σ1).1 in
  let σ2 := Compact.run σ1 [Call b; StorageOk; StorageOk] in
  state_of (promises (Compact.run σ0 [Call a; StorageOk])) pa = None ∧
  state_of (promises σ1) pa = Some Fulfilled ∧ busy (this σ1) = false ∧
  target_file (disk σ1) = Some a ∧
  state_of (promises (Compact.run σ1 [Call b; StorageOk])) pb = None ∧
  state_of (promises σ2) pb = Some Fulfilled ∧ busy (this σ2) = false ∧
  target_file (disk σ2) = Some b ∧
  oplog σ2 = [WriteFile tmp_path a; Rename tmp_path file;
              WriteFile tmp_path b; Rename tmp_path file].
Proof. repeat split. Qed.

(** C8, as amended.  The temporary path is [join(dirname(path), "." +
    basename(path) + ".tmp")], where [path] is the target as a string.  Its
    file name is [.F.tmp], with [F] the file name of the target, and, when
    [F] is not empty, ["."] or [".."], its directory is the directory of
    the normalised target.  For a target [D/F] whose directory [D] is
    written out and is normalised, it is [D/.F.tmp], and [D] and [F] are
    the [dirname] and the [basename] of the target; for a file name [F]
    alone, whose [dirname] is ["."], it is [.F.tmp]; for [/F] it is
    [/.F.tmp].  A [file:] URL without a host and without escape sequences
    stands for its path; the constructor throws for a URL that is not a
    [file:] URL.  The writer keeps the temporary path the constructor
    computed, and the target, in every reachable state, and every storage
    operation is made on these two paths. *)
Theorem temp_path_fixed `{Builtins} :
  (∀ file tmp_path, temp file = Some tmp_path →
     ∃ path, as_string file = Some path ∧
       tmp_path = join (dirname path) ("." +:+ basename path +:+ ".tmp") ∧
       basename tmp_path = "." +:+ basename path +:+ ".tmp" ∧
       (basename path ≠ "" → basename path ≠ "." → basename path ≠ ".." →
        dirname tmp_path = dirname (normalize path))) ∧
  (∀ D F, normalize D = D → ends_with_separator D = false → D ≠ "." →
     F ≠ "" → no_separator F = true →
     dirname (D +:+ "/" +:+ F) = D ∧ basename (D +:+ "/" +:+ F) = F ∧
     temp (PathString (D +:+ "/" +:+ F)) = Some (D +:+ "/" +:+ "." +:+ F +:+ ".tmp")) ∧
  (∀ F, F ≠ "" → no_separator F = true →
     dirname F = "." ∧ basename F = F ∧
     temp (PathString F) = Some ("." +:+ F +:+ ".tmp") ∧
     dirname ("/" +:+ F) = "/" ∧ basename ("/" +:+ F) = F ∧
     temp (PathString ("/" +:+ F)) = Some ("/" +:+ "." +:+ F +:+ ".tmp")) ∧
  (∀ u, protocol u = "file:" → hostname u = "" → escape_free (pathname u) = true →
     temp (PathURL u) = temp (PathString (pathname u))) ∧
  (∀ u, protocol u ≠ "file:" → constructor (PathURL u) = None) ∧
  (∀ file w d evs, constructor file = Some w →
     let σ := Compact.run (boot w d) evs in
     temp file = Some (tmp (this σ)) ∧ path (this σ) = file ∧
     Forall (uses_paths (tmp w) file) (oplog σ)).
Proof.
  split_and!.
  - intros file tmp_path Ht. unfold temp in Ht.
    destruct (as_string file) as [p|]; [|done]. injection Ht as <-.
    exists p. split_and!; [done|done|apply basename_temp|apply dirname_temp].
  - intros D F Hn Ht Hdot HF HF'.
    destruct (temp_normalized D F Hn Ht Hdot HF HF') as (Hd & Hb & Hj).
    split_and!; [done|done|]. unfold temp. cbn [as_string]. by rewrite Hj.
  - intros F HF HF'.
    destruct (temp_bare F HF HF') as (Hd & Hb & Hj).
    destruct (temp_root F HF HF') as (Hd' & Hb' & Hj').
    split_and!; [done|done| |done|done|]; unfold temp; cbn [as_string].
    + by rewrite Hj.
    + by rewrite Hj'.
  - intros u Hp Hh He. unfold temp. cbn [as_string].
    by rewrite fileURLToPath_plain.
  - intros u Hu. unfold constructor, temp, as_string, fileURLToPath.
    by destruct (decide (protocol u = "file:")).
  - intros file w d evs Hw σ. unfold constructor in Hw.
    destruct (temp file) as [tmp_path|] eqn:Ht; [|done]. injection Hw as <-.
    destruct (run_paths evs (boot (writer_on file tmp_path) d)) as (Ht' & Hp & Hl);
      [by constructor|].
    subst σ. unfold path. rewrite Ht', Hp. done.
Qed.

(** C8, witness: the conditions on [D] and [F] hold for the target
    [/srv/data/db.json]. *)
Lemma temp_path_fixed_witness :
  (normalize "/srv/data" = "/srv/data" ∧ ends_with_separator "/srv/data" = false ∧
   "/srv/data" ≠ "." ∧ "db.json" ≠ "" ∧ no_separator "db.json" = true) ∧
  ∀ B : Builtins,
    dirname ("/srv/data" +:+ "/" +:+ "db.json") = "/srv/data" ∧
    basename ("/srv/data" +:+ "/" +:+ "db.json") = "db.json" ∧
    @temp B (PathString ("/srv/data" +:+ "/" +:+ "db.json"))
    = Some ("/srv/data" +:+ "/" +:+ "." +:+ "db.json" +:+ ".tmp").
Proof.
  split; [by split_and!|].
  intros B. apply (@temp_path_fixed B); [reflexivity|reflexivity|discriminate|discriminate|reflexivity].
Defined.

(** C8, counterexample.  The directory of [data.json] is ["."], and its
    temporary path is [.data.json.tmp], not [./.data.json.tmp]: [join]
    normalises.  It does so lexically: the directory of [a/../data.json]
    is [a/..], and its temporary path is [.data.json.tmp] as well.  For a
    URL that is not a [file:] URL there is no temporary path: the
    constructor throws. *)
Lemma temp_path_is_normalised :
  dirname "data.json" = "." ∧ basename "data.json" = "data.json" ∧
  (∀ B : Builtins, @temp B (PathString "data.json") = Some ".data.json.tmp") ∧
  ".data.json.tmp" ≠ "." +:+ "/" +:+ "." +:+ "data.json" +:+ ".tmp" ∧
  dirname "a/../data.json" = "a/.." ∧ basename "a/../data.json" = "data.json" ∧
  (∀ B : Builtins, @temp B (PathString "a/../data.json") = Some ".data.json.tmp") ∧
  ".data.json.tmp" ≠ "a/.." +:+ "/" +:+ "." +:+ "data.json" +:+ ".tmp" ∧
  (∀ B : Builtins, @constructor B (PathURL (MkURL "https:" "example.org" "/data.json")) = None).
Proof. split_and!; done. Qed.

(** C9, the failing input evaluated.  [write("A")], then [write("")]
    while "A" is in flight: the compact variant runs a second generation
    that empties the file and fulfils the second promise; the documented
    variant tests the buffer with [if (next)], runs no second generation,
    keeps "A" in the file and the empty string in the buffer, and leaves
    the second promise pending when the run ends. *)
Theorem variants_diverge_on_empty_payload :
  let evs := [Call "A"; Call ""; StorageOk; StorageOk; StorageOk; StorageOk] in
  let σc := Compact.run scenario_world evs in
  let σd := Documented.run scenario_world evs in
  handles Compact.step Compact.write scenario_world evs = [1; 3] ∧
  handles Documented.step Documented.write scenario_world evs = [0; 2] ∧
  oplog σc = [WriteFile ".f.tmp" "A"; Rename ".f.tmp" (PathString "f");
              WriteFile ".f.tmp" ""; Rename ".f.tmp" (PathString "f")] ∧
  oplog σd = [WriteFile ".f.tmp" "A"; Rename ".f.tmp" (PathString "f")] ∧
  target_file (disk σc) = Some "" ∧ target_file (disk σd) = Some "A" ∧
  state_of (promises σc) 3 = Some Fulfilled ∧ state_of (promises σd) 2 = None ∧
  busy (this σd) = false ∧ buffer (this σd) = Some "" ∧ buffer (this σc) = None.
Proof. repeat split. Qed.

(** C10, as amended.  When a generation that has current waiters fails
    with a value that is not an [Error]: the cleanup runs as usual; with
    nothing buffered the sequence is rejected with that value; with a
    payload buffered the sequence stays suspended on the chained write,
    and resumes rejected with the value if that fulfilled and with the
    later error otherwise; the promise of the waiters is never settled,
    whatever happens next, and every promise that adopted it stays
    pending. *)
Theorem non_error_rejection_strands_waiters file tmp_path d evs f op q value :
  in_flight (reached file tmp_path d evs) = Some (f, op) →
  current (this (reached file tmp_path d evs)) = Some (Callbacks q) →
  let σ := reached file tmp_path d evs in
  let err := NotAnError value in
  let τ := Compact.step σ (StorageFail err) in
  current (this τ) = waiting (this σ) ∧ waiting (this τ) = None ∧
  queued (this τ) = None ∧ buffer (this τ) = None ∧
  (buffer (this σ) = None →
     busy (this τ) = false ∧ promises τ !! f = Some (Own (Some (Rejected err)))) ∧
  (∀ next, buffer (this σ) = Some next →
     in_flight τ = Some (length (promises σ), WriteFile (tmp (this σ)) next) ∧
     pending_in (promises τ) f ∧
     suspended τ = {| promise := f; awaiting := S (length (promises σ));
                      pending := Some err |} :: suspended σ ∧
     ∀ h s, state_of h (S (length (promises σ))) = Some s → pending_in h f →
            (resume (suspended τ) h).2 !! f =
              Some (Own (Some (match s with
                               | Fulfilled => Rejected err
                               | Rejected later => Rejected later
                               end)))) ∧
  (∀ rest, pending_in (promises (Compact.run τ rest)) q ∧
           ∀ w, promises σ !! w = Some (Adopt q) →
                state_of (promises (Compact.run τ rest)) w = None).
Proof.
  intros Hfl Hcur σ err τ. assert (Hc : consistent σ) by apply reached_consistent.
  assert (He : ends_generation σ (StorageFail err) = true).
  { unfold ends_generation, σ. by rewrite Hfl. }
  pose proof (consistent_step σ (StorageFail err) Hc) as Hcτ.
  destruct (ends_writer σ (StorageFail err) f op Hfl He) as (Ecur & Ew & Eq & Eb & Ea).
  pose proof (ends_current σ _ f op q Hc Hfl He Hcur) as Hq. simpl in Hq.
  destruct (live_distinct σ f op Hc Hfl) as (_ & _ & Hd & _).
  destruct (Hd q Hcur) as (Hqf & Hqs & Hqq).
  split_and!; auto.
  - intros Hbuf. destruct (ends_drained σ _ f op Hc Hfl He Hbuf) as (E1 & _ & E3 & E4 & _).
    unfold busy. fold τ in Ea. rewrite Ea, Hbuf. done.
  - intros next Hbuf.
    destruct (ends_buffered σ _ f op next Hfl He Hbuf) as (E1 & E2 & E3 & E4).
    fold τ in E1, E2, E3, E4.
    assert (Hpf : pending_in (promises τ) f).
    { apply (live_pending _ f Hcτ).
      apply (live_frame _ {| promise := f; awaiting := S (length (promises σ));
                             pending := Some err |}).
      fold τ. rewrite E3. left. }
    split_and!; auto.
    intros h s Hs Hp. rewrite E3.
    exact (resume_one {| promise := f; awaiting := S (length (promises σ));
                         pending := Some err |} (suspended σ) h s Hs Hp).
  - intros rest.
    assert (Hdrop : q ∉ live τ).
    { assert (Hlt : (q < length (promises σ))%nat).
      { apply (live_lt σ q Hc). by apply live_current. }
      unfold live. fold τ in Ecur, Eq. rewrite Ecur, Eq, (c_waiting σ Hc).
      destruct (buffer (this σ)) as [next|] eqn:Hbuf.
      - destruct (ends_buffered σ _ f op next Hfl He Hbuf) as (E1 & _ & E3 & _).
        fold τ in E1, E3. rewrite E1, E3. simpl. rewrite app_nil_r.
        rewrite !not_elem_of_cons, not_elem_of_app. split_and!; [lia|done|done|].
        destruct (queued (this σ)) as [q'|] eqn:Hq'; simpl; [|apply not_elem_of_nil].
        rewrite list_elem_of_singleton. congruence.
      - destruct (ends_drained σ _ f op Hc Hfl He Hbuf) as (E1 & E2 & _).
        fold τ in E1, E2. rewrite E1, E2. simpl.
        destruct (queued (this σ)) as [q'|] eqn:Hq'; simpl; [|apply not_elem_of_nil].
        rewrite list_elem_of_singleton. congruence. }
    assert (Hrest : pending_in (promises (Compact.run τ rest)) q).
    { by apply run_dropped. }
    split; [done|]. intros w Hw.
    eapply state_of_adopt; [|exact Hrest]. by apply run_adopt, step_adopt.
Qed.

(** C10, witness: "B" was queued behind "A" and its generation fails with
    a string; a later write succeeds and the promise returned for "B" is
    still pending. *)
Lemma non_error_rejection_strands_waiters_witness :
  in_flight (reached (PathString "f") ".f.tmp" (MkFiles None None) [Call "A"; Call "B"; StorageOk; StorageOk])
    = Some (4, WriteFile ".f.tmp" "B") ∧
  current (this (reached (PathString "f") ".f.tmp" (MkFiles None None) [Call "A"; Call "B"; StorageOk; StorageOk]))
    = Some (Callbacks 2) ∧
  pending_in
    (promises (Compact.run
                 (Compact.step (reached (PathString "f") ".f.tmp" (MkFiles None None) [Call "A"; Call "B"; StorageOk; StorageOk])
                    (StorageFail (NotAnError "oops")))
                 [Call "D"; StorageOk; StorageOk])) 2.
Proof.
  split; [reflexivity|]. split; [reflexivity|].
  apply (non_error_rejection_strands_waiters (PathString "f") ".f.tmp" (MkFiles None None)
           [Call "A"; Call "B"; StorageOk; StorageOk] 4 (WriteFile ".f.tmp" "B") 2 "oops");
    reflexivity.
Defined.

(** C10, counterexample.  The generation of "B" fails with a value that
    is not an [Error] while "C" is buffered, and the generation of "C"
    fails with EXDEV: the sequence of "B" is rejected with EXDEV, not
    with the value it rethrew. *)
Lemma later_failure_replaces_thrown_value :
  let σ := Compact.run scenario_world [Call "A"; Call "B"; StorageOk; StorageOk; Call "C"] in
  let τ := Compact.run σ [StorageFail (NotAnError "oops"); StorageFail (ErrorObject "EXDEV")] in
  in_flight σ = Some (4, WriteFile ".f.tmp" "B") ∧
  current (this σ) = Some (Callbacks 2) ∧
  promises τ !! 4 = Some (Own (Some (Rejected (ErrorObject "EXDEV")))) ∧
  promises τ !! 2 = Some (Own None).
Proof. repeat split. Qed.

(** * Further properties of the code *)

Lemma step_disk σ ev :
  disk (Compact.step σ ev) =
    match ev, in_flight σ with
    | StorageOk, Some (_, op) => commit op (disk σ)
    | _, _ => disk σ
    end.
Proof.
  destruct (step_cases σ ev) as [(c & -> & ->)|[(_ & Hfl & ->)|[(f & a & b & Hfl & -> & ->)|(f & op & Hfl & He & _)]]].
  - unfold Compact.write, Compact.defer, Compact.flush, alloc.
    by destruct (active (this σ)); [destruct (queued (this σ))|].
  - rewrite Hfl. by destruct ev.
  - by rewrite Hfl.
  - rewrite (step_ends _ _ _ _ Hfl He), Hfl.
    match goal with |- context [Compact.finally_ _ _ ?s] => set (σ0 := s) end.
    assert (E : disk (Compact.finally_ f (completion_of ev) σ0) = disk σ0).
    { destruct (buffer (this σ0)) as [next|] eqn:Hb.
      - by rewrite (finally_buffered _ _ _ next).
      - by rewrite finally_drained. }
    rewrite E. subst σ0. simpl. by destruct ev.
Qed.

Lemma written_snoc_rename ops a b : written (ops ++ [Rename a b]) = written ops.
Proof. by rewrite written_app, app_nil_r. Qed.

Lemma written_snoc_write ops a c : last (written (ops ++ [WriteFile a c])) = Some c.
Proof. rewrite written_app. simpl. apply last_snoc. Qed.

Lemma staged_step σ ev : staged σ → staged (Compact.step σ ev).
Proof.
  intros Hs. unfold staged.
  destruct (step_cases σ ev) as [(c & -> & ->)|[(_ & Hfl & ->)|[(f & a & b & Hfl & -> & ->)|(f & op & Hfl & He & _)]]].
  - destruct (active (this σ)) eqn:Ha.
    + destruct (queued (this σ)) as [q|] eqn:Hq.
      * by rewrite (write_busy_again _ _ q).
      * by rewrite write_busy_first.
    + rewrite write_idle by done. simpl. apply written_snoc_write.
  - done.
  - unfold staged in Hs. rewrite Hfl in Hs. simpl.
    exists b. by rewrite written_snoc_rename.
  - rewrite (step_ends _ _ _ _ Hfl He).
    destruct (buffer (this σ)) as [next|] eqn:Hb.
    + rewrite (finally_buffered _ _ _ next) by done. simpl. apply written_snoc_write.
    + by rewrite finally_drained.
Qed.

Lemma staged_run evs : ∀ σ, staged σ → staged (Compact.run σ evs).
Proof.
  induction evs as [|ev rest IH]; intros σ Hs; [done|]. simpl. by apply IH, staged_step.
Qed.

Lemma staged_rename file tmp_path d evs f a b :
  in_flight (reached file tmp_path d evs) = Some (f, Rename a b) →
  let σ := reached file tmp_path d evs in
  ∃ c, last (written (oplog σ)) = Some c ∧ tmp_file (disk σ) = Some c ∧
       target_file (disk (Compact.step σ StorageOk)) = Some c ∧
       tmp_file (disk (Compact.step σ StorageOk)) = None.
Proof.
  intros Hfl σ. assert (Hs : staged σ) by (apply staged_run; exact I).
  unfold staged in Hs. unfold σ in Hs. rewrite Hfl in Hs. destruct Hs as (c & Hl & Ht).
  exists c. rewrite step_disk. unfold σ. rewrite Hfl. simpl. by rewrite Ht.
Qed.

(** X2.  When [rename] fulfils, the target file holds the payload that the
    [writeFile] of the same generation wrote, which is the last payload of
    the log, and the temporary file is gone. *)
Theorem rename_commits_written_payload file tmp_path d evs f a b :
  in_flight (reached file tmp_path d evs) = Some (f, Rename a b) →
  let σ := reached file tmp_path d evs in
  ∃ c, last (written (oplog σ)) = Some c ∧ tmp_file (disk σ) = Some c ∧
       target_file (disk (Compact.step σ StorageOk)) = Some c ∧
       tmp_file (disk (Compact.step σ StorageOk)) = None.
Proof. apply staged_rename. Qed.

Lemma rename_commits_written_payload_witness :
  in_flight (reached (PathString "f") ".f.tmp" (MkFiles None None) [Call "A"; StorageOk])
    = Some (0, Rename ".f.tmp" (PathString "f")) ∧
  ∃ c, target_file (disk (Compact.run scenario_world [Call "A"; StorageOk; StorageOk])) = Some c.
Proof.
  split; [reflexivity|].
  destruct (rename_commits_written_payload (PathString "f") ".f.tmp" (MkFiles None None)
              [Call "A"; StorageOk] 0 ".f.tmp" (PathString "f") eq_refl) as (c & _ & _ & H & _).
  exists c. exact H.
Defined.

(** Payloads written are payloads passed to [write]. *)
Lemma written_are_payloads file tmp_path d evs c :
  c ∈ written (oplog (reached file tmp_path d evs)) → c ∈ payloads evs.
Proof.
  intros Hc. unfold reached in Hc.
  pose proof (generations_written evs (boot (writer_on file tmp_path) d) 0) as Hw.
  simpl in Hw. rewrite drop_0 in Hw. rewrite <- Hw in Hc.
  destruct (generations_sound evs (boot (writer_on file tmp_path) d) [] 0) as [Hf _];
    [apply consistent_boot|done|done|].
  apply list_elem_of_fmap in Hc as ([n c'] & -> & Hin).
  eapply Forall_forall in Hf; [|exact Hin]. destruct Hf as [_ Hl]. simpl.
  by eapply list_elem_of_lookup_2.
Qed.

(** X3.  The target file always holds either what it held before the
    writer was built or, whole, one of the payloads passed to [write].  A
    call of [write] does not change it, a storage operation that fails
    does not change it, and neither does [writeFile] when it fulfils: the
    only event that changes it is [rename] fulfilling. *)
Theorem file_holds_a_whole_payload file tmp_path d evs :
  let σ := reached file tmp_path d evs in
  (target_file (disk σ) = target_file d ∨
   ∃ c, c ∈ payloads evs ∧ target_file (disk σ) = Some c) ∧
  (∀ c, target_file (disk (Compact.step σ (Call c))) = target_file (disk σ)) ∧
  (∀ err, target_file (disk (Compact.step σ (StorageFail err))) = target_file (disk σ)) ∧
  (∀ f a c, in_flight σ = Some (f, WriteFile a c) →
     target_file (disk (Compact.step σ StorageOk)) = target_file (disk σ)) ∧
  (∀ ev, target_file (disk (Compact.step σ ev)) ≠ target_file (disk σ) →
     ev = StorageOk ∧ ∃ f a b, in_flight σ = Some (f, Rename a b)).
Proof.
  intros σ. split_and!.
  - subst σ. induction evs as [|ev rest IH] using rev_ind; [by left|].
    unfold reached in *. rewrite run_app. simpl.
    set (σ := Compact.run (boot (writer_on file tmp_path) d) rest) in *.
    assert (Hpay : ∀ c, c ∈ payloads rest → c ∈ payloads (rest ++ [ev])).
    { intros c Hc. clear -Hc. induction rest as [|[c'| |] rest IH]; simpl in *.
      - by apply elem_of_nil in Hc.
      - apply elem_of_cons in Hc as [->|Hc]; [left|right; by apply IH].
      - by apply IH.
      - by apply IH. }
    rewrite step_disk.
    destruct ev as [c'| |err]; try (destruct IH as [IH|(c & Hc & IH)]; [by left|right; eauto]).
    destruct (in_flight σ) as [[f [a b|a b]]|] eqn:Hfl;
      try (simpl; destruct IH as [IH|(c & Hc & IH)]; [by left|right; eauto]).
    right. destruct (staged_rename file tmp_path d rest f a b Hfl)
      as (c & Hl & Ht & _).
    exists c. simpl. split; [|exact Ht].
    apply Hpay. apply (written_are_payloads file tmp_path d). fold (reached file tmp_path d rest).
    apply last_Some_elem_of in Hl. exact Hl.
  - intros c. by rewrite step_disk.
  - intros err. by rewrite step_disk.
  - intros f a c Hfl. by rewrite step_disk, Hfl.
  - intros ev Hev. rewrite step_disk in Hev.
    destruct ev as [c| |err]; [done| |done].
    split; [done|]. destruct (in_flight σ) as [[f [a b|a b]]|]; [done|eauto|done].
Qed.

Lemma settle_own h p s q st :
  h !! q = Some (Own st) → ∃ st', settle h p s !! q = Some (Own st').
Proof.
  intros Hq. destruct (decide (p = q)) as [->|Hne].
  - unfold settle. rewrite Hq. destruct st as [s'|]; [eauto|].
    rewrite list_lookup_insert_eq by (by eapply lookup_lt_Some). eauto.
  - rewrite settle_lookup_ne by done. eauto.
Qed.

Lemma settle_inv_adopt h p s w q :
  settle h p s !! w = Some (Adopt q) → h !! w = Some (Adopt q).
Proof.
  destruct (decide (p = w)) as [->|Hne]; [|by rewrite settle_lookup_ne].
  unfold settle. destruct (h !! w) as [[[s'|]|q']|] eqn:E; try by rewrite E.
  rewrite list_lookup_insert_eq by (by eapply lookup_lt_Some). done.
Qed.

Lemma flat_settle h p s : flat h → flat (settle h p s).
Proof.
  intros Hf w q Hw. apply settle_inv_adopt in Hw.
  destruct (Hf w q Hw) as [st Hq]. by eapply settle_own.
Qed.

Lemma flat_notify o cb h : flat h → flat (notify o cb h).
Proof. destruct o, cb; simpl; auto using flat_settle. Qed.

Lemma flat_resume fs : ∀ h, flat h → flat (resume fs h).2.
Proof.
  induction fs as [|fr rest IH]; intros h Hf; [done|].
  cbn [resume]. destruct (state_of h (awaiting fr)) as [[|err]|]; [| |done];
    by apply IH, flat_settle.
Qed.

Lemma flat_alloc_own h st : flat h → flat (h ++ [Own st]).
Proof.
  intros Hf w q Hw. apply lookup_app_Some in Hw as [Hw|[_ Hw]].
  - destruct (Hf w q Hw) as [st' Hq]. exists st'. by apply lookup_alloc_old.
  - destruct (w - length h)%nat as [|n]; simpl in Hw; [done|by destruct n].
Qed.

Lemma flat_alloc_adopt h q st :
  h !! q = Some (Own st) → flat h → flat (h ++ [Adopt q]).
Proof.
  intros Hq Hf w q' Hw. apply lookup_app_Some in Hw as [Hw|[_ Hw]].
  - destruct (Hf w q' Hw) as [st' Hq']. exists st'. by apply lookup_alloc_old.
  - destruct (w - length h)%nat as [|n]; simpl in Hw; [|by destruct n].
    injection Hw as ->. exists st. by apply lookup_alloc_old.
Qed.

Lemma flat_step σ ev : consistent σ → flat (promises σ) → flat (promises (Compact.step σ ev)).
Proof.
  intros Hc Hf.
  destruct (step_cases σ ev) as [(c & -> & ->)|[(_ & Hfl & ->)|[(f & a & b & Hfl & -> & ->)|(f & op & Hfl & He & _)]]];
    [|done|done|].
  - destruct (active (this σ)) eqn:Ha.
    + destruct (queued (this σ)) as [q|] eqn:Hq.
      * rewrite (write_busy_again _ _ q) by done. simpl.
        eapply flat_alloc_adopt; [|done]. by apply (live_pending σ q Hc), live_queued.
      * rewrite write_busy_first by done. simpl.
        eapply flat_alloc_adopt; [apply lookup_alloc_new|]. by apply flat_alloc_own.
    + rewrite write_idle by done. simpl.
      eapply flat_alloc_adopt; [apply lookup_alloc_new|]. by apply flat_alloc_own.
  - rewrite (step_ends _ _ _ _ Hfl He).
    destruct (buffer (this σ)) as [next|] eqn:Hb.
    + rewrite (finally_buffered _ _ _ next) by done. simpl.
      eapply flat_alloc_adopt; [apply lookup_alloc_new|]. by apply flat_alloc_own, flat_notify.
    + rewrite finally_drained by done. simpl. by apply flat_resume, flat_settle, flat_notify.
Qed.

Lemma flat_reached file tmp_path d evs : flat (promises (reached file tmp_path d evs)).
Proof.
  unfold reached.
  assert (G : ∀ σ, consistent σ → flat (promises σ) → flat (promises (Compact.run σ evs))).
  { induction evs as [|ev rest IH]; intros σ Hc Hf; [done|].
    simpl. apply IH; [by apply consistent_step|by apply flat_step]. }
  apply G; [apply consistent_boot|]. intros w q Hw. done.
Qed.

(** ** The last payload reaches the file *)

Lemma payloads_app evs1 evs2 : payloads (evs1 ++ evs2) = payloads evs1 ++ payloads evs2.
Proof.
  induction evs1 as [|[c| |err] evs1 IH]; simpl; [done| |done|done]. by rewrite IH.
Qed.

Lemma latest_kept_reached file tmp_path d evs :
  latest_kept evs (reached file tmp_path d evs).
Proof.
  induction evs as [|ev rest IH] using rev_ind; [done|].
  unfold reached in *. rewrite run_app. simpl.
  set (σ := Compact.run (boot (writer_on file tmp_path) d) rest) in *.
  assert (Hc : consistent σ) by apply consistent_reachable.
  destruct IH as [IH1 IH2]. unfold latest_kept. rewrite payloads_app.
  destruct (step_cases σ ev) as [(c & -> & ->)|[(Hp & Hfl & ->)|[(f & a & b & Hfl & -> & ->)|(f & op & Hfl & He & Hp)]]].
  - simpl. rewrite last_snoc. destruct (active (this σ)) eqn:Ha.
    + destruct (queued (this σ)) as [q|] eqn:Hq.
      * rewrite (write_busy_again _ _ q) by done. simpl. split; [congruence|done].
      * rewrite write_busy_first by done. simpl. split; [congruence|done].
    + destruct (consistent_idle σ Hc Ha) as (_ & _ & _ & _ & _ & Hb).
      rewrite write_idle by done. simpl. rewrite Hb. split; [done|].
      intros _ _. apply written_snoc_write.
  - rewrite Hp, app_nil_r. done.
  - simpl. rewrite app_nil_r, written_snoc_rename. split; [done|].
    intros _. apply IH2. rewrite (c_active σ Hc), Hfl. done.
  - rewrite Hp, app_nil_r. rewrite (step_ends _ _ _ _ Hfl He).
    destruct (buffer (this σ)) as [next|] eqn:Hb.
    + rewrite (finally_buffered _ _ _ next) by done. simpl. split; [done|].
      intros _ _. rewrite written_snoc_write. symmetry. by apply IH1.
    + rewrite finally_drained by done. simpl. done.
Qed.

(** What a storage operation that fulfils leads to. *)
Lemma fulfilled_step σ :
  let σ' := Compact.step σ StorageOk in
  match in_flight σ with
  | None => σ' = σ
  | Some (f, WriteFile a c) =>
      (∃ b, in_flight σ' = Some (f, Rename (tmp (this σ)) b)) ∧
      buffer (this σ') = buffer (this σ) ∧
      disk σ' = {| tmp_file := Some c; target_file := target_file (disk σ) |}
  | Some (f, Rename a b) =>
      disk σ' = {| tmp_file := None; target_file := tmp_file (disk σ) |} ∧
      buffer (this σ') = None ∧
      match buffer (this σ) with
      | Some next => ∃ f' a', in_flight σ' = Some (f', WriteFile a' next)
      | None => in_flight σ' = None
      end
  end.
Proof.
  cbn zeta. destruct (in_flight σ) as [[f [a c|a b]]|] eqn:Hfl.
  - simpl. rewrite Hfl. simpl. split_and!; eauto.
  - assert (He : ends_generation σ StorageOk = true) by (unfold ends_generation; by rewrite Hfl).
    rewrite (step_ends _ _ _ _ Hfl He).
    destruct (buffer (this σ)) as [next|] eqn:Hb.
    + rewrite (finally_buffered _ _ _ next) by done. simpl. split_and!; eauto.
    + rewrite finally_drained by done. simpl. done.
  - simpl. by rewrite Hfl.
Qed.

Lemma fulfilled_idle n : ∀ σ,
  in_flight σ = None → Compact.run σ (replicate n StorageOk) = σ.
Proof.
  induction n as [|n IH]; intros σ Hfl; [done|].
  simpl. rewrite Hfl. by apply IH.
Qed.

(** A generation with nothing buffered behind it, when the storage
    fulfils: the file holds its payload. *)
Lemma fulfilled_generation σ f op n :
  staged σ → in_flight σ = Some (f, op) → buffer (this σ) = None → (2 ≤ n)%nat →
  let σ' := Compact.run σ (replicate n StorageOk) in
  in_flight σ' = None ∧ target_file (disk σ') = last (written (oplog σ)) ∧
  tmp_file (disk σ') = None.
Proof.
  intros Hs Hfl Hb Hn. unfold staged in Hs. rewrite Hfl in Hs.
  pose proof (fulfilled_step σ) as H1. rewrite Hfl in H1. cbn zeta in H1.
  destruct op as [a c|a b].
  - destruct H1 as ((b & Hfl1) & Hb1 & Hd1).
    pose proof (fulfilled_step (Compact.step σ StorageOk)) as H2.
    rewrite Hfl1, Hb1, Hb, Hd1 in H2. cbn zeta in H2. destruct H2 as (Hd2 & _ & Hfl2).
    replace n with (2 + (n - 2))%nat by lia. rewrite replicate_add.
    cbn zeta. rewrite run_app. cbn [replicate Compact.run foldl].
    fold (Compact.run (Compact.step (Compact.step σ StorageOk) StorageOk) (replicate (n - 2) StorageOk)).
    rewrite fulfilled_idle by done. rewrite Hd2, Hs. done.
  - destruct Hs as (c & Hl & Ht). rewrite Hb, Ht in H1. destruct H1 as (Hd1 & _ & Hfl1).
    replace n with (1 + (n - 1))%nat by lia. rewrite replicate_add.
    cbn zeta. rewrite run_app. cbn [replicate Compact.run foldl].
    fold (Compact.run (Compact.step σ StorageOk) (replicate (n - 1) StorageOk)).
    rewrite fulfilled_idle by done. rewrite Hd1, Hl. done.
Qed.

(** X4.  The last write wins.  From any state in which the writer is
    busy: if no further call arrives and the storage operations fulfil,
    then after at most four of them the writer is idle, the target file
    holds the payload of the last call of [write], and the temporary file
    is gone. *)
Theorem last_write_wins file tmp_path d evs n :
  busy (this (reached file tmp_path d evs)) = true → (4 ≤ n)%nat →
  let σ := Compact.run (reached file tmp_path d evs) (replicate n StorageOk) in
  busy (this σ) = false ∧
  (∃ c, last (payloads evs) = Some c ∧ target_file (disk σ) = Some c) ∧
  tmp_file (disk σ) = None.
Proof.
  intros Hb Hn. set (σ0 := reached file tmp_path d evs) in *.
  assert (Hc : consistent σ0) by apply reached_consistent.
  assert (Hs : staged σ0) by (apply staged_run; exact I).
  destruct (latest_kept_reached file tmp_path d evs) as [Hk1 Hk2]. fold σ0 in Hk1, Hk2.
  destruct (consistent_busy σ0 Hc Hb) as (f & op & Hfl).
  assert (G : ∀ σ, consistent σ →
            in_flight σ = None → target_file (disk σ) = last (payloads evs) →
            is_Some (target_file (disk σ)) → tmp_file (disk σ) = None →
            busy (this σ) = false ∧
            (∃ c, last (payloads evs) = Some c ∧ target_file (disk σ) = Some c) ∧
            tmp_file (disk σ) = None).
  { intros σ Hcσ Hflσ Ht [c Hsome] Htmp. split_and!; [|exists c; split; congruence|done].
    unfold busy. by rewrite (c_active σ Hcσ), Hflσ. }
  assert (Hlast : ∀ σ g o, staged σ → in_flight σ = Some (g, o) →
            is_Some (last (written (oplog σ)))).
  { intros σ g o Hst Hg. unfold staged in Hst. rewrite Hg in Hst.
    destruct o as [a c|a b]; [eauto|]. destruct Hst as (c & -> & _). eauto. }
  cbn zeta. destruct (buffer (this σ0)) as [next|] eqn:Hbuf.
  - (* a payload is buffered: the generation in flight, then its own *)
    specialize (Hk1 next eq_refl).
    assert (E : ∃ k f' a', (k ≤ 2)%nat ∧
              let σ1 := Compact.run σ0 (replicate k StorageOk) in
              in_flight σ1 = Some (f', WriteFile a' next) ∧ buffer (this σ1) = None).
    { pose proof (fulfilled_step σ0) as H1. rewrite Hfl in H1. cbn zeta in H1.
      destruct op as [a c|a b].
      - destruct H1 as ((b & Hfl1) & Hb1 & Hd1).
        pose proof (fulfilled_step (Compact.step σ0 StorageOk)) as H2.
        rewrite Hfl1, Hb1, Hbuf in H2. cbn zeta in H2.
        destruct H2 as (_ & Hb2 & f' & a' & Hfl2).
        exists 2%nat, f', a'. split; [lia|]. simpl. done.
      - rewrite Hbuf in H1. destruct H1 as (_ & Hb1 & f' & a' & Hfl1).
        exists 1%nat, f', a'. split; [lia|]. simpl. done. }
    destruct E as (k & f' & a' & Hk & Hfl1 & Hb1). cbn zeta in Hfl1, Hb1.
    replace n with (k + (n - k))%nat by lia. rewrite replicate_add, run_app.
    set (σ1 := Compact.run σ0 (replicate k StorageOk)) in *.
    assert (Hc1 : consistent σ1) by (by apply consistent_run).
    assert (Hs1 : staged σ1) by (by apply staged_run).
    destruct (fulfilled_generation σ1 f' _ (n - k)%nat Hs1 Hfl1 Hb1) as (Hfl2 & Ht2 & Htmp2); [lia|].
    cbn zeta in Hfl2, Ht2, Htmp2.
    assert (Hw : last (written (oplog σ1)) = Some next).
    { unfold staged in Hs1. by rewrite Hfl1 in Hs1. }
    apply G; [by apply consistent_run|done|congruence|rewrite Ht2, Hw; eauto|done].
  - (* nothing is buffered: the generation in flight has the last payload *)
    specialize (Hk2 Hb eq_refl).
    destruct (fulfilled_generation σ0 f op n Hs Hfl Hbuf) as (Hfl2 & Ht2 & Htmp2); [lia|].
    cbn zeta in Hfl2, Ht2, Htmp2.
    apply G; [by apply consistent_run|done|congruence| |done].
    rewrite Ht2. by eapply Hlast.
Qed.

Lemma last_write_wins_witness :
  busy (this (reached (PathString "f") ".f.tmp" (MkFiles None None)
                [Call "A"; Call "B"; StorageOk; Call "C"])) = true ∧
  (4 ≤ 4)%nat ∧
  busy (this (Compact.run (reached (PathString "f") ".f.tmp" (MkFiles None None)
                             [Call "A"; Call "B"; StorageOk; Call "C"])
                (replicate 4 StorageOk))) = false ∧
  (∃ c, last (payloads [Call "A"; Call "B"; StorageOk; Call "C"]) = Some c ∧
        target_file (disk (Compact.run (reached (PathString "f") ".f.tmp" (MkFiles None None)
                                          [Call "A"; Call "B"; StorageOk; Call "C"])
                             (replicate 4 StorageOk))) = Some c) ∧
  tmp_file (disk (Compact.run (reached (PathString "f") ".f.tmp" (MkFiles None None)
                                 [Call "A"; Call "B"; StorageOk; Call "C"])
                    (replicate 4 StorageOk))) = None.
Proof.
  split; [reflexivity|]. split; [lia|].
  apply (last_write_wins (PathString "f") ".f.tmp" (MkFiles None None)
           [Call "A"; Call "B"; StorageOk; Call "C"] 4); [reflexivity|lia].
Defined.

(** X5.  From any state, the calls of a run return pairwise different
    promises, one per call, none of which existed before the run. *)
Theorem every_call_returns_a_new_promise σ evs :
  NoDup (handles Compact.step Compact.write σ evs) ∧
  length (handles Compact.step Compact.write σ evs) = length (payloads evs) ∧
  Forall (λ p, (length (promises σ) ≤ p < length (promises (Compact.run σ evs)))%nat)
    (handles Compact.step Compact.write σ evs).
Proof.
  destruct (handles_fresh evs σ) as (Hb & Hs & Hl). split_and!; [|done|done].
  clear -Hs. induction Hs as [|p ps Hs IH Hall]; [constructor|].
  apply NoDup_cons. split; [|done].
  intros Hin. eapply Forall_forall in Hall; [|exact Hin]. lia.
Qed.

Lemma chain_outcome_Some fs : ∀ s p,
  p ∈ map promise fs → is_Some (chain_outcome s fs p).
Proof.
  induction fs as [|fr rest IH]; intros s p Hp; [by apply elem_of_nil in Hp|].
  simpl. destruct (decide (p = promise fr)); [eauto|].
  simpl in Hp. apply elem_of_cons in Hp as [?|Hp]; [done|]. by apply IH.
Qed.

Lemma ends_length σ ev f op :
  in_flight σ = Some (f, op) → ends_generation σ ev = true →
  length (promises (Compact.step σ ev)) =
    (length (promises σ) + match buffer (this σ) with Some _ => 2 | None => 0 end)%nat.
Proof.
  intros Hfl He. rewrite (step_ends _ _ _ _ Hfl He).
  destruct (buffer (this σ)) as [next|] eqn:Hb.
  - rewrite (finally_buffered _ _ _ next) by done. simpl.
    rewrite !length_app, notify_length. simpl. lia.
  - rewrite finally_drained by done. simpl.
    rewrite resume_length, settle_length, notify_length. lia.
Qed.

Lemma live_cases σ p :
  p ∈ live σ →
  (∃ op, in_flight σ = Some (p, op)) ∨ p ∈ map promise (suspended σ) ∨
  current (this σ) = Some (Callbacks p) ∨ queued (this σ) = Some p.
Proof.
  unfold live. rewrite !elem_of_app. intros [H|[H|[H|H]]].
  - left. destruct (in_flight σ) as [[f op]|]; [|by apply elem_of_nil in H].
    apply list_elem_of_singleton in H as ->. eauto.
  - by right; left.
  - right. right. left. destruct (current (this σ)) as [[q]|]; [|by apply elem_of_nil in H].
    by apply list_elem_of_singleton in H as ->.
  - right. right. right. destruct (queued (this σ)) as [q|]; [|by apply elem_of_nil in H].
    by apply list_elem_of_singleton in H as ->.
Qed.

Lemma tracked_step σ ev :
  consistent σ → tracked σ → notice_of ev ≠ None → tracked (Compact.step σ ev).
Proof.
  intros Hc Ht Hn p Hp.
  pose proof (consistent_step σ ev Hc) as Hc'.
  destruct (step_cases σ ev) as [(c & -> & E)|[(_ & Hfl & E)|[(f & a & b & Hfl & -> & E)|(f & op & Hfl & He & _)]]].
  - rewrite E in *. destruct (active (this σ)) eqn:Ha.
    + destruct (queued (this σ)) as [q|] eqn:Hq.
      * revert Hp. rewrite (write_busy_again _ _ q) by done. unfold pending_in, live. simpl.
        intros Hp. apply lookup_app_Some in Hp as [Hp|[_ Hp]].
        -- specialize (Ht p Hp). unfold live in Ht. by rewrite Hq in Ht.
        -- destruct (p - length (promises σ))%nat as [|n]; simpl in Hp; [done|by destruct n].
      * revert Hp. rewrite write_busy_first by done. unfold pending_in, live. simpl.
        intros Hp. apply lookup_app_Some in Hp as [Hp|[_ Hp]].
        2:{ rewrite length_app in Hp.
            destruct (p - (length (promises σ) + length [Own None]))%nat as [|n];
              simpl in Hp; [done|by destruct n]. }
        apply lookup_app_Some in Hp as [Hp|[Hge Hp]].
        -- specialize (Ht p Hp). unfold live in Ht. rewrite Hq in Ht.
           rewrite !elem_of_app in *. destruct Ht as [?|[?|[?|?]]]; auto.
           by apply elem_of_nil in H.
        -- assert (p = length (promises σ)) as ->.
           { apply lookup_lt_Some in Hp. simpl in Hp. lia. }
           rewrite !elem_of_app. do 3 right. left.
    + revert Hp. rewrite write_idle by done. unfold pending_in, live. simpl.
      intros Hp. apply lookup_app_Some in Hp as [Hp|[_ Hp]].
      2:{ rewrite length_app in Hp.
          destruct (p - (length (promises σ) + length [Own None]))%nat as [|n];
            simpl in Hp; [done|by destruct n]. }
      apply lookup_app_Some in Hp as [Hp|[Hge Hp]].
      * specialize (Ht p Hp). destruct (consistent_idle σ Hc Ha) as (Hfl & Hs & Hcur & _ & Hq & _).
        unfold live in Ht. rewrite Hfl, Hs, Hcur, Hq in Ht. by apply elem_of_nil in Ht.
      * assert (p = length (promises σ)) as ->.
        { apply lookup_lt_Some in Hp. simpl in Hp. lia. }
        left.
  - rewrite E in *. by apply Ht.
  - rewrite E in *. simpl in Hp. specialize (Ht p Hp).
    unfold live in *. simpl. by rewrite Hfl in Ht.
  - pose proof (ends_length σ ev f op Hfl He) as Hlen.
    destruct (ends_writer σ ev f op Hfl He) as (Ecur & _ & Eq & _).
    destruct (decide (p < length (promises σ))%nat) as [Hlt|Hge].
    + destruct (lookup_lt_is_Some_2 _ _ Hlt) as [x Hx].
      assert (Hin : p ∈ live σ).
      { destruct (decide (p ∈ live σ)) as [|Hnot]; [done|].
        destruct (step_dropped σ ev p x Hc Hnot Hx) as [Hx' _].
        unfold pending_in in Hp. rewrite Hx' in Hp. injection Hp as ->. by apply Ht. }
      apply live_cases in Hin as [[op' Hf]|[Hfr|[Hcur|Hq]]].
      * assert (p = f) as -> by congruence.
        destruct (buffer (this σ)) as [next|] eqn:Hb.
        -- destruct (ends_buffered σ ev f op next Hfl He Hb) as (_ & _ & Hsus & _).
           unfold live. rewrite Hsus. rewrite !elem_of_app. right. left. left.
        -- destruct (ends_drained σ ev f op Hc Hfl He Hb) as (_ & _ & _ & Hf' & _).
           unfold pending_in in Hp. by rewrite Hf' in Hp.
      * destruct (buffer (this σ)) as [next|] eqn:Hb.
        -- destruct (ends_buffered σ ev f op next Hfl He Hb) as (_ & _ & Hsus & _).
           unfold live. rewrite Hsus. rewrite !elem_of_app. right. left. by right.
        -- destruct (ends_drained σ ev f op Hc Hfl He Hb) as (_ & _ & _ & _ & Hfr').
           unfold pending_in in Hp. rewrite (Hfr' p Hfr) in Hp.
           destruct (chain_outcome_Some (suspended σ) (outcome (completion_of ev)) p Hfr) as [s Hs].
           by rewrite Hs in Hp.
      * pose proof (ends_current σ ev f op p Hc Hfl He Hcur) as Hq'.
        unfold pending_in in Hp. rewrite Hq' in Hp. by destruct (notice_of ev).
      * apply live_current. by rewrite Ecur, (c_waiting σ Hc), Hq.
    + unfold pending_in in Hp. pose proof (lookup_lt_Some _ _ _ Hp) as Hlt.
      destruct (buffer (this σ)) as [next|] eqn:Hb; [|lia].
      destruct (ends_buffered σ ev f op next Hfl He Hb) as (Hfl' & _ & _ & Had).
      destruct (decide (p = length (promises σ))) as [->|Hne].
      * by eapply live_in_flight.
      * assert (p = S (length (promises σ))) as -> by lia. by rewrite Had in Hp.
Qed.

Lemma tracked_reached file tmp_path d evs :
  errors_only evs → tracked (reached file tmp_path d evs).
Proof.
  unfold reached.
  assert (G : ∀ σ, consistent σ → tracked σ → errors_only evs →
                   tracked (Compact.run σ evs)).
  { induction evs as [|ev rest IH]; intros σ Hc Ht He; [done|].
    apply Forall_cons in He as [He1 He2].
    simpl. apply IH; [by apply consistent_step|by apply tracked_step|done]. }
  intros He. apply G; [apply consistent_boot| |done]. intros p Hp. done.
Qed.

Lemma handles_adopt evs : ∀ σ,
  Forall (λ p, ∃ q, promises (Compact.run σ evs) !! p = Some (Adopt q))
    (handles Compact.step Compact.write σ evs).
Proof.
  induction evs as [|ev rest IH]; intros σ; [constructor|].
  destruct ev as [c| |err]; cbn [handles]; try apply IH.
  constructor; [|apply IH].
  assert (∃ q, promises (Compact.write c σ).2 !! (Compact.write c σ).1 = Some (Adopt q)) as [q Hq].
  { unfold Compact.write, Compact.defer, Compact.flush, alloc.
    destruct (active (this σ)); [destruct (queued (this σ))|]; simpl;
      eexists; apply lookup_alloc_new. }
  exists q. simpl. by apply run_adopt.
Qed.

(** X6.  States are taken when the reactions to the last event have run,
    at the end of a turn of the event loop.  If every storage failure is an
    [Error] object and the turn ends with the writer idle, every promise
    that [write] has returned is settled by then.  (Within the turn, the
    activations suspended in [await this.write(next)] resume one reaction
    after the other, so [busy] is false a few reactions before the
    promises of the outer activations settle.) *)
Theorem idle_writer_owes_nothing file tmp_path d evs :
  errors_only evs →
  busy (this (reached file tmp_path d evs)) = false →
  Forall (λ p, is_Some (state_of (promises (reached file tmp_path d evs)) p))
    (handles Compact.step Compact.write (boot (writer_on file tmp_path) d) evs).
Proof.
  intros He Hb. set (σ := reached file tmp_path d evs) in *.
  assert (Hc : consistent σ) by apply reached_consistent.
  pose proof (tracked_reached file tmp_path d evs He) as Ht. fold σ in Ht.
  destruct (consistent_idle σ Hc Hb) as (Hfl & Hs & Hcur & _ & Hq & _).
  eapply Forall_impl; [apply handles_adopt|]. intros p [q Hp]. simpl.
  fold (reached file tmp_path d evs) in Hp. fold σ in Hp.
  destruct (flat_reached file tmp_path d evs p q Hp) as [st Hst]. fold σ in Hst.
  rewrite (state_of_adopt _ _ _ _ Hp Hst).
  destruct st as [s|]; [eauto|]. exfalso.
  specialize (Ht q Hst). unfold live in Ht. rewrite Hfl, Hs, Hcur, Hq in Ht.
  by apply elem_of_nil in Ht.
Qed.

Lemma idle_writer_owes_nothing_witness :
  errors_only [Call "A"; Call "B"; StorageFail (ErrorObject "EIO"); StorageOk; StorageOk] ∧
  busy (this (reached (PathString "f") ".f.tmp" (MkFiles None None)
                [Call "A"; Call "B"; StorageFail (ErrorObject "EIO"); StorageOk; StorageOk]))
    = false ∧
  Forall (λ p, is_Some (state_of (promises (reached (PathString "f") ".f.tmp" (MkFiles None None)
            [Call "A"; Call "B"; StorageFail (ErrorObject "EIO"); StorageOk; StorageOk])) p))
    (handles Compact.step Compact.write (boot (writer_on (PathString "f") ".f.tmp")
                                           (MkFiles None None))
       [Call "A"; Call "B"; StorageFail (ErrorObject "EIO"); StorageOk; StorageOk]).
Proof.
  assert (He : errors_only [Call "A"; Call "B"; StorageFail (ErrorObject "EIO");
                            StorageOk; StorageOk]) by (repeat constructor; done).
  split; [exact He|]. split; [reflexivity|].
  apply (idle_writer_owes_nothing (PathString "f") ".f.tmp" (MkFiles None None) _ He). reflexivity.
Defined.

(** X1.  [busy] is true exactly while a storage operation is in flight;
    when it is false, [#current], [#waiting], [#queued] and [#buffer] are
    all null. *)
Theorem busy_iff_storage_in_flight file tmp_path d evs :
  let σ := reached file tmp_path d evs in
  (busy (this σ) = true ↔ is_Some (in_flight σ)) ∧
  (busy (this σ) = false →
     current (this σ) = None ∧ waiting (this σ) = None ∧
     queued (this σ) = None ∧ buffer (this σ) = None).
Proof.
  intros σ. assert (Hc : consistent σ) by apply reached_consistent. split.
  - unfold busy. rewrite (c_active σ Hc). destruct (in_flight σ); split; try done; eauto.
  - intros Hb. by destruct (consistent_idle σ Hc Hb) as (_ & _ & ? & ? & ? & ?).
Qed.

(** ** A failure at the end of a burst *)

Lemma chain_outcome_rejected fs : ∀ err p,
  p ∈ map promise fs → chain_outcome (Rejected err) fs p = Some (Rejected err).
Proof.
  induction fs as [|fr rest IH]; intros err p Hp; [by apply elem_of_nil in Hp|].
  simpl. destruct (decide (p = promise fr)); [done|].
  simpl in Hp. apply elem_of_cons in Hp as [?|Hp]; [done|]. by apply IH.
Qed.

(** X7.  When a generation fails with nothing buffered, the writer goes
    idle and the error rejects its own sequence and every activation
    suspended around it, whatever their own generations did, also when
    the thrown value is not an [Error]. *)
Theorem last_failure_rejects_whole_chain file tmp_path d evs f op err :
  in_flight (reached file tmp_path d evs) = Some (f, op) →
  buffer (this (reached file tmp_path d evs)) = None →
  let σ := reached file tmp_path d evs in
  let τ := Compact.step σ (StorageFail err) in
  busy (this τ) = false ∧
  Forall (λ p, promises τ !! p = Some (Own (Some (Rejected err))))
    (f :: map promise (suspended σ)) ∧
  Forall (λ fr, state_of (promises τ) (awaiting fr) = Some (Rejected err)) (suspended σ).
Proof.
  intros Hfl Hbuf σ τ. assert (Hc : consistent σ) by apply reached_consistent.
  assert (He : ends_generation σ (StorageFail err) = true).
  { unfold ends_generation, σ. by rewrite Hfl. }
  destruct (ends_drained σ _ f op Hc Hfl He Hbuf) as (_ & _ & _ & Hf & Hfr).
  destruct (ends_writer σ _ f op Hfl He) as (_ & _ & _ & _ & Ea).
  fold τ in Hf, Hfr, Ea. simpl in Hf, Hfr.
  assert (Hall : Forall (λ p, promises τ !! p = Some (Own (Some (Rejected err))))
                   (f :: map promise (suspended σ))).
  { constructor; [done|]. apply Forall_forall. intros p Hp.
    rewrite (Hfr p Hp). by rewrite chain_outcome_rejected. }
  split_and!; [by unfold busy; rewrite Ea; unfold σ; rewrite Hbuf|done|].
  pose proof (c_chain σ Hc) as Hch. unfold σ in Hch. rewrite Hfl in Hch. fold σ in Hch.
  clear -Hch Hall. revert f Hch Hall.
  induction (suspended σ) as [|fr rest IH]; intros f Hch Hall; [constructor|].
  destruct Hch as [Haw Hch]. apply Forall_cons in Hall as [Hf Hall]. simpl in Hall.
  constructor.
  - eapply state_of_adopt; [|exact Hf]. by apply step_adopt.
  - by apply (IH (promise fr)).
Qed.

Lemma last_failure_rejects_whole_chain_witness :
  in_flight (reached (PathString "f") ".f.tmp" (MkFiles None None) [Call "A"; Call "B"; StorageOk; StorageOk])
    = Some (4, WriteFile ".f.tmp" "B") ∧
  buffer (this (reached (PathString "f") ".f.tmp" (MkFiles None None) [Call "A"; Call "B"; StorageOk; StorageOk])) = None ∧
  busy (this (Compact.step (reached (PathString "f") ".f.tmp" (MkFiles None None) [Call "A"; Call "B"; StorageOk; StorageOk])
                (StorageFail (NotAnError "x")))) = false.
Proof.
  split; [reflexivity|]. split; [reflexivity|].
  apply (last_failure_rejects_whole_chain (PathString "f") ".f.tmp" (MkFiles None None)
           [Call "A"; Call "B"; StorageOk; StorageOk] 4 (WriteFile ".f.tmp" "B")
           (NotAnError "x")); reflexivity.
Defined.

Lemma chain_outcome_fulfilled fs : ∀ p,
  Forall (λ fr, pending fr = None) fs → p ∈ map promise fs →
  chain_outcome Fulfilled fs p = Some Fulfilled.
Proof.
  induction fs as [|fr rest IH]; intros p Hall Hp; [by apply elem_of_nil in Hp|].
  apply Forall_cons in Hall as [Hfr Hall]. simpl. rewrite Hfr. simpl.
  destruct (decide (p = promise fr)); [done|].
  simpl in Hp. apply elem_of_cons in Hp as [?|Hp]; [done|]. by apply IH.
Qed.

(** X8.  When [rename] fulfils with nothing buffered and no suspended
    activation has a failure pending, the writer goes idle and its own
    sequence and every suspended one are fulfilled. *)
Theorem clean_drain_fulfils_whole_chain file tmp_path d evs f a b :
  in_flight (reached file tmp_path d evs) = Some (f, Rename a b) →
  buffer (this (reached file tmp_path d evs)) = None →
  Forall (λ fr, pending fr = None) (suspended (reached file tmp_path d evs)) →
  let σ := reached file tmp_path d evs in
  let τ := Compact.step σ StorageOk in
  busy (this τ) = false ∧
  Forall (λ p, promises τ !! p = Some (Own (Some Fulfilled)))
    (f :: map promise (suspended σ)).
Proof.
  intros Hfl Hbuf Hall σ τ. assert (Hc : consistent σ) by apply reached_consistent.
  assert (He : ends_generation σ StorageOk = true).
  { unfold ends_generation, σ. by rewrite Hfl. }
  destruct (ends_drained σ _ f _ Hc Hfl He Hbuf) as (_ & _ & _ & Hf & Hfr).
  destruct (ends_writer σ _ f _ Hfl He) as (_ & _ & _ & _ & Ea).
  fold τ in Hf, Hfr, Ea. simpl in Hf, Hfr.
  split; [by unfold busy; rewrite Ea; unfold σ; rewrite Hbuf|].
  constructor; [done|]. apply Forall_forall. intros p Hp.
  rewrite (Hfr p Hp). by rewrite chain_outcome_fulfilled.
Qed.

Lemma clean_drain_fulfils_whole_chain_witness :
  in_flight (reached (PathString "f") ".f.tmp" (MkFiles None None) [Call "A"; Call "B"; StorageOk; StorageOk; StorageOk])
    = Some (4, Rename ".f.tmp" (PathString "f")) ∧
  buffer (this (reached (PathString "f") ".f.tmp" (MkFiles None None) [Call "A"; Call "B"; StorageOk; StorageOk; StorageOk])) = None ∧
  Forall (λ fr, pending fr = None)
    (suspended (reached (PathString "f") ".f.tmp" (MkFiles None None) [Call "A"; Call "B"; StorageOk; StorageOk; StorageOk])) ∧
  busy (this (Compact.step
                (reached (PathString "f") ".f.tmp" (MkFiles None None) [Call "A"; Call "B"; StorageOk; StorageOk; StorageOk])
                StorageOk)) = false.
Proof.
  assert (H3 : Forall (λ fr, pending fr = None)
                 (suspended (reached (PathString "f") ".f.tmp" (MkFiles None None)
                    [Call "A"; Call "B"; StorageOk; StorageOk; StorageOk]))).
  { repeat constructor. }
  split; [reflexivity|]. split; [reflexivity|]. split; [exact H3|].
  apply (clean_drain_fulfils_whole_chain (PathString "f") ".f.tmp" (MkFiles None None)
           [Call "A"; Call "B"; StorageOk; StorageOk; StorageOk] 4 ".f.tmp" (PathString "f"));
    [reflexivity|reflexivity|exact H3].
Defined.

Lemma same_storage_step σc σd ev :
  same_storage σc σd → truthy_buffer σd →
  (∀ c, ev = Call c → Documented.truthy c = true) →
  same_storage (Compact.step σc ev) (Documented.step σd ev) ∧
  truthy_buffer (Documented.step σd ev).
Proof.
  intros [H1 H2 H3 H4 H5 H6 H7] Ht Hev.
  destruct σc as [[tg1 tp1 ac1 cu1 wt1 qu1 bf1] h1 fl1 su1 d1 l1].
  destruct σd as [[tg2 tp2 ac2 cu2 wt2 qu2 bf2] h2 fl2 su2 d2 l2].
  unfold truthy_buffer in *. simpl in *. subst tg2 tp2 ac2 bf2 d2 l2.
  destruct ev as [c| |err]; simpl.
  - specialize (Hev c eq_refl).
    unfold Compact.write, Compact.defer, Compact.flush, Documented.write,
      Documented.write_start, Documented.write_queued, alloc. simpl.
    destruct ac1; simpl.
    + destruct qu1, qu2; simpl; split; try (constructor; done); simpl; intros b Hb; injection Hb as <-; done.
    + split; [constructor; done|]. simpl. done.
  - destruct fl1 as [[f1 op1]|], fl2 as [[f2 op2]|]; simpl in H5; try done;
      try (split; [constructor; done|done]).
    injection H5 as ->. destruct op2 as [a b|a b].
    + split; [constructor; done|]. simpl. done.
    + unfold Compact.flush_done, Documented.write_done, Compact.finally_, Documented.finally_.
      simpl. destruct bf1 as [next|]; simpl.
      * rewrite (Ht next eq_refl).
        unfold Compact.write, Compact.flush, Documented.write, Documented.write_start, alloc.
        simpl. split; [constructor; done|]. simpl. done.
      * destruct (resume su1 _), (resume su2 _). split; [constructor; done|]. simpl. done.
  - destruct fl1 as [[f1 op1]|], fl2 as [[f2 op2]|]; simpl in H5; try done;
      try (split; [constructor; done|done]).
    injection H5 as ->.
    unfold Compact.flush_catch, Documented.write_catch, Compact.finally_, Documented.finally_.
    simpl. destruct bf1 as [next|]; simpl.
    + rewrite (Ht next eq_refl).
      unfold Compact.write, Compact.flush, Documented.write, Documented.write_start, alloc.
      simpl. split; [constructor; done|]. simpl. done.
    + destruct (resume su1 _), (resume su2 _). split; [constructor; done|]. simpl. done.
Qed.

(** X9.  On every run whose payloads are all non-empty, the compact and
    the documented variant perform the same storage operations and leave
    the same files, the same [busy] and the same buffer. *)
Theorem variants_agree_on_storage file tmp_path d evs :
  Forall (λ c, c ≠ "") (payloads evs) →
  let σc := Compact.run (boot (writer_on file tmp_path) d) evs in
  let σd := Documented.run (boot (writer_on file tmp_path) d) evs in
  oplog σc = oplog σd ∧ disk σc = disk σd ∧
  busy (this σc) = busy (this σd) ∧ buffer (this σc) = buffer (this σd) ∧
  path (this σc) = path (this σd).
Proof.
  intros Hne.
  assert (G : ∀ evs σc σd, Forall (λ c, c ≠ "") (payloads evs) →
    same_storage σc σd → truthy_buffer σd →
    same_storage (Compact.run σc evs) (Documented.run σd evs)).
  { clear. induction evs as [|ev rest IH]; intros σc σd Hne Hs Ht; [done|].
    simpl. destruct (same_storage_step σc σd ev Hs Ht) as [Hs' Ht'].
    - intros c ->. simpl in Hne. apply Forall_cons in Hne as [Hc _].
      unfold Documented.truthy. by destruct (decide (c = "")).
    - apply IH; [|done|done]. destruct ev; simpl in Hne; [|done|done].
      by apply Forall_cons in Hne as [_ ?]. }
  intros σc σd. destruct (G evs (boot (writer_on file tmp_path) d) (boot (writer_on file tmp_path) d) Hne)
    as [H1 H2 H3 H4 H5 H6 H7]; [by constructor|done|]. done.
Qed.

Lemma variants_agree_on_storage_witness :
  let evs := [Call "A"; Call "B"; Call "C"; StorageOk; StorageFail (ErrorObject "EIO"); StorageOk] in
  Forall (λ c, c ≠ "") (payloads evs) ∧
  oplog (Compact.run scenario_world evs) = oplog (Documented.run scenario_world evs).
Proof.
  intros evs.
  assert (H : Forall (λ c, c ≠ "") (payloads evs)) by (repeat constructor; done).
  split; [exact H|].
  destruct (variants_agree_on_storage (PathString "f") ".f.tmp" (MkFiles None None) evs H)
    as [Ho _].
  exact Ho.
Defined.

(** X10.  Documented variant: when a generation ends with the empty
    string in the buffer, no new generation starts; the writer goes idle
    with the empty string still buffered, and the promoted waiters stay
    pending. *)
Theorem documented_drops_buffered_empty_string σ p op ev :
  in_flight σ = Some (p, op) → ends_generation σ ev = true →
  buffer (this σ) = Some "" →
  let τ := Documented.step σ ev in
  busy (this τ) = false ∧ in_flight τ = None ∧ oplog τ = oplog σ ∧
  buffer (this τ) = Some "" ∧ current (this τ) = waiting (this σ) ∧
  queued (this τ) = None ∧
  (∀ q, waiting (this σ) = Some (Callbacks q) → pending_in (promises σ) q →
        q ≠ p → q ∉ map promise (suspended σ) →
        current (this σ) ≠ Some (Callbacks q) →
        pending_in (promises τ) q).
Proof.
  intros Hfl He Hb τ. subst τ. unfold ends_generation in He. rewrite Hfl in He.
  assert (E : Documented.step σ ev =
    Documented.finally_ p (completion_of ev)
      {| this := this σ; promises := notify (notice_of ev) (current (this σ)) (promises σ);
         in_flight := in_flight σ; suspended := suspended σ;
         disk := match ev with StorageOk => commit op (disk σ) | _ => disk σ end;
         oplog := oplog σ |}).
  { destruct ev as [c| |err]; simpl; [done| |]; rewrite Hfl.
    - destruct op as [a b|a b]; [done|].
      unfold Documented.write_done. by rewrite call_done_notify, Hfl.
    - unfold Documented.write_catch. by rewrite call_fail_notify, Hfl. }
  rewrite E. unfold Documented.finally_. simpl. rewrite Hb. simpl.
  destruct (resume _ _) as [fs h] eqn:Hr. simpl. split_and!; auto.
  intros q _ Hq Hqp Hqs Hqc.
  pose proof (resume_lookup_ne (suspended σ)
                (settle (notify (notice_of ev) (current (this σ)) (promises σ)) p
                   (outcome (completion_of ev))) q Hqs) as Hl.
  rewrite Hr in Hl. simpl in Hl. unfold pending_in. rewrite Hl.
  rewrite settle_lookup_ne by done. rewrite notify_lookup_ne; [done|].
  intros [q'] E'. simpl. intros ->. by apply Hqc.
Qed.

Lemma documented_drops_buffered_empty_string_witness :
  let σ := Documented.run scenario_world [Call "A"; Call ""; StorageOk] in
  in_flight σ = Some (0, Rename ".f.tmp" (PathString "f")) ∧
  ends_generation σ StorageOk = true ∧ buffer (this σ) = Some "" ∧
  busy (this (Documented.step σ StorageOk)) = false ∧
  buffer (this (Documented.step σ StorageOk)) = Some "".
Proof.
  intros σ.
  assert (H1 : in_flight σ = Some (0, Rename ".f.tmp" (PathString "f"))) by reflexivity.
  assert (H2 : ends_generation σ StorageOk = true) by reflexivity.
  assert (H3 : buffer (this σ) = Some "") by reflexivity.
  destruct (documented_drops_buffered_empty_string σ _ _ _ H1 H2 H3) as (G1 & _ & _ & G4 & _).
  split_and!; [exact H1|exact H2|exact H3|exact G1|exact G4].
Defined.

Lemma paired_snoc_write (ops : list storage_op) a c :
  (∀ i a b, ops !! i = Some (Rename a b) →
     ∃ c, (0 < i)%nat ∧ ops !! (i - 1)%nat = Some (WriteFile a c)) →
  ∀ i a' b, (ops ++ [WriteFile a c]) !! i = Some (Rename a' b) →
     ∃ c', (0 < i)%nat ∧ (ops ++ [WriteFile a c]) !! (i - 1)%nat = Some (WriteFile a' c').
Proof.
  intros H i a' b Hi. apply lookup_app_Some in Hi as [Hi|[_ Hi]].
  - destruct (H i a' b Hi) as (c' & Hpos & Hc'). exists c'. split; [done|].
    by apply lookup_app_l_Some.
  - destruct (i - length ops)%nat as [|n]; simpl in Hi; [done|by destruct n].
Qed.

Lemma paired_step σ ev : paired σ → paired (Compact.step σ ev).
Proof.
  intros (HA & HB & HC).
  destruct (step_cases σ ev) as [(c & -> & ->)|[(_ & Hfl & ->)|[(f & a & b & Hfl & -> & ->)|(f & op & Hfl & He & _)]]].
  - destruct (active (this σ)) eqn:Ha.
    + destruct (queued (this σ)) as [q|] eqn:Hq.
      * by rewrite (write_busy_again _ _ q).
      * by rewrite write_busy_first.
    + rewrite write_idle by done. split_and!; simpl.
      * by apply paired_snoc_write.
      * intros f op [= <- <-]. apply last_snoc.
      * by intros f a c' [= <- <- <-].
  - done.
  - split_and!; simpl.
    + intros i a' b' Hi. apply lookup_app_Some in Hi as [Hi|[Hge Hi]].
      * destruct (HA i a' b' Hi) as (c' & Hpos & Hc'). exists c'. split; [done|].
        by apply lookup_app_l_Some.
      * assert (i = length (oplog σ)) as ->.
        { apply lookup_lt_Some in Hi. simpl in Hi. lia. }
        rewrite Nat.sub_diag in Hi. simpl in Hi. injection Hi as <- <-.
        specialize (HB f _ Hfl). specialize (HC f a b Hfl). subst a.
        exists b. rewrite last_lookup in HB.
        pose proof (lookup_lt_Some _ _ _ HB) as Hlt.
        split; [lia|].
        replace (length (oplog σ) - 1)%nat with (pred (length (oplog σ))) by lia.
        by apply lookup_app_l_Some.
    + intros f' op [= <- <-]. apply last_snoc.
    + by intros f' a' c'.
  - rewrite (step_ends _ _ _ _ Hfl He).
    destruct (buffer (this σ)) as [next|] eqn:Hb.
    + rewrite (finally_buffered _ _ _ next) by done. split_and!; simpl.
      * by apply paired_snoc_write.
      * intros f' op' [= <- <-]. apply last_snoc.
      * by intros f' a c' [= <- <- <-].
    + rewrite finally_drained by done. split_and!; simpl; done.
Qed.

Lemma paired_reached file tmp_path d evs : paired (reached file tmp_path d evs).
Proof.
  assert (G : ∀ evs σ, paired σ → paired (Compact.run σ evs)).
  { clear. induction evs as [|ev rest IH]; intros σ Hp; [done|].
    simpl. by apply IH, paired_step. }
  apply G. split_and!; simpl; done.
Qed.

(** What handling one event calls: nothing, the [writeFile] of a new
    generation, or, when [writeFile] has fulfilled, the [rename] of the
    same generation. *)
Lemma issued_cases σ ev :
  issued σ ev = [] ∨
  (∃ c, issued σ ev = [WriteFile (tmp (this σ)) c]) ∨
  (∃ f a c, ev = StorageOk ∧ in_flight σ = Some (f, WriteFile a c) ∧
     issued σ ev = [Rename (tmp (this σ)) (target (this σ))] ∧
     tmp_file (disk (Compact.step σ ev)) = Some c).
Proof.
  unfold issued.
  destruct (step_cases σ ev) as [(c & -> & ->)|[(_ & Hfl & ->)|[(f & a & b & Hfl & -> & ->)|(f & op & Hfl & He & _)]]].
  - destruct (active (this σ)) eqn:Ha.
    + left. destruct (queued (this σ)) as [q|] eqn:Hq.
      * rewrite (write_busy_again _ _ q) by done. simpl. apply drop_all.
      * rewrite write_busy_first by done. simpl. apply drop_all.
    + right. left. exists c. rewrite write_idle by done. simpl.
      by rewrite drop_app_length.
  - left. apply drop_all.
  - right. right. exists f, a, b. split_and!; [done|done| |done].
    simpl. by rewrite drop_app_length.
  - rewrite (step_ends _ _ _ _ Hfl He).
    destruct (buffer (this σ)) as [next|] eqn:Hb.
    + right. left. exists next. rewrite (finally_buffered _ _ _ next) by done. simpl.
      by rewrite drop_app_length.
    + left. rewrite finally_drained by done. simpl. apply drop_all.
Qed.

(** X11.  [rename] is called only when the [writeFile] of the same
    generation has fulfilled: in the step that handles this fulfilment, on
    the path that [writeFile] wrote, which then holds the payload, and as
    the only call of that step.  When a storage operation fails, no
    [rename] is called.  So each [rename] of the log comes right after the
    [writeFile] to the path it renames. *)
Theorem rename_only_after_fulfilled_write file tmp_path d evs :
  let σ := reached file tmp_path d evs in
  (∀ ev a b, Rename a b ∈ issued σ ev →
     ev = StorageOk ∧ issued σ ev = [Rename a b] ∧
     ∃ f c, in_flight σ = Some (f, WriteFile a c) ∧
            tmp_file (disk (Compact.step σ ev)) = Some c) ∧
  (∀ err a b, Rename a b ∉ issued σ (StorageFail err)) ∧
  (∀ i a b, oplog σ !! i = Some (Rename a b) →
     ∃ c, (0 < i)%nat ∧ oplog σ !! (i - 1)%nat = Some (WriteFile a c)).
Proof.
  intros σ. destruct (paired_reached file tmp_path d evs) as (HA & HB & HC). fold σ in HA, HB, HC.
  assert (G : ∀ ev a b, Rename a b ∈ issued σ ev →
     ev = StorageOk ∧ issued σ ev = [Rename a b] ∧
     ∃ f c, in_flight σ = Some (f, WriteFile a c) ∧
            tmp_file (disk (Compact.step σ ev)) = Some c).
  { intros ev a b Hin.
    destruct (issued_cases σ ev) as [E|[(c & E)|(f & a' & c & -> & Hfl & E & Ht)]];
      rewrite E in Hin.
    - by apply elem_of_nil in Hin.
    - by apply list_elem_of_singleton in Hin.
    - apply list_elem_of_singleton in Hin. injection Hin as -> ->.
      split_and!; [done|done|]. exists f, c. split; [|done].
      by rewrite (HC f a' c Hfl) in Hfl. }
  split_and!; [exact G| |exact HA].
  intros err a b Hin. by destruct (G _ _ _ Hin) as [? _].
Qed.

(** ** The two variants, promise by promise *)

Lemma heap_related_state φ hc hd i j :
  heap_related φ hc hd → φ !! i = Some j → state_of hc i = state_of hd j.
Proof.
  intros H Hi. destruct (hc !! i) as [[st|q]|] eqn:Hc.
  - rewrite (state_of_own _ _ _ Hc). symmetry. apply state_of_own. by eapply hr_own.
  - destruct (hr_adopt _ _ _ H i j q Hi Hc) as (jq & st & Hq & Hcq & Hj).
    rewrite (state_of_adopt _ _ _ _ Hc Hcq). symmetry.
    pose proof (hr_own _ _ _ H q jq st Hq Hcq) as Hd.
    destruct Hj as [->|Hj]; [by apply state_of_own|by eapply state_of_adopt].
  - apply lookup_ge_None in Hc. apply lookup_lt_Some in Hi.
    rewrite (hr_length _ _ _ H) in Hi. lia.
Qed.

Lemma settle_inv_own h p s i st :
  settle h p s !! i = Some (Own st) → ∃ st', h !! i = Some (Own st').
Proof.
  destruct (decide (p = i)) as [->|Hne]; [|rewrite settle_lookup_ne by done; eauto].
  unfold settle. destruct (h !! i) as [[[s'|]|q']|] eqn:E; rewrite ?E; eauto.
Qed.

Lemma heap_related_settle φ hc hd pc pd s st :
  heap_related φ hc hd → φ !! pc = Some pd → hc !! pc = Some (Own st) →
  heap_related φ (settle hc pc s) (settle hd pd s).
Proof.
  intros H Hp Hc. pose proof (hr_own _ _ _ H pc pd st Hp Hc) as Hd.
  constructor.
  - rewrite settle_length. apply H.
  - intros i j Hi. rewrite settle_length. by eapply hr_bound.
  - intros i j st' Hi Hci. destruct (decide (i = pc)) as [->|Hne].
    + assert (j = pd) as -> by congruence.
      revert Hci. unfold settle. rewrite Hc, Hd. destruct st as [s0|]; [by rewrite Hc, Hd|].
      rewrite !list_lookup_insert_eq by (by eapply lookup_lt_Some). done.
    + rewrite settle_lookup_ne in Hci by done.
      rewrite settle_lookup_ne; [by eapply hr_own|].
      intros ->. apply Hne. symmetry. by eapply (hr_inj _ _ _ H).
  - intros i j q Hi Hci. apply settle_inv_adopt in Hci.
    destruct (hr_adopt _ _ _ H i j q Hi Hci) as (jq & st' & Hq & Hcq & Hj).
    destruct (settle_own hc pc s q st' Hcq) as [st'' Hq'].
    exists jq, st''. split_and!; [done|done|].
    destruct Hj as [->|Hj]; [by left|right; by apply settle_adopt].
  - intros i i' j st1 st2 Hi Hi' H1 H2.
    apply settle_inv_own in H1 as [st1' H1]. apply settle_inv_own in H2 as [st2' H2].
    by eapply (hr_inj _ _ _ H).
Qed.

Lemma heap_related_notify φ hc hd o cc cd :
  heap_related φ hc hd → callbacks_related φ cc cd →
  (∀ c, cc = Some c → ∃ st, hc !! settles c = Some (Own st)) →
  heap_related φ (notify o cc hc) (notify o cd hd).
Proof.
  intros H Hcb Hown. destruct o as [s|], cc as [c|], cd as [d|]; simpl in *; try done.
  destruct (Hown c eq_refl) as [st Hst]. by eapply heap_related_settle.
Qed.

Lemma resume_related φ fsc : ∀ fsd hc hd,
  heap_related φ hc hd → Forall2 (frame_related φ) fsc fsd →
  Forall (λ fr, ∃ st, hc !! promise fr = Some (Own st)) fsc →
  heap_related φ (resume fsc hc).2 (resume fsd hd).2 ∧
  Forall2 (frame_related φ) (resume fsc hc).1 (resume fsd hd).1.
Proof.
  induction fsc as [|frc restc IH]; intros fsd hc hd H Hfs Hown.
  - apply Forall2_nil_inv_l in Hfs as ->. simpl. split; [done|constructor].
  - apply Forall2_cons_inv_l in Hfs as (frd & restd & (Hp & Ha & Hpe) & Hrest & ->).
    apply Forall_cons in Hown as [[st Hst] Hown].
    cbn [resume]. rewrite <- (heap_related_state _ _ _ _ _ H Ha), Hpe.
    assert (Hown' : ∀ s, Forall (λ fr, ∃ st, settle hc (promise frc) s !! promise fr = Some (Own st)) restc).
    { intros s. eapply Forall_impl; [exact Hown|]. intros fr [st' Hst']. simpl.
      by eapply settle_own. }
    destruct (state_of hc (awaiting frc)) as [[|err]|].
    + apply IH; [by eapply heap_related_settle|done|apply Hown'].
    + apply IH; [by eapply heap_related_settle|done|apply Hown'].
    + simpl. split; [done|]. constructor; [done|done].
Qed.

(** Relations survive the allocation of promises. *)
Lemma lookup_extend (φ : list nat) l i j : φ !! i = Some j → (φ ++ l) !! i = Some j.
Proof. apply lookup_app_l_Some. Qed.

Lemma callbacks_related_extend φ l c d :
  callbacks_related φ c d → callbacks_related (φ ++ l) c d.
Proof. destruct c, d; simpl; auto using lookup_extend. Qed.

Lemma pid_related_extend φ l c d : pid_related φ c d → pid_related (φ ++ l) c d.
Proof. destruct c, d; simpl; auto using lookup_extend. Qed.

Lemma frames_related_extend φ l fsc fsd :
  Forall2 (frame_related φ) fsc fsd → Forall2 (frame_related (φ ++ l)) fsc fsd.
Proof.
  intros H. eapply Forall2_impl; [exact H|]. intros frc frd (H1 & H2 & H3).
  split_and!; auto using lookup_extend.
Qed.

Lemma flight_related_extend φ l c d : flight_related φ c d → flight_related (φ ++ l) c d.
Proof. destruct c as [[f op]|], d as [[p op']|]; simpl; try done. intros [? ?]. auto using lookup_extend. Qed.

Lemma lookup_snoc_inv {A} (l : list A) x i y :
  (l ++ [x]) !! i = Some y → l !! i = Some y ∨ (i = length l ∧ y = x).
Proof.
  intros H. apply lookup_app_Some in H as [H|[Hge H]]; [by left|right].
  destruct (i - length l)%nat as [|n] eqn:E; simpl in H; [|by destruct n].
  injection H as <-. split; [lia|done].
Qed.

Lemma heap_related_add_own φ hc hd st :
  heap_related φ hc hd →
  heap_related (φ ++ [length hd]) (hc ++ [Own st]) (hd ++ [Own st]).
Proof.
  intros H. pose proof (hr_length _ _ _ H) as Hlen. constructor.
  - rewrite !length_app. simpl. lia.
  - intros i j Hi. rewrite length_app. simpl.
    apply lookup_snoc_inv in Hi as [Hi|[_ ->]]; [|lia].
    pose proof (hr_bound _ _ _ H i j Hi). lia.
  - intros i j st' Hi Hc.
    apply lookup_snoc_inv in Hi as [Hi|[-> ->]].
    + apply lookup_alloc_old. apply lookup_snoc_inv in Hc as [Hc|[-> _]].
      * by eapply hr_own.
      * apply lookup_lt_Some in Hi. lia.
    + rewrite Hlen in Hc. rewrite lookup_alloc_new in Hc. injection Hc as <-.
      apply lookup_alloc_new.
  - intros i j q Hi Hc.
    apply lookup_snoc_inv in Hc as [Hc|[_ ?]]; [|done].
    apply lookup_snoc_inv in Hi as [Hi|[-> _]].
    2:{ apply lookup_lt_Some in Hc. lia. }
    destruct (hr_adopt _ _ _ H i j q Hi Hc) as (jq & st' & Hq & Hcq & Hj).
    exists jq, st'. split_and!; [by apply lookup_extend|by apply lookup_alloc_old|].
    destruct Hj as [->|Hj]; [by left|right; by apply lookup_alloc_old].
  - intros i i' j st1 st2 Hi Hi' H1 H2.
    apply lookup_snoc_inv in Hi as [Hi|[-> ->]]; apply lookup_snoc_inv in Hi' as [Hi'|[-> E]].
    + apply lookup_snoc_inv in H1 as [H1|[-> _]]; [|apply lookup_lt_Some in Hi; lia].
      apply lookup_snoc_inv in H2 as [H2|[-> _]]; [|apply lookup_lt_Some in Hi'; lia].
      by eapply (hr_inj _ _ _ H).
    + subst j. pose proof (hr_bound _ _ _ H i _ Hi). lia.
    + pose proof (hr_bound _ _ _ H i' _ Hi'). lia.
    + done.
Qed.

Lemma heap_related_add_wrapper φ hc hd q jq st :
  heap_related φ hc hd → φ !! q = Some jq → hc !! q = Some (Own st) →
  heap_related (φ ++ [jq]) (hc ++ [Adopt q]) hd.
Proof.
  intros H Hq Hcq. pose proof (hr_length _ _ _ H) as Hlen. constructor.
  - rewrite !length_app. simpl. lia.
  - intros i j Hi. apply lookup_snoc_inv in Hi as [Hi|[_ ->]]; by eapply hr_bound.
  - intros i j st' Hi Hc.
    apply lookup_snoc_inv in Hc as [Hc|[_ ?]]; [|done].
    apply lookup_snoc_inv in Hi as [Hi|[-> _]]; [by eapply hr_own|].
    apply lookup_lt_Some in Hc. lia.
  - intros i j q' Hi Hc.
    apply lookup_snoc_inv in Hi as [Hi|[-> ->]].
    + apply lookup_snoc_inv in Hc as [Hc|[-> _]]; [|apply lookup_lt_Some in Hi; lia].
      destruct (hr_adopt _ _ _ H i j q' Hi Hc) as (jq' & st' & Hq' & Hcq' & Hj).
      exists jq', st'. split_and!; [by apply lookup_extend|by apply lookup_alloc_old|done].
    + rewrite Hlen in Hc. rewrite lookup_alloc_new in Hc. injection Hc as <-.
      exists jq, st. split_and!; [by apply lookup_extend|by apply lookup_alloc_old|by left].
  - intros i i' j st1 st2 Hi Hi' H1 H2.
    apply lookup_snoc_inv in H1 as [H1|[_ ?]]; [|done].
    apply lookup_snoc_inv in H2 as [H2|[_ ?]]; [|done].
    apply lookup_snoc_inv in Hi as [Hi|[-> _]]; [|apply lookup_lt_Some in H1; lia].
    apply lookup_snoc_inv in Hi' as [Hi'|[-> _]]; [|apply lookup_lt_Some in H2; lia].
    by eapply (hr_inj _ _ _ H).
Qed.

Lemma heap_related_add_adopt φ hc hd q jq st :
  heap_related φ hc hd → φ !! q = Some jq → hc !! q = Some (Own st) →
  heap_related (φ ++ [length hd]) (hc ++ [Adopt q]) (hd ++ [Adopt jq]).
Proof.
  intros H Hq Hcq. pose proof (hr_length _ _ _ H) as Hlen. constructor.
  - rewrite !length_app. simpl. lia.
  - intros i j Hi. rewrite length_app. simpl.
    apply lookup_snoc_inv in Hi as [Hi|[_ ->]]; [|lia].
    pose proof (hr_bound _ _ _ H i j Hi). lia.
  - intros i j st' Hi Hc.
    apply lookup_snoc_inv in Hc as [Hc|[_ ?]]; [|done].
    apply lookup_snoc_inv in Hi as [Hi|[-> _]]; [|apply lookup_lt_Some in Hc; lia].
    apply lookup_alloc_old. by eapply hr_own.
  - intros i j q' Hi Hc.
    apply lookup_snoc_inv in Hi as [Hi|[-> ->]].
    + apply lookup_snoc_inv in Hc as [Hc|[-> _]]; [|apply lookup_lt_Some in Hi; lia].
      destruct (hr_adopt _ _ _ H i j q' Hi Hc) as (jq' & st' & Hq' & Hcq' & Hj).
      exists jq', st'. split_and!; [by apply lookup_extend|by apply lookup_alloc_old|].
      destruct Hj as [->|Hj]; [by left|right; by apply lookup_alloc_old].
    + rewrite Hlen in Hc. rewrite lookup_alloc_new in Hc. injection Hc as <-.
      exists jq, st. split_and!; [by apply lookup_extend|by apply lookup_alloc_old|].
      right. apply lookup_alloc_new.
  - intros i i' j st1 st2 Hi Hi' H1 H2.
    apply lookup_snoc_inv in H1 as [H1|[_ ?]]; [|done].
    apply lookup_snoc_inv in H2 as [H2|[_ ?]]; [|done].
    apply lookup_snoc_inv in Hi as [Hi|[-> _]]; [|apply lookup_lt_Some in H1; lia].
    apply lookup_snoc_inv in Hi' as [Hi'|[-> _]]; [|apply lookup_lt_Some in H2; lia].
    by eapply (hr_inj _ _ _ H).
Qed.

Lemma lookup_snoc_new {A} (l : list A) x : (l ++ [x]) !! length l = Some x.
Proof. by apply list_lookup_middle. Qed.

Lemma notify_own o cb h q st :
  h !! q = Some (Own st) → ∃ st', notify o cb h !! q = Some (Own st').
Proof. destruct o, cb; simpl; eauto using settle_own. Qed.

(** The [finally] blocks of the two variants, from related states. *)
Lemma related_finally φ σc σd f p c :
  related φ σc σd → φ !! f = Some p →
  (∃ st, promises σc !! f = Some (Own st)) →
  Forall (λ fr, ∃ st, promises σc !! promise fr = Some (Own st)) (suspended σc) →
  truthy_buffer σd →
  ∃ l, related (φ ++ l) (Compact.finally_ f c σc) (Documented.finally_ p c σd) ∧
       truthy_buffer (Documented.finally_ p c σd).
Proof.
  intros [H1 H2 H3 H4 H5 H6 H7 H8 H9 H10 H11 H12] Hf [stf Hstf] Hown Ht.
  destruct σc as [[tg1 tp1 ac1 cu1 wt1 qu1 bf1] h1 fl1 su1 d1 l1].
  destruct σd as [[tg2 tp2 ac2 cu2 wt2 qu2 bf2] h2 fl2 su2 d2 l2].
  unfold truthy_buffer in *. simpl in *. subst tg2 tp2 ac2 bf2 d2 l2.
  pose proof (hr_length _ _ _ H7) as Hlen.
  unfold Compact.finally_, Documented.finally_. simpl. destruct bf1 as [next|].
  - rewrite (Ht next eq_refl).
    unfold Compact.write, Compact.flush, Documented.write, Documented.write_start, alloc.
    simpl. exists [length h2; length h2].
    assert (Hh : heap_related (φ ++ [length h2; length h2])
                   ((h1 ++ [Own None]) ++ [Adopt (length h1)]) (h2 ++ [Own None])).
    { replace (φ ++ [length h2; length h2]) with ((φ ++ [length h2]) ++ [length h2])
        by (by rewrite <- app_assoc).
      eapply heap_related_add_wrapper; [by apply heap_related_add_own| |apply lookup_alloc_new].
      rewrite <- Hlen. apply lookup_snoc_new. }
    split; [|simpl; done]. constructor; simpl; auto.
    + by apply callbacks_related_extend.
    + split; [done|]. rewrite <- Hlen. by rewrite lookup_app_r, Nat.sub_diag.
    + constructor; [|by apply frames_related_extend].
      split_and!; simpl; [by apply lookup_extend| |done].
      rewrite length_app. simpl. rewrite <- Hlen.
      rewrite lookup_app_r by lia. by replace (length φ + 1 - length φ)%nat with 1%nat by lia.
  - exists []. rewrite app_nil_r.
    destruct (resume_related φ su1 su2 (settle h1 f (outcome c)) (settle h2 p (outcome c)))
      as [Hh Hfs]; [by eapply heap_related_settle|done| |].
    { eapply Forall_impl; [exact Hown|]. intros fr [st Hst]. simpl. by eapply settle_own. }
    destruct (resume su1 _) as [fs1 h1'], (resume su2 _) as [fs2 h2']. simpl in *.
    split; [|simpl; done]. constructor; simpl; auto.
Qed.

Lemma related_step φ σc σd ev :
  related φ σc σd → consistent σc → truthy_buffer σd →
  (∀ c, ev = Call c → Documented.truthy c = true) →
  ∃ l, related (φ ++ l) (Compact.step σc ev) (Documented.step σd ev) ∧
       truthy_buffer (Documented.step σd ev) ∧
       (∀ c, ev = Call c →
          (φ ++ l) !! (Compact.write c σc).1 = Some (Documented.write c σd).1).
Proof.
  intros Hr Hc Ht Hev.
  destruct ev as [c| |err].
  - specialize (Hev c eq_refl).
    destruct Hr as [H1 H2 H3 H4 H5 H6 H7 H8 H9 H10 H11 H12].
    pose proof (hr_length _ _ _ H7) as Hlen.
    assert (Hq : ∀ q, queued (this σc) = Some q → pending_in (promises σc) q).
    { intros q Hq. by apply (live_pending σc q Hc), live_queued. }
    destruct σc as [[tg1 tp1 ac1 cu1 wt1 qu1 bf1] h1 fl1 su1 d1 l1].
    destruct σd as [[tg2 tp2 ac2 cu2 wt2 qu2 bf2] h2 fl2 su2 d2 l2].
    unfold truthy_buffer in *. simpl in *. subst tg2 tp2 ac2 bf2 d2 l2.
    unfold Compact.write, Compact.defer, Compact.flush, Documented.write,
      Documented.write_start, Documented.write_queued, alloc. simpl.
    destruct ac1; simpl.
    + destruct qu1 as [q|], qu2 as [q'|]; simpl in H10; try done; simpl.
      * exists [length h2].
        split_and!; [|by intros b [= <-]|intros c' _; rewrite <- Hlen; apply lookup_snoc_new].
        assert (Hh : heap_related (φ ++ [length h2]) (h1 ++ [Adopt q]) (h2 ++ [Adopt q'])).
        { eapply heap_related_add_adopt; [done|done|]. by apply Hq. }
        constructor; simpl; auto using callbacks_related_extend, lookup_extend,
          flight_related_extend, frames_related_extend.
      * exists [length h2; S (length h2)].
        assert (Hh : heap_related (φ ++ [length h2; S (length h2)])
                       ((h1 ++ [Own None]) ++ [Adopt (length h1)])
                       ((h2 ++ [Own None]) ++ [Adopt (length h2)])).
        { replace (φ ++ [length h2; S (length h2)])
            with ((φ ++ [length h2]) ++ [length (h2 ++ [Own None])])
            by (rewrite <- app_assoc, length_app; simpl; by rewrite Nat.add_1_r).
          eapply heap_related_add_adopt; [by apply heap_related_add_own| |apply lookup_alloc_new].
          rewrite <- Hlen. apply lookup_snoc_new. }
        split_and!; [|by intros b [= <-]|].
        -- constructor; simpl; auto using callbacks_related_extend,
             flight_related_extend, frames_related_extend.
           ++ rewrite <- Hlen. by rewrite lookup_app_r, Nat.sub_diag.
           ++ rewrite <- Hlen. by rewrite lookup_app_r, Nat.sub_diag.
        -- intros c' _. rewrite !length_app. simpl. rewrite <- Hlen.
           rewrite lookup_app_r by lia.
           replace (length φ + 1 - length φ)%nat with 1%nat by lia. simpl.
           f_equal. lia.
    + exists [length h2; length h2].
      assert (Hh : heap_related (φ ++ [length h2; length h2])
                     ((h1 ++ [Own None]) ++ [Adopt (length h1)]) (h2 ++ [Own None])).
      { replace (φ ++ [length h2; length h2]) with ((φ ++ [length h2]) ++ [length h2])
          by (by rewrite <- app_assoc).
        eapply heap_related_add_wrapper; [by apply heap_related_add_own| |apply lookup_alloc_new].
        rewrite <- Hlen. apply lookup_snoc_new. }
      split_and!; [|done|].
      * constructor; simpl; auto using callbacks_related_extend, pid_related_extend,
          frames_related_extend.
        split; [done|]. rewrite <- Hlen. by rewrite lookup_app_r, Nat.sub_diag.
      * intros c' _. rewrite !length_app. simpl. rewrite <- Hlen.
        rewrite lookup_app_r by lia.
        by replace (length φ + 1 - length φ)%nat with 1%nat by lia.
  - pose proof (rel_flight _ _ _ Hr) as Hfl.
    destruct (in_flight σc) as [[f op]|] eqn:Hflc, (in_flight σd) as [[p op']|] eqn:Hfld;
      simpl in Hfl; try done.
    + destruct Hfl as [<- Hfp]. simpl. rewrite Hflc, Hfld.
      destruct op as [a b|a b].
      * exists []. rewrite app_nil_r. split_and!; [|done|done].
        destruct Hr as [H1 H2 H3 H4 H5 H6 H7 H8 H9 H10 H11 H12].
        unfold Compact.flush_renaming, Documented.write_renaming.
        constructor; simpl; auto; try by rewrite ?H1, ?H2, ?H5, ?H6.
      * unfold Compact.flush_done, Documented.write_done. rewrite !call_done_notify.
        destruct (related_finally φ
          {| this := this σc; promises := notify (Some Fulfilled) (current (this σc)) (promises σc);
             in_flight := in_flight σc; suspended := suspended σc;
             disk := commit (Rename a b) (disk σc); oplog := oplog σc |}
          {| this := this σd; promises := notify (Some Fulfilled) (current (this σd)) (promises σd);
             in_flight := in_flight σd; suspended := suspended σd;
             disk := commit (Rename a b) (disk σd); oplog := oplog σd |}
          f p None) as (l & Hl & Htl).
        -- destruct Hr as [H1 H2 H3 H4 H5 H6 H7 H8 H9 H10 H11 H12].
           assert (Hh : heap_related φ
                          (notify (Some Fulfilled) (current (this σc)) (promises σc))
                          (notify (Some Fulfilled) (current (this σd)) (promises σd))).
           { apply heap_related_notify; [done|done|].
             intros [q] Hq. exists None. by apply (live_pending σc q Hc), live_current. }
           constructor; try exact Hh; simpl; auto. by rewrite H5.
        -- done.
        -- cbn [promises]. apply notify_own with (st := None).
           apply (live_pending σc f Hc). by eapply live_in_flight.
        -- cbn [promises suspended]. apply Forall_forall. intros fr Hfr.
           apply notify_own with (st := None).
           by apply (live_pending σc _ Hc), live_frame.
        -- done.
        -- exists l. rewrite ?Hflc, ?Hfld in Hl, Htl. split_and!; [done|done|done].
    + exists []. rewrite app_nil_r. simpl. rewrite Hflc, Hfld. split_and!; [done|done|done].
  - pose proof (rel_flight _ _ _ Hr) as Hfl.
    destruct (in_flight σc) as [[f op]|] eqn:Hflc, (in_flight σd) as [[p op']|] eqn:Hfld;
      simpl in Hfl; try done.
    + destruct Hfl as [<- Hfp]. simpl. rewrite Hflc, Hfld.
      unfold Compact.flush_catch, Documented.write_catch. rewrite !call_fail_notify.
      destruct (related_finally φ
        {| this := this σc;
           promises := notify (if instanceof_Error err then Some (Rejected err) else None)
                         (current (this σc)) (promises σc);
           in_flight := in_flight σc; suspended := suspended σc;
           disk := disk σc; oplog := oplog σc |}
        {| this := this σd;
           promises := notify (if instanceof_Error err then Some (Rejected err) else None)
                         (current (this σd)) (promises σd);
           in_flight := in_flight σd; suspended := suspended σd;
           disk := disk σd; oplog := oplog σd |}
        f p (Some err)) as (l & Hl & Htl).
      * destruct Hr as [H1 H2 H3 H4 H5 H6 H7 H8 H9 H10 H11 H12].
        assert (Hh : heap_related φ
                       (notify (if instanceof_Error err then Some (Rejected err) else None)
                          (current (this σc)) (promises σc))
                       (notify (if instanceof_Error err then Some (Rejected err) else None)
                          (current (this σd)) (promises σd))).
        { apply heap_related_notify; [done|done|].
          intros [q] Hq. exists None. by apply (live_pending σc q Hc), live_current. }
        constructor; try exact Hh; simpl; auto.
      * done.
      * cbn [promises]. apply notify_own with (st := None).
        apply (live_pending σc f Hc). by eapply live_in_flight.
      * cbn [promises suspended]. apply Forall_forall. intros fr Hfr.
           apply notify_own with (st := None).
        by apply (live_pending σc _ Hc), live_frame.
      * done.
      * exists l. rewrite ?Hflc, ?Hfld in Hl, Htl. split_and!; [done|done|done].
    + exists []. rewrite app_nil_r. simpl. rewrite Hflc, Hfld. split_and!; [done|done|done].
Qed.

Lemma related_run evs : ∀ φ σc σd,
  related φ σc σd → consistent σc → truthy_buffer σd →
  Forall (λ c, c ≠ "") (payloads evs) →
  ∃ l, related (φ ++ l) (Compact.run σc evs) (Documented.run σd evs) ∧
       Forall2 (λ hc hd, (φ ++ l) !! hc = Some hd)
         (handles Compact.step Compact.write σc evs)
         (handles Documented.step Documented.write σd evs).
Proof.
  induction evs as [|ev rest IH]; intros φ σc σd Hr Hc Ht Hne.
  - exists []. rewrite app_nil_r. split; [done|constructor].
  - destruct (related_step φ σc σd ev Hr Hc Ht) as (l1 & Hr1 & Ht1 & Hh1).
    { intros c ->. simpl in Hne. apply Forall_cons in Hne as [Hc' _].
      unfold Documented.truthy. by destruct (decide (c = "")). }
    destruct (IH (φ ++ l1) (Compact.step σc ev) (Documented.step σd ev) Hr1
                (consistent_step σc ev Hc) Ht1) as (l2 & Hr2 & Hh2).
    { destruct ev; simpl in Hne; [|done|done]. by apply Forall_cons in Hne as [_ ?]. }
    exists (l1 ++ l2). rewrite app_assoc. split; [done|].
    destruct ev as [c| |err]; cbn [handles]; [|done|done].
    constructor; [|done]. apply lookup_extend. by apply Hh1.
Qed.

Lemma related_boot file tmp_path d :
  related [] (boot (writer_on file tmp_path) d) (boot (writer_on file tmp_path) d).
Proof.
  constructor; simpl; auto; try constructor; simpl; try done.
Qed.

(** X12.  States are taken when the reactions to the last event have
    run, at the end of a turn of the event loop.  On every run whose
    payloads are all non-empty, the two variants give every caller the same
    outcome: at the end of every turn, the promise returned to the k-th call
    is pending, fulfilled or rejected with the same value in both.  (Within
    a turn the two variants settle a promise a few reactions apart: the
    compact one awaits the promise of the [async] wrapper, the documented
    one the promise of the call itself.) *)
Theorem variants_agree_on_outcomes file tmp_path d evs :
  Forall (λ c, c ≠ "") (payloads evs) →
  let σ0 := boot (writer_on file tmp_path) d in
  map (state_of (promises (Compact.run σ0 evs)))
    (handles Compact.step Compact.write σ0 evs)
  = map (state_of (promises (Documented.run σ0 evs)))
      (handles Documented.step Documented.write σ0 evs).
Proof.
  intros Hne σ0.
  assert (Ht : truthy_buffer σ0) by (by intros b Hb).
  destruct (related_run evs [] σ0 σ0 (related_boot _ _ _) (consistent_boot _ _ _) Ht Hne)
    as (l & Hr & Hh).
  pose proof (rel_heap _ _ _ Hr) as Hheap. clear Hr.
  induction Hh as [|hc hd hsc hsd Hcd _ IH]; [done|].
  simpl. f_equal; [|exact IH]. by eapply heap_related_state.
Qed.

Lemma variants_agree_on_outcomes_witness :
  Forall (λ c, c ≠ "") (payloads [Call "A"; Call "B"; StorageOk; StorageFail (ErrorObject "EIO")]) ∧
  map (state_of (promises (Compact.run (boot (writer_on (PathString "f") ".f.tmp") (MkFiles None None))
                             [Call "A"; Call "B"; StorageOk; StorageFail (ErrorObject "EIO")])))
    (handles Compact.step Compact.write (boot (writer_on (PathString "f") ".f.tmp") (MkFiles None None))
       [Call "A"; Call "B"; StorageOk; StorageFail (ErrorObject "EIO")])
  = map (state_of (promises (Documented.run (boot (writer_on (PathString "f") ".f.tmp") (MkFiles None None))
                               [Call "A"; Call "B"; StorageOk; StorageFail (ErrorObject "EIO")])))
      (handles Documented.step Documented.write (boot (writer_on (PathString "f") ".f.tmp") (MkFiles None None))
         [Call "A"; Call "B"; StorageOk; StorageFail (ErrorObject "EIO")]).
Proof.
  assert (H : Forall (λ c, c ≠ "")
                (payloads [Call "A"; Call "B"; StorageOk; StorageFail (ErrorObject "EIO")]))
    by (repeat constructor; done).
  split; [exact H|].
  exact (variants_agree_on_outcomes (PathString "f") ".f.tmp" (MkFiles None None) _ H).
Defined.
